(** * primitiv: the computation graph (Graph, Node, Shape)

    A shallow embedding of [primitiv/shape.h] and of the implementation
    of [primitiv::Graph] ([add_function], [forward], [backward],
    [get_value], [get_gradient] and the [CHECK_NODE] guard), followed by
    the properties of the graph engine stated against that embedding.

    Conventions.
    - A C++ [unsigned] is an [N]; the places where the source narrows a
      wider number to [unsigned] or to [int] are written out with
      [to_unsigned] and [to_int].
    - [std::vector<T>] is a [list T]; [v[i]] is stdpp's lookup and an
      access outside the vector ends the run with [Fault].
    - A pointer to the value or gradient of a node record is the position
      of that record in [nodes_]; it is dereferenced when it is used.
    - Every call that leaves the graph (the device's [constant], an
      operation's [forward] and [backward]) is appended to a log, so that
      the number, the order and the arguments of those calls can be
      stated. *)

From Stdlib Require Import ZArith NArith Lia String.
From stdpp Require Import base numbers option list relations.

Local Open Scope N_scope.

(** ** Machine integers *)

Definition UINT_MOD : N := 2 ^ 32.

(** Narrowing of a [size_t] (or any wider number) to [unsigned]. *)
Definition to_unsigned (n : N) : N := n mod UINT_MOD.

(** Conversion of an [unsigned] to [int] (two's complement). *)
Definition to_int (n : N) : Z :=
  let z := Z.of_N (to_unsigned n) in
  if (z <? 2 ^ 31)%Z then z else (z - 2 ^ 32)%Z.

(** ** Shape (primitiv/shape.h) *)

Record Shape : Type := mkShape {
  dims_ : list N;
  k_ : N;
  num_elms_per_sample_ : N
}.

#[global] Instance Shape_eq_dec : EqDecision Shape.
Proof. solve_decision. Defined.

(** [Shape()]: the scalar shape. *)
Definition Shape_scalar : Shape := mkShape [] 1 1.

(** [depth()]: [dims_.size()] returned as [unsigned]. *)
Definition depth (s : Shape) : N := to_unsigned (N.of_nat (length (dims_ s))).

(** [operator[]]: [i < depth() ? dims_[i] : 1]. *)
Definition subscript (s : Shape) (i : N) : N :=
  if i <? depth s then nth (N.to_nat i) (dims_ s) 0 else 1.

Definition dims (s : Shape) : list N := dims_ s.
Definition batch_size (s : Shape) : N := k_ s.
Definition num_elements_per_sample (s : Shape) : N := num_elms_per_sample_ s.
Definition num_total_elements (s : Shape) : N :=
  to_unsigned (k_ s * num_elms_per_sample_ s).

(** [has_same_dims]: [dims_ == rhs.dims_]. *)
Definition has_same_dims (s rhs : Shape) : bool :=
  bool_decide (dims_ s = dims_ rhs).

(** [operator==]: [has_same_dims(rhs) && k_ == rhs.k_]. *)
Definition Shape_eqb (s rhs : Shape) : bool :=
  has_same_dims s rhs && (k_ s =? k_ rhs).

(** [has_compatible_batch]: [k_ == rhs.k_ || k_ == 1 || rhs.k_ == 1]. *)
Definition has_compatible_batch (s rhs : Shape) : bool :=
  (k_ s =? k_ rhs) || (k_ s =? 1) || (k_ rhs =? 1).

(** [operator!=]: [!operator==(rhs)]. *)
Definition Shape_neqb (s rhs : Shape) : bool := negb (Shape_eqb s rhs).

(** ** Tensor and Device *)

(** Modelled from the spec: the [Tensor] and [Device] classes
    ([primitiv/tensor.h], [primitiv/device.h]) are used by the graph but
    their definitions are not part of the sources at hand.  The graph
    needs four things from them: the type of tensors, the validity test
    [valid()], the default-constructed tensor [Tensor()] and the tensor
    [v.device()->constant(shape, k)] built by the device of a tensor [v]. *)
Class TensorLike : Type := {
  Tensor : Type;
  valid : Tensor -> bool;
  Tensor_new : Tensor;
  constant : Tensor -> Shape -> Z -> Tensor
}.

(** Modelled from the spec: the two facts about that capability the
    graph relies on.  A default-constructed tensor holds no value, and a
    constant tensor built by the device of a tensor that holds a value
    holds a value too. *)
Class TensorLaws (TL : TensorLike) : Prop := {
  valid_Tensor_new : valid Tensor_new = false;
  valid_constant : forall v s k, valid v = true -> valid (constant v s k) = true
}.

Section Graph.

Context {TL : TensorLike}.

(** ** Function *)

(** Modelled from the spec: the abstract class [Function]
    ([primitiv/function.h]) is not part of the sources at hand; the graph
    calls three of its virtual methods.
    - [forward_shape(arg_shapes)] returns the result shape or throws; the
      thrown exception is kept as its message.
    - [forward(args)] returns the result tensor.
    - [backward(y, gy, xs, gxs)] updates the gradients behind the pointers
      [gxs] in place.  It is modelled by the list of updates it performs:
      the i-th function of the list is applied to the tensor behind
      [gxs[i]], in order, so that two pointers to one buffer accumulate
      into that buffer. *)
Record Function : Type := mkFunction {
  forward_shape : list Shape -> Shape + string;
  forward : list Tensor -> Tensor;
  backward_updates : Tensor -> Tensor -> list Tensor -> list (Tensor -> Tensor)
}.

(** ** Node, NodeInfo, Graph *)

(** The address of a [Graph] object. *)
Definition GraphId : Type := N.

(** [Node]: the pair of the owning graph and the position. *)
Record Node : Type := mkNode {
  g_ : GraphId;
  id_ : N
}.

(** [NodeInfo], in the order of the aggregate initialisation in
    [add_function]. *)
Record NodeInfo : Type := mkNodeInfo {
  shape : Shape;
  func : Function;
  value : Tensor;
  grad : Tensor;
  args : list N;
  sinks : list N
}.

Record Graph : Type := mkGraph {
  this : GraphId;
  nodes_ : list NodeInfo
}.

(** A freshly constructed graph at address [a]. *)
Definition Graph_new (a : GraphId) : Graph := mkGraph a [].

Definition with_value (v : Tensor) (n : NodeInfo) : NodeInfo :=
  mkNodeInfo (shape n) (func n) v (grad n) (args n) (sinks n).

Definition with_grad (gr : Tensor) (n : NodeInfo) : NodeInfo :=
  mkNodeInfo (shape n) (func n) (value n) gr (args n) (sinks n).

Definition push_sink (s : N) (n : NodeInfo) : NodeInfo :=
  mkNodeInfo (shape n) (func n) (value n) (grad n) (args n) (sinks n ++ [s]).

(** ** Calls that leave the graph *)

Inductive Event : Type :=
| ev_constant (owner : N) (old : Tensor) (s : Shape) (k : Z)
    (* [device()->constant(s, k)], assigned to [nodes_[owner]->grad],
       which held [old] *)
| ev_forward (id : N) (xs : list Tensor)
    (* [nodes_[id]->func->forward(xs)] *)
| ev_backward (id : N) (y gy : Tensor) (xs : list Tensor) (gxs : list N)
    (gs : list Tensor)
    (* [nodes_[id]->func->backward(y, gy, xs, gxs)]; [y] and [gy] are the
       value and the gradient of the node passed by reference, [gxs] are
       the positions whose gradients are pointed to and [gs] the tensors
       found there when the call is made *).

(** ** Outcomes *)

Inductive Error : Type :=
| GraphMismatched (node_g this_g : GraphId)
    (* "Graph mismatched. node.g_: ... != this: ..." *)
| NotCalculated (id : N)
    (* "Node <id> is not calculated in the forward path." *)
| AlreadyHasGradient (id : N)
    (* "Node <id> already has the gradient vector." *)
| Raised (what : string)
    (* an exception thrown by [Function::forward_shape] *).

Record World : Type := mkWorld {
  graph : Graph;
  log : list Event
}.

Inductive Res (A : Type) : Type :=
| Ok (a : A) (w : World)        (* the call returns [a] *)
| Throw (e : Error) (w : World) (* an exception reaches the caller *)
| Abort                          (* [std::abort()] *)
| Fault                          (* access outside [nodes_] *)
| Timeout                        (* the embedding ran out of fuel *).

Arguments Ok {A} a w.
Arguments Throw {A} e w.
Arguments Abort {A}.
Arguments Fault {A}.
Arguments Timeout {A}.

Definition M (A : Type) : Type := World -> Res A.

Definition ret {A} (a : A) : M A := fun w => Ok a w.

Definition bind {A B} (m : M A) (k : A -> M B) : M B := fun w =>
  match m w with
  | Ok a w' => k a w'
  | Throw e w' => Throw e w'
  | Abort => Abort
  | Fault => Fault
  | Timeout => Timeout
  end.

Notation "'do' x <- m ; k" := (bind m (fun x => k))
  (at level 10, x name, m at level 100, k at level 200,
   format "'[v' 'do'  x  <-  m ; '/' k ']'").

Definition throw {A} (e : Error) : M A := fun w => Throw e w.
Definition abort {A} : M A := fun _ => Abort.
Definition emit (e : Event) : M unit := fun w =>
  Ok tt (mkWorld (graph w) (log w ++ [e])).
Definition get_graph : M Graph := fun w => Ok (graph w) w.

(** [*nodes_[i]], read. *)
Definition node_at (i : N) : M NodeInfo := fun w =>
  match nodes_ (graph w) !! N.to_nat i with
  | Some n => Ok n w
  | None => Fault
  end.

(** A write through the reference [*nodes_[i]]. *)
Definition modify_node (i : N) (f : NodeInfo -> NodeInfo) : M unit := fun w =>
  match nodes_ (graph w) !! N.to_nat i with
  | Some n =>
      Ok tt (mkWorld (mkGraph (this (graph w))
                              (<[N.to_nat i := f n]> (nodes_ (graph w))))
                     (log w))
  | None => Fault
  end.

(** [nodes_.emplace_back(n)]. *)
Definition push_node (n : NodeInfo) : M unit := fun w =>
  Ok tt (mkWorld (mkGraph (this (graph w)) (nodes_ (graph w) ++ [n])) (log w)).

(** A range-based [for] over a vector. *)
Fixpoint for_each {A} (l : list A) (body : A -> M unit) : M unit :=
  match l with
  | [] => ret tt
  | x :: l' => do _ <- body x; for_each l' body
  end.

(** The tensors behind a vector of pointers to node values. *)
Fixpoint deref_values (ptrs : list N) : M (list Tensor) :=
  match ptrs with
  | [] => ret []
  | p :: ptrs' =>
      do n <- node_at p;
      do xs <- deref_values ptrs';
      ret (value n :: xs)
  end.

(** The tensors behind a vector of pointers to node gradients. *)
Fixpoint deref_grads (ptrs : list N) : M (list Tensor) :=
  match ptrs with
  | [] => ret []
  | p :: ptrs' =>
      do n <- node_at p;
      do gs <- deref_grads ptrs';
      ret (grad n :: gs)
  end.

(** ** CHECK_NODE *)

Definition CHECK_NODE (node : Node) : M unit := fun w =>
  if bool_decide (g_ node ≠ this (graph w)) then
    Throw (GraphMismatched (g_ node) (this (graph w))) w
  else if N.of_nat (length (nodes_ (graph w))) <=? id_ node then
    Abort
  else Ok tt w.

(** ** Graph::add_function *)

(** The first loop: checks every argument and gathers its position and
    its shape. *)
Fixpoint gather_args (nodes : list Node) (arg_ids : list N)
    (arg_shapes : list Shape) : M (list N * list Shape) :=
  match nodes with
  | [] => ret (arg_ids, arg_shapes)
  | arg :: rest =>
      do _ <- CHECK_NODE arg;
      do n <- node_at (id_ arg);
      gather_args rest (arg_ids ++ [id_ arg]) (arg_shapes ++ [shape n])
  end.

Definition call_forward_shape (f : Function) (arg_shapes : list Shape)
    : M Shape :=
  match forward_shape f arg_shapes with
  | inl s => ret s
  | inr what => throw (Raised what)
  end.

Definition add_function (f : Function) (nodes : list Node) : M Node :=
  do ga <- gather_args nodes [] [];
  let arg_ids := fst ga in
  let arg_shapes := snd ga in
  do ret_shape <- call_forward_shape f arg_shapes;
  do g <- get_graph;
  let ret_id := to_unsigned (N.of_nat (length (nodes_ g))) in
  do _ <- for_each arg_ids (fun arg_id => modify_node arg_id (push_sink ret_id));
  do _ <- push_node (mkNodeInfo ret_shape f Tensor_new Tensor_new arg_ids []);
  ret (mkNode (this g) ret_id).

(** ** Graph::forward *)

(** [forward_recursive]; the recursion of the source is bounded by
    [fuel] here. *)
Fixpoint forward_recursive (fuel : nat) (id : N) {struct fuel} : M unit :=
  match fuel with
  | O => fun _ => Timeout
  | S fuel' =>
      do n <- node_at id;
      if valid (value n) then ret tt
      else
        do _ <- for_each (args n) (fun arg_id =>
             do _ <- forward_recursive fuel' arg_id;
             do _ <- node_at arg_id;
             ret tt);
        do xs <- deref_values (args n);
        do _ <- emit (ev_forward id xs);
        modify_node id (with_value (forward (func n) xs))
  end.

Definition Graph_forward (fuel : nat) (node : Node) : M Tensor :=
  do _ <- CHECK_NODE node;
  do _ <- forward_recursive fuel (id_ node);
  do n <- node_at (id_ node);
  ret (value n).

(** ** Graph::backward *)

(** The in-place updates of [Function::backward] applied through the
    pointers [gxs]. *)
Fixpoint apply_updates (gxs : list N) (upds : list (Tensor -> Tensor))
    : M unit :=
  match gxs, upds with
  | p :: gxs', u :: upds' =>
      do _ <- modify_node p (fun n => with_grad (u (grad n)) n);
      apply_updates gxs' upds'
  | _, _ => ret tt
  end.

(** [cur_node.func->backward(cur_node.value, cur_node.grad, arg_values,
    arg_grads)]. *)
Definition call_backward (id : N) (arg_values arg_grads : list N) : M unit :=
  do cur_node <- node_at id;
  do xs <- deref_values arg_values;
  do gs <- deref_grads arg_grads;
  do _ <- emit (ev_backward id (value cur_node) (grad cur_node)
                            xs arg_grads gs);
  apply_updates arg_grads
    (backward_updates (func cur_node) (value cur_node) (grad cur_node) xs).

(** [if (!arg_node.grad.valid()) arg_node.grad = ...constant(shape, 0)]. *)
Definition ensure_grad (arg : N) : M unit :=
  do arg_node <- node_at arg;
  if valid (grad arg_node) then ret tt
  else
    do _ <- emit (ev_constant arg (grad arg_node) (shape arg_node) 0);
    modify_node arg
      (with_grad (constant (value arg_node) (shape arg_node) 0)).

(** The loop over [cur_node.args], with the two vectors it grows. *)
Fixpoint backward_args (id : N) (rest : list N)
    (arg_values arg_grads : list N) : M unit :=
  match rest with
  | [] => ret tt
  | arg :: rest' =>
      do _ <- ensure_grad arg;
      let arg_values' := arg_values ++ [arg] in
      let arg_grads' := arg_grads ++ [arg] in
      do _ <- call_backward id arg_values' arg_grads';
      backward_args id rest' arg_values' arg_grads'
  end.

(** The body of the loop over [id]. *)
Definition backward_visit (id : N) : M unit :=
  do cur_node <- node_at id;
  if valid (value cur_node) then backward_args id (args cur_node) [] []
  else ret tt.

(** [for (int id = ...; id >= 0; --id)] with [k = id + 1] iterations
    left. *)
Fixpoint backward_loop (k : nat) : M unit :=
  match k with
  | O => ret tt
  | S id => do _ <- backward_visit (N.of_nat id); backward_loop id
  end.

Definition Graph_backward (node : Node) : M unit :=
  do _ <- CHECK_NODE node;
  do last_node <- node_at (id_ node);
  if negb (valid (value last_node)) then throw (NotCalculated (id_ node))
  else if valid (grad last_node) then throw (AlreadyHasGradient (id_ node))
  else
    do _ <- emit (ev_constant (id_ node) (grad last_node) (shape last_node) 1);
    do _ <- modify_node (id_ node)
         (with_grad (constant (value last_node) (shape last_node) 1));
    backward_loop (Z.to_nat (to_int (id_ node) + 1)).

(** ** Graph::get_value, Graph::get_gradient *)

Definition get_value (node : Node) : M Tensor :=
  do _ <- CHECK_NODE node;
  do n <- node_at (id_ node);
  ret (value n).

Definition get_gradient (node : Node) : M Tensor :=
  do _ <- CHECK_NODE node;
  do n <- node_at (id_ node);
  ret (grad n).

End Graph.

Arguments Ok {TL A} a w.
Arguments Throw {TL A} e w.
Arguments Abort {TL A}.
Arguments Fault {TL A}.
Arguments Timeout {TL A}.
Arguments mkFunction {TL} _ _ _.
Arguments mkNodeInfo {TL} _ _ _ _ _ _.
Arguments mkGraph {TL} _ _.
Arguments mkWorld {TL} _ _.
Arguments ev_constant {TL} _ _ _ _.
Arguments ev_forward {TL} _ _.
Arguments ev_backward {TL} _ _ _ _ _ _.

Notation "'do' x <- m ; k" := (bind m (fun x => k))
  (at level 10, x name, m at level 100, k at level 200,
   format "'[v' 'do'  x  <-  m ; '/' k ']'").

(** ** Invariants of the graph, reachable states *)

Section Invariants.

Context {TL : TensorLike}.

(** The world a call leaves behind, when the process survives it. *)
Definition after {A} (r : Res A) : option World :=
  match r with
  | Ok _ w | Throw _ w => Some w
  | _ => None
  end.

(** Every operand position of a node is below the node's position. *)
Definition args_below (g : Graph) : Prop :=
  forall p n a, nodes_ g !! p = Some n -> a ∈ args n -> (N.to_nat a < p)%nat.

(** Every consumer position of a node is above the node's position. *)
Definition sinks_above (g : Graph) : Prop :=
  forall p n s, nodes_ g !! p = Some n -> s ∈ sinks n -> (p < N.to_nat s)%nat.

(** [order] lists node positions so that every operand of a listed node
    is listed before it. *)
Definition dependency_order (g : Graph) (order : list nat) : Prop :=
  forall i p n a,
    order !! i = Some p -> nodes_ g !! p = Some n -> a ∈ args n ->
    exists j, (j < i)%nat /\ order !! j = Some (N.to_nat a).

(** The operands of a node that holds a value hold values. *)
Definition values_closed (g : Graph) : Prop :=
  forall p n a na,
    nodes_ g !! p = Some n -> valid (value n) = true ->
    a ∈ args n -> nodes_ g !! N.to_nat a = Some na ->
    valid (value na) = true.

(** A node that holds a gradient holds a value. *)
Definition grads_realized (g : Graph) : Prop :=
  forall p n, nodes_ g !! p = Some n ->
    valid (grad n) = true -> valid (value n) = true.

(** The contract of [Function::forward]: from operand tensors that hold
    values it produces a tensor that holds a value. *)
Definition realizes (f : Function) : Prop :=
  forall xs, Forall (fun x => valid x = true) xs -> valid (forward f xs) = true.

Definition funcs_satisfy (P : Function -> Prop) (g : Graph) : Prop :=
  forall p n, nodes_ g !! p = Some n -> P (func n).

(** The positions whose [forward] was called, in the order of the calls. *)
Fixpoint forward_ids (tr : list Event) : list N :=
  match tr with
  | [] => []
  | ev_forward id _ :: tr' => id :: forward_ids tr'
  | _ :: tr' => forward_ids tr'
  end.

(** The positions whose [backward] was called, in the order of the
    calls. *)
Fixpoint backward_ids (tr : list Event) : list N :=
  match tr with
  | [] => []
  | ev_backward id _ _ _ _ _ :: tr' => id :: backward_ids tr'
  | _ :: tr' => backward_ids tr'
  end.

(** The states a program can bring a graph to: a new graph, then any
    sequence of calls of the public methods, every operation handed to
    [add_function] satisfying [P]. *)
Inductive reachable (P : Function -> Prop) : World -> Prop :=
| reach_new a :
    reachable P (mkWorld (Graph_new a) [])
| reach_add_function w f nodes w' :
    reachable P w -> P f ->
    after (add_function f nodes w) = Some w' -> reachable P w'
| reach_forward w fuel node w' :
    reachable P w ->
    after (Graph_forward fuel node w) = Some w' -> reachable P w'
| reach_backward w node w' :
    reachable P w ->
    after (Graph_backward node w) = Some w' -> reachable P w'
| reach_get_value w node w' :
    reachable P w ->
    after (get_value node w) = Some w' -> reachable P w'
| reach_get_gradient w node w' :
    reachable P w ->
    after (get_gradient node w) = Some w' -> reachable P w'.

(** A call that never lets an exception reach its caller. *)
Definition never_throws {A} (m : M A) : Prop :=
  forall w e w', m w <> Throw e w'.

(** A handle that passes [CHECK_NODE] on [g]. *)
Definition handle_ok (g : Graph) (node : Node) : Prop :=
  g_ node = this g /\ id_ node < N.of_nat (length (nodes_ g)).

(** *** The calls made by [Graph::backward] *)

(** [e] is the call of [backward] for node [id] with the pointers
    [ptrs]: the values passed are those of the nodes [ptrs], there is one
    gradient per pointer, and [ga] is the gradient found behind the last
    pointer. *)
Definition is_backward_call (g : Graph) (id : N) (ptrs : list N)
    (ga : Tensor) (e : Event) : Prop :=
  exists y gy xs gs,
    e = ev_backward id y gy xs ptrs gs /\
    Forall2 (fun p x => exists n, nodes_ g !! N.to_nat p = Some n /\ value n = x)
            ptrs xs /\
    length gs = length ptrs /\
    last gs = Some ga.

(** [z] is the creation of the gradient [zero] of node [a], all-zero and
    shaped like [a], where no gradient was held. *)
Definition is_zero_init (g : Graph) (a : N) (zero : Tensor) (z : Event)
    : Prop :=
  exists n old,
    nodes_ g !! N.to_nat a = Some n /\
    z = ev_constant a old (shape n) 0 /\ valid old = false /\
    zero = constant (value n) (shape n) 0.

(** The calls made for the operands [rest] of node [id], the operands
    [done] being dealt with already.  For the next operand [a], either
    its gradient holds a value and [backward] is called with it, or the
    all-zero gradient is created first and [backward] is called with
    that. *)
Inductive operand_events (g : Graph) (id : N)
    : list N -> list N -> list Event -> Prop :=
| oe_nil done :
    operand_events g id done [] []
| oe_existing done a rest ga e tr :
    valid ga = true ->
    is_backward_call g id (done ++ [a]) ga e ->
    operand_events g id (done ++ [a]) rest tr ->
    operand_events g id done (a :: rest) (e :: tr)
| oe_created done a rest zero z e tr :
    is_zero_init g a zero z ->
    is_backward_call g id (done ++ [a]) zero e ->
    operand_events g id (done ++ [a]) rest tr ->
    operand_events g id done (a :: rest) (z :: e :: tr).

(** The calls made when position [id] is visited: none when the node
    holds no value. *)
Definition visit_events (g : Graph) (id : N) (tr : list Event) : Prop :=
  exists n, nodes_ g !! N.to_nat id = Some n /\
    if valid (value n) then operand_events g id [] (args n) tr
    else tr = [].

(** The calls made by visiting the positions [k-1], [k-2], ..., [0], in
    that order. *)
Inductive loop_events (g : Graph) : nat -> list Event -> Prop :=
| le_done :
    loop_events g 0 []
| le_visit id tr1 tr2 :
    visit_events g (N.of_nat id) tr1 ->
    loop_events g id tr2 ->
    loop_events g (S id) (tr1 ++ tr2).

(** Only gradients differ between [g] and [g'], and only at positions
    below [bound] whose node holds a value. *)
Definition grads_changed_below (bound : nat) (g g' : Graph) : Prop :=
  this g' = this g /\
  length (nodes_ g') = length (nodes_ g) /\
  forall i n, nodes_ g !! i = Some n ->
    exists n', nodes_ g' !! i = Some n' /\
      with_grad Tensor_new n' = with_grad Tensor_new n /\
      (n' = n \/ ((i < bound)%nat /\ valid (value n) = true)).

(** [p] points into [g], below [bound], at a node that holds a value. *)
Definition ptr_ok (g : Graph) (bound : nat) (p : N) : Prop :=
  exists n, nodes_ g !! N.to_nat p = Some n /\
    valid (value n) = true /\ (N.to_nat p < bound)%nat.

(** Only values differ between [g] and [g'], and only where [g] holds
    none. *)
Definition values_filled (g g' : Graph) : Prop :=
  this g' = this g /\
  length (nodes_ g') = length (nodes_ g) /\
  forall i n, nodes_ g !! i = Some n ->
    exists n', nodes_ g' !! i = Some n' /\
      with_value Tensor_new n' = with_value Tensor_new n /\
      (valid (value n) = true -> n' = n).

(** [s] is the shape of the node [nd] points to. *)
Definition shape_of_handle (g : Graph) (nd : Node) (s : Shape) : Prop :=
  exists n, nodes_ g !! N.to_nat (id_ nd) = Some n /\ shape n = s.

(** Between [ns] and [ns'] only consumer lists differ, and they differ
    by occurrences of [r]. *)
Definition sinks_extended (r : N) (ns ns' : list NodeInfo) : Prop :=
  length ns' = length ns /\
  forall i n, ns !! i = Some n ->
    exists n', ns' !! i = Some n' /\
      shape n' = shape n /\ func n' = func n /\ value n' = value n /\
      grad n' = grad n /\ args n' = args n /\
      forall s, s ∈ sinks n' -> s ∈ sinks n \/ s = r.

(** [e] is a call of [forward] for a node below [bound] that holds no
    value in [g] and holds one in [g']. *)
Definition forward_call (g g' : Graph) (bound : nat) (e : Event) : Prop :=
  exists j xs n n',
    e = ev_forward j xs /\ (N.to_nat j < bound)%nat /\
    nodes_ g !! N.to_nat j = Some n /\ valid (value n) = false /\
    nodes_ g' !! N.to_nat j = Some n' /\ valid (value n') = true.

(** What a forward evaluation does to the world: it fills values that
    were missing, with one call of [forward] for each, below [bound]. *)
Definition forward_effect (bound : nat) (w w' : World) : Prop :=
  values_filled (graph w) (graph w') /\
  exists tr, log w' = log w ++ tr /\
    Forall (forward_call (graph w) (graph w') bound) tr /\
    NoDup (forward_ids tr).

(** The invariants forward evaluation relies on. *)
Definition forward_inv (g : Graph) : Prop :=
  args_below g /\ values_closed g /\ funcs_satisfy realizes g.

(** The node at [i] holds a value. *)
Definition realized (g : Graph) (i : N) : Prop :=
  exists n, nodes_ g !! N.to_nat i = Some n /\ valid (value n) = true.

(** A node record without its value and its gradient. *)
Definition skeleton (n : NodeInfo) : NodeInfo :=
  with_value Tensor_new (with_grad Tensor_new n).

(** [w] and [w'] hold the same graph but for values and gradients. *)
Definition same_structure (w w' : World) : Prop :=
  this (graph w') = this (graph w) /\
  skeleton <$> nodes_ (graph w') = skeleton <$> nodes_ (graph w).

(** A call that, whether it returns or throws, changes values and
    gradients only. *)
Definition keeps_structure {A} (m : M A) : Prop :=
  forall w w', after (m w) = Some w' -> same_structure w w'.

(** Every [forward] call logged so far was for a different node, and
    each of these nodes holds a value. *)
Definition forwards_once (w : World) : Prop :=
  NoDup (forward_ids (log w)) /\
  forall j, j ∈ forward_ids (log w) -> realized (graph w) j.

(** The invariants of a graph whose operations honour the contract of
    [forward]. *)
Definition world_inv (w : World) : Prop :=
  forward_inv (graph w) /\ grads_realized (graph w) /\ forwards_once w.

(** The calls of [backward] a visit of position [p] makes, by node: one
    for each operand of a node that holds a value. *)
Definition backward_calls_at (g : Graph) (p : nat) : list N :=
  match nodes_ g !! p with
  | Some n =>
      if valid (value n) then replicate (length (args n)) (N.of_nat p) else []
  | None => []
  end.

(** [w] and [w'] hold graphs whose records look alike through [view]. *)
Definition same_view {X} (view : NodeInfo -> X) (w w' : World) : Prop :=
  this (graph w') = this (graph w) /\
  view <$> nodes_ (graph w') = view <$> nodes_ (graph w).

(** A call that, whether it returns or throws, changes nothing [view]
    shows. *)
Definition keeps_view {X A} (view : NodeInfo -> X) (m : M A) : Prop :=
  forall w w', after (m w) = Some w' -> same_view view w w'.



(** [q] is [p] or an operand of [p], of an operand of [p], and so on. *)
Inductive depends_on (g : Graph) : N -> N -> Prop :=
| dep_refl p :
    depends_on g p p
| dep_step p n a q :
    nodes_ g !! N.to_nat p = Some n -> a ∈ args n ->
    depends_on g a q -> depends_on g p q.

(** [e] is a call of [forward] for a node [id] depends on. *)
Definition forward_call_within (g : Graph) (id : N) (e : Event) : Prop :=
  exists j xs, e = ev_forward j xs /\ depends_on g id j.

(** Between [v] and [v'] nothing has changed at the positions [id] does
    not depend on, and the log has grown by calls of [forward] for
    nodes [id] depends on; the dependencies are those of the graph [g]. *)
Definition forward_scope (g : Graph) (id : N) (v v' : World) : Prop :=
  (forall i, ~ depends_on g id (N.of_nat i) ->
     nodes_ (graph v') !! i = nodes_ (graph v) !! i) /\
  exists tr, log v' = log v ++ tr /\ Forall (forward_call_within g id) tr.

(** The value of every node that holds one is what the node's [forward]
    returns on the values of its operands, in their order, each of which
    holds a value. *)
Definition values_consistent (g : Graph) : Prop :=
  forall p n, nodes_ g !! p = Some n -> valid (value n) = true ->
    exists xs,
      Forall2 (fun a x => exists na,
                 nodes_ g !! N.to_nat a = Some na /\ value na = x /\
                 valid x = true) (args n) xs /\
      value n = forward (func n) xs.

(** Consumer lists are operand lists read backwards: [s] occurs among
    the consumers of [p] as often as [p] occurs among the operands of
    [s], and every consumer position is a position of the graph. *)
Definition sinks_mirror_args (g : Graph) : Prop :=
  (forall p np x, nodes_ g !! p = Some np -> x ∈ sinks np ->
     (N.to_nat x < length (nodes_ g))%nat) /\
  (forall p s np ns,
     nodes_ g !! p = Some np -> nodes_ g !! s = Some ns ->
     count_occ N.eq_dec (sinks np) (N.of_nat s)
       = count_occ N.eq_dec (args ns) (N.of_nat p)).

(** Between [ns] and [ns'] only consumer lists differ: the record at [i]
    has gained one [r] for each occurrence of [i] in [ids]. *)
Definition sinks_pushed (r : N) (ids : list N) (ns ns' : list NodeInfo)
    : Prop :=
  length ns' = length ns /\
  forall i n, ns !! i = Some n ->
    exists n', ns' !! i = Some n' /\
      args n' = args n /\
      sinks n' = sinks n ++ replicate (count_occ N.eq_dec ids (N.of_nat i)) r.

(** The contract of [Function::backward]: it accumulates into the
    gradients it is given, so a gradient that holds a value holds one
    afterwards. *)
Definition keeps_valid (f : Function) : Prop :=
  forall y gy xs u t,
    u ∈ backward_updates f y gy xs -> valid t = true -> valid (u t) = true.

(** An operation that honours the contracts of [forward] and of
    [backward]. *)
Definition well_behaved (f : Function) : Prop := realizes f /\ keeps_valid f.

(** The node at [a] holds a gradient. *)
Definition has_grad (g : Graph) (a : N) : Prop :=
  exists n, nodes_ g !! N.to_nat a = Some n /\ valid (grad n) = true.

(** Every node that holds a gradient in [g] holds one in [g']. *)
Definition grads_kept (g g' : Graph) : Prop :=
  forall a, has_grad g a -> has_grad g' a.


End Invariants.

(** ** A small tensor capability to run the graph on *)

Module Toy.

(** A tensor is absent, or a shape filled with one number. *)
Definition T : Type := option (Shape * Z).

#[export] Instance toy : TensorLike := {|
  Tensor := T;
  valid := fun t => match t with Some _ => true | None => false end;
  Tensor_new := None;
  constant := fun v s k => match v with Some _ => Some (s, k) | None => None end
|}.

Definition add_to (d : Z) (t : T) : T :=
  match t with
  | Some (s, x) => Some (s, (x + d)%Z)
  | None => None
  end.

(** A leaf holding [x] everywhere. *)
Definition f_input (s : Shape) (x : Z) : Function :=
  mkFunction (fun _ => inl s) (fun _ => Some (s, x)) (fun _ _ _ => []).

(** The sum of the numbers of the operand tensors, shaped like the first
    one. *)
Fixpoint sum_values (xs : list T) : T :=
  match xs with
  | [] => Some (Shape_scalar, 0%Z)
  | None :: _ => None
  | Some (s, a) :: xs' =>
      match sum_values xs' with
      | Some (_, b) => Some (s, (a + b)%Z)
      | None => None
      end
  end.

(** Elementwise sum of two operands of equal dimensions; its [backward]
    adds the gradient of the result to the gradient of every operand it is
    given. *)
Definition f_add : Function :=
  mkFunction
    (fun ss =>
       match ss with
       | [a; b] =>
           if has_same_dims a b then inl a else inr "shape mismatch"%string
       | _ => inr "arity"%string
       end)
    sum_values
    (fun _ gy xs =>
       match gy with
       | Some (_, g) => map (fun _ => add_to g) xs
       | None => []
       end).

(** An operation whose [forward] returns a default-constructed tensor. *)
Definition f_void : Function :=
  mkFunction (fun _ => inl Shape_scalar) (fun _ => None) (fun _ _ _ => []).

Definition run {A} (m : M A) (w : World) : World :=
  match after (m w) with
  | Some w' => w'
  | None => w
  end.

Definition node_of (w : World) (i : nat) : NodeInfo :=
  default (mkNodeInfo Shape_scalar f_void None None [] [])
          (nodes_ (graph w) !! i).

(** For every call of [backward] in a log: the node, the number of
    operand values and the number of operand gradients passed. *)
Fixpoint backward_calls (tr : list Event) : list (N * nat * nat) :=
  match tr with
  | [] => []
  | ev_backward id _ _ xs gxs _ :: tr' =>
      (id, length xs, length gxs) :: backward_calls tr'
  | _ :: tr' => backward_calls tr'
  end.

Definition G : GraphId := 7.

(** [x = 3], [y = 4], [z = x + y]; then [forward(z)], then
    [backward(z)]. *)
Definition w0 : World := mkWorld (Graph_new G) [].
Definition w1 : World := run (add_function (f_input Shape_scalar 3) []) w0.
Definition w2 : World := run (add_function (f_input Shape_scalar 4) []) w1.
Definition w3 : World := run (add_function f_add [mkNode G 0; mkNode G 1]) w2.
Definition w4 : World := run (Graph_forward 3 (mkNode G 2)) w3.
Definition w5 : World := run (Graph_backward (mkNode G 2)) w4.

(** Two leaves of dimensions [2,3] and [4,5]. *)
Definition shape23 : Shape := mkShape [2; 3] 1 6.
Definition shape45 : Shape := mkShape [4; 5] 1 20.
Definition m1 : World := run (add_function (f_input shape23 1) []) w0.
Definition m2 : World := run (add_function (f_input shape45 1) []) m1.

(** A single node whose operation returns no value. *)
Definition v1 : World := run (add_function f_void []) w0.
Definition v2 : World := run (Graph_forward 1 (mkNode G 0)) v1.
Definition v3 : World := run (Graph_forward 1 (mkNode G 0)) v2.

(** A leaf that holds neither value nor gradient, and the graph of [k]
    such leaves, as [k] calls of [add_function] leave it. *)
Definition leaf : NodeInfo :=
  mkNodeInfo Shape_scalar (f_input Shape_scalar 3) None None [] [].
Definition leaves (k : nat) : World :=
  mkWorld (mkGraph G (replicate k leaf)) [].

End Toy.

(** * Properties *)

(** ** Shape *)

(** C8: two shapes have compatible batches exactly when their batch
    sizes are equal or one of them is 1, and the extent of an axis at or
    beyond the stored depth is 1. *)
Theorem has_compatible_batch_iff_and_subscript_beyond_depth :
  (forall a b : Shape,
     has_compatible_batch a b = true <->
     batch_size a = batch_size b \/ batch_size a = 1 \/ batch_size b = 1) /\
  (forall (s : Shape) (i : N), depth s <= i -> subscript s i = 1).
Proof.
  split.
  - intros a b. unfold has_compatible_batch, batch_size.
    rewrite !orb_true_iff, !N.eqb_eq. tauto.
  - intros s i Hi. unfold subscript.
    destruct (N.ltb_spec i (depth s)) as [Hlt | _]; [lia | reflexivity].
Qed.

(** The stored depth never exceeds the number of stored extents, so
    [subscript] reads inside [dims_] whenever it reads at all. *)
Lemma depth_le_length (s : Shape) : depth s <= N.of_nat (length (dims_ s)).
Proof.
  unfold depth, to_unsigned. apply N.Div0.mod_le.
Qed.

Section Proofs.

Context {TL : TensorLike}.

(** ** The monad *)

Lemma bind_Ok {A B} (m : M A) (k : A -> M B) w a w1 :
  m w = Ok a w1 -> bind m k w = k a w1.
Proof. unfold bind. intros ->. reflexivity. Qed.

Lemma bind_Throw {A B} (m : M A) (k : A -> M B) w e w1 :
  m w = Throw e w1 -> bind m k w = Throw e w1.
Proof. unfold bind. intros ->. reflexivity. Qed.

Lemma bind_Abort {A B} (m : M A) (k : A -> M B) w :
  m w = Abort -> bind m k w = Abort.
Proof. unfold bind. intros ->. reflexivity. Qed.

Lemma bind_Ok_inv {A B} (m : M A) (k : A -> M B) w b w2 :
  bind m k w = Ok b w2 ->
  exists a w1, m w = Ok a w1 /\ k a w1 = Ok b w2.
Proof.
  unfold bind. destruct (m w) as [a w1 | | | |]; try discriminate. eauto.
Qed.

Lemma bind_Throw_inv {A B} (m : M A) (k : A -> M B) w e w2 :
  bind m k w = Throw e w2 ->
  m w = Throw e w2 \/ exists a w1, m w = Ok a w1 /\ k a w1 = Throw e w2.
Proof.
  unfold bind. destruct (m w) as [a w1 | e1 w1 | | |]; try discriminate.
  - right. eauto.
  - intros [= -> ->]. left. reflexivity.
Qed.

Lemma bind_after_inv {A B} (m : M A) (k : A -> M B) w w2 :
  after (bind m k w) = Some w2 ->
  (exists e, m w = Throw e w2) \/
  exists a w1, m w = Ok a w1 /\ after (k a w1) = Some w2.
Proof.
  unfold bind. destruct (m w) as [a w1 | e1 w1 | | |]; simpl; try discriminate.
  - right. eauto.
  - intros [= ->]. left. eauto.
Qed.

(** ** Calls that never throw *)

Lemma never_throws_bind {A B} (m : M A) (k : A -> M B) :
  never_throws m -> (forall a, never_throws (k a)) -> never_throws (bind m k).
Proof.
  intros Hm Hk w e w' H. apply bind_Throw_inv in H as [H | (a & w1 & _ & H)].
  - exact (Hm _ _ _ H).
  - exact (Hk _ _ _ _ H).
Qed.

Lemma never_throws_ret {A} (a : A) : never_throws (ret a).
Proof. intros w e w'. discriminate. Qed.

Lemma never_throws_emit e : never_throws (emit e).
Proof. intros w e' w'. discriminate. Qed.

Lemma never_throws_node_at i : never_throws (node_at i).
Proof. intros w e w'. unfold node_at. destruct (_ !! _); discriminate. Qed.

Lemma never_throws_modify_node i f : never_throws (modify_node i f).
Proof. intros w e w'. unfold modify_node. destruct (_ !! _); discriminate. Qed.

Lemma never_throws_push_node n : never_throws (push_node n).
Proof. intros w e w'. discriminate. Qed.

Lemma never_throws_for_each {A} (l : list A) body :
  (forall x, never_throws (body x)) -> never_throws (for_each l body).
Proof.
  intros Hb. induction l as [| x l IH]; simpl.
  - apply never_throws_ret.
  - apply never_throws_bind; auto.
Qed.

Lemma never_throws_deref_values ptrs : never_throws (deref_values ptrs).
Proof.
  induction ptrs as [| p ptrs IH]; simpl.
  - apply never_throws_ret.
  - apply never_throws_bind; [apply never_throws_node_at |]. intros n.
    apply never_throws_bind; [exact IH |]. intros xs. apply never_throws_ret.
Qed.

Lemma never_throws_deref_grads ptrs : never_throws (deref_grads ptrs).
Proof.
  induction ptrs as [| p ptrs IH]; simpl.
  - apply never_throws_ret.
  - apply never_throws_bind; [apply never_throws_node_at |]. intros n.
    apply never_throws_bind; [exact IH |]. intros xs. apply never_throws_ret.
Qed.

Lemma never_throws_apply_updates gxs upds :
  never_throws (apply_updates gxs upds).
Proof.
  revert upds. induction gxs as [| p gxs IH]; intros [| u upds]; simpl;
    try apply never_throws_ret.
  apply never_throws_bind; [apply never_throws_modify_node | auto].
Qed.

Lemma never_throws_call_backward id vs gs : never_throws (call_backward id vs gs).
Proof.
  unfold call_backward.
  apply never_throws_bind; [apply never_throws_node_at |]. intros n.
  apply never_throws_bind; [apply never_throws_deref_values |]. intros xs.
  apply never_throws_bind; [apply never_throws_deref_grads |]. intros gl.
  apply never_throws_bind; [apply never_throws_emit |]. intros _.
  apply never_throws_apply_updates.
Qed.

Lemma never_throws_ensure_grad a : never_throws (ensure_grad a).
Proof.
  unfold ensure_grad.
  apply never_throws_bind; [apply never_throws_node_at |]. intros n.
  destruct (valid (grad n)); [apply never_throws_ret |].
  apply never_throws_bind; [apply never_throws_emit |]. intros _.
  apply never_throws_modify_node.
Qed.

Lemma never_throws_backward_args id rest vs gs :
  never_throws (backward_args id rest vs gs).
Proof.
  revert vs gs. induction rest as [| a rest IH]; intros vs gs; simpl.
  - apply never_throws_ret.
  - apply never_throws_bind; [apply never_throws_ensure_grad |]. intros _.
    apply never_throws_bind; [apply never_throws_call_backward |]. intros _.
    apply IH.
Qed.

Lemma never_throws_backward_visit id : never_throws (backward_visit id).
Proof.
  unfold backward_visit.
  apply never_throws_bind; [apply never_throws_node_at |]. intros n.
  destruct (valid (value n));
    [apply never_throws_backward_args | apply never_throws_ret].
Qed.

Lemma never_throws_backward_loop k : never_throws (backward_loop k).
Proof.
  induction k as [| k IH]; simpl.
  - apply never_throws_ret.
  - apply never_throws_bind; [apply never_throws_backward_visit | auto].
Qed.

Lemma never_throws_forward_recursive fuel id :
  never_throws (forward_recursive fuel id).
Proof.
  revert id. induction fuel as [| fuel IH]; intros id; simpl.
  - intros w e w'. discriminate.
  - apply never_throws_bind; [apply never_throws_node_at |]. intros n.
    destruct (valid (value n)); [apply never_throws_ret |].
    apply never_throws_bind.
    { apply never_throws_for_each. intros a.
      apply never_throws_bind; [apply IH |]. intros _.
      apply never_throws_bind; [apply never_throws_node_at |]. intros _.
      apply never_throws_ret. }
    intros _.
    apply never_throws_bind; [apply never_throws_deref_values |]. intros xs.
    apply never_throws_bind; [apply never_throws_emit |]. intros _.
    apply never_throws_modify_node.
Qed.

(** ** CHECK_NODE *)

Lemma CHECK_NODE_ok w node :
  handle_ok (graph w) node -> CHECK_NODE node w = Ok tt w.
Proof.
  intros [Hg Hid]. unfold CHECK_NODE.
  rewrite bool_decide_eq_false_2 by (intros H; apply H; exact Hg).
  destruct (N.leb_spec (N.of_nat (length (nodes_ (graph w)))) (id_ node));
    [lia | reflexivity].
Qed.

Lemma CHECK_NODE_foreign w node :
  g_ node <> this (graph w) ->
  CHECK_NODE node w = Throw (GraphMismatched (g_ node) (this (graph w))) w.
Proof.
  intros Hg. unfold CHECK_NODE. rewrite bool_decide_eq_true_2; done.
Qed.

Lemma CHECK_NODE_out_of_range w node :
  g_ node = this (graph w) ->
  N.of_nat (length (nodes_ (graph w))) <= id_ node ->
  CHECK_NODE node w = Abort.
Proof.
  intros Hg Hid. unfold CHECK_NODE.
  rewrite bool_decide_eq_false_2 by (intros H; apply H; exact Hg).
  destruct (N.leb_spec (N.of_nat (length (nodes_ (graph w)))) (id_ node));
    [reflexivity | lia].
Qed.

Lemma CHECK_NODE_Ok_inv w node u w' :
  CHECK_NODE node w = Ok u w' -> w' = w /\ handle_ok (graph w) node.
Proof.
  unfold CHECK_NODE, handle_ok. case_bool_decide as Hg; [discriminate |].
  destruct (N.leb_spec (N.of_nat (length (nodes_ (graph w)))) (id_ node));
    [discriminate |].
  intros [= _ <-]. split; [reflexivity |]. split; [| assumption].
  destruct (decide (g_ node = this (graph w))); [assumption | contradiction].
Qed.

Lemma CHECK_NODE_Throw_inv w node e w' :
  CHECK_NODE node w = Throw e w' ->
  w' = w /\ g_ node <> this (graph w) /\
  e = GraphMismatched (g_ node) (this (graph w)).
Proof.
  unfold CHECK_NODE. case_bool_decide as Hg.
  - intros [= <- <-]. auto.
  - destruct (_ <=? _); discriminate.
Qed.

Lemma handle_ok_lookup g node :
  handle_ok g node -> exists n, nodes_ g !! N.to_nat (id_ node) = Some n.
Proof.
  intros [_ Hid]. apply lookup_lt_is_Some_2. lia.
Qed.

Lemma node_at_Ok w i n :
  nodes_ (graph w) !! N.to_nat i = Some n -> node_at i w = Ok n w.
Proof. unfold node_at. intros ->. reflexivity. Qed.

Lemma node_at_Ok_inv w i n w' :
  node_at i w = Ok n w' -> w' = w /\ nodes_ (graph w) !! N.to_nat i = Some n.
Proof.
  unfold node_at. destruct (_ !! _) as [n0 |] eqn:E; [| discriminate].
  intros [= <- <-]. auto.
Qed.

(** ** Graph::add_function *)

Lemma gather_args_cases nodes ids shs w :
  (exists shs',
     gather_args nodes ids shs w = Ok (ids ++ map id_ nodes, shs ++ shs') w /\
     Forall (handle_ok (graph w)) nodes /\
     Forall2 (shape_of_handle (graph w)) nodes shs') \/
  (exists pre nd post,
     nodes = pre ++ nd :: post /\ Forall (handle_ok (graph w)) pre /\
     g_ nd <> this (graph w) /\
     gather_args nodes ids shs w
       = Throw (GraphMismatched (g_ nd) (this (graph w))) w) \/
  (exists pre nd post,
     nodes = pre ++ nd :: post /\ Forall (handle_ok (graph w)) pre /\
     g_ nd = this (graph w) /\
     N.of_nat (length (nodes_ (graph w))) <= id_ nd /\
     gather_args nodes ids shs w = Abort).
Proof.
  revert ids shs. induction nodes as [| nd nodes IH]; intros ids shs.
  - left. exists []. simpl. rewrite !app_nil_r. auto.
  - simpl. destruct (decide (g_ nd = this (graph w))) as [Hg | Hg].
    + destruct (N.lt_ge_cases (id_ nd) (N.of_nat (length (nodes_ (graph w)))))
        as [Hid | Hid].
      * assert (Hok : handle_ok (graph w) nd) by (split; assumption).
        destruct (handle_ok_lookup _ _ Hok) as [n Hn].
        rewrite (bind_Ok _ _ _ _ _ (CHECK_NODE_ok _ _ Hok)).
        rewrite (bind_Ok _ _ _ _ _ (node_at_Ok _ _ _ Hn)).
        destruct (IH (ids ++ [id_ nd]) (shs ++ [shape n]))
          as [(shs' & E & Hall & Hsh)
             | [(pre & x & post & -> & Hpre & Hx & E)
               | (pre & x & post & -> & Hpre & Hx & Hr & E)]].
        -- left. exists (shape n :: shs'). rewrite E.
           rewrite <- !app_assoc. simpl. split; [reflexivity |].
           split; constructor; auto. exists n. auto.
        -- right. left. exists (nd :: pre), x, post. simpl.
           split; [reflexivity |]. split; [constructor; auto |]. auto.
        -- right. right. exists (nd :: pre), x, post. simpl.
           split; [reflexivity |]. split; [constructor; auto |]. auto.
      * right. right. exists [], nd, nodes. simpl.
        rewrite (bind_Abort _ _ _ (CHECK_NODE_out_of_range _ _ Hg Hid)). auto.
    + right. left. exists [], nd, nodes. simpl.
      rewrite (bind_Throw _ _ _ _ _ (CHECK_NODE_foreign _ _ Hg)). auto.
Qed.

Lemma sinks_extended_refl r ns : sinks_extended r ns ns.
Proof.
  split; [reflexivity |]. intros i n Hn. exists n. repeat split; auto.
Qed.

Lemma sinks_extended_trans r ns1 ns2 ns3 :
  sinks_extended r ns1 ns2 -> sinks_extended r ns2 ns3 ->
  sinks_extended r ns1 ns3.
Proof.
  intros [L1 H1] [L2 H2]. split; [congruence |]. intros i n Hn.
  destruct (H1 _ _ Hn) as (n2 & Hn2 & S1 & F1 & V1 & G1 & A1 & K1).
  destruct (H2 _ _ Hn2) as (n3 & Hn3 & S2 & F2 & V2 & G2 & A2 & K2).
  exists n3. repeat split; try congruence.
  intros s Hs. destruct (K2 _ Hs) as [Hs2 | ->]; auto.
Qed.

Lemma modify_node_push_sink w a r :
  (N.to_nat a < length (nodes_ (graph w)))%nat ->
  exists ns,
    modify_node a (push_sink r) w
      = Ok tt (mkWorld (mkGraph (this (graph w)) ns) (log w)) /\
    sinks_extended r (nodes_ (graph w)) ns.
Proof.
  intros Ha. destruct (lookup_lt_is_Some_2 _ _ Ha) as [n Hn].
  unfold modify_node. rewrite Hn. eexists. split; [reflexivity |].
  split; [apply length_insert |]. intros i m Hm.
  destruct (decide (i = N.to_nat a)) as [-> | Hne].
  - rewrite list_lookup_insert_eq by assumption.
    assert (m = n) as -> by congruence.
    eexists. split; [reflexivity |]. simpl. repeat split; auto.
    intros s Hs. apply elem_of_app in Hs as [Hs | Hs]; [auto |].
    apply list_elem_of_singleton in Hs. auto.
  - rewrite list_lookup_insert_ne by auto. exists m. repeat split; auto.
Qed.

Lemma push_sinks_Ok ids r w :
  Forall (fun a => (N.to_nat a < length (nodes_ (graph w)))%nat) ids ->
  exists ns,
    for_each ids (fun arg_id => modify_node arg_id (push_sink r)) w
      = Ok tt (mkWorld (mkGraph (this (graph w)) ns) (log w)) /\
    sinks_extended r (nodes_ (graph w)) ns.
Proof.
  revert w. induction ids as [| a ids IH]; intros w Hall.
  - exists (nodes_ (graph w)). simpl. split; [| apply sinks_extended_refl].
    unfold ret. destruct w as [[? ?] ?]. reflexivity.
  - apply Forall_cons in Hall as [Ha Hall]. simpl.
    destruct (modify_node_push_sink w a r Ha) as (ns1 & E1 & X1).
    rewrite (bind_Ok _ _ _ _ _ E1).
    destruct (IH (mkWorld (mkGraph (this (graph w)) ns1) (log w)))
      as (ns2 & E2 & X2).
    { simpl. destruct X1 as [L1 _]. rewrite L1. exact Hall. }
    exists ns2. simpl in *. split; [exact E2 |].
    eapply sinks_extended_trans; eassumption.
Qed.

(** The three ways [add_function] can end. *)
Lemma add_function_cases f nodes w :
  (exists shs s ns,
     Forall (handle_ok (graph w)) nodes /\
     Forall2 (shape_of_handle (graph w)) nodes shs /\
     forward_shape f shs = inl s /\
     sinks_extended (to_unsigned (N.of_nat (length (nodes_ (graph w)))))
                    (nodes_ (graph w)) ns /\
     add_function f nodes w
       = Ok (mkNode (this (graph w))
                    (to_unsigned (N.of_nat (length (nodes_ (graph w))))))
            (mkWorld
               (mkGraph (this (graph w))
                  (ns ++ [mkNodeInfo s f Tensor_new Tensor_new
                                     (map id_ nodes) []]))
               (log w))) \/
  (exists shs what,
     Forall (handle_ok (graph w)) nodes /\
     Forall2 (shape_of_handle (graph w)) nodes shs /\
     forward_shape f shs = inr what /\
     add_function f nodes w = Throw (Raised what) w) \/
  (exists pre nd post,
     nodes = pre ++ nd :: post /\ Forall (handle_ok (graph w)) pre /\
     g_ nd <> this (graph w) /\
     add_function f nodes w
       = Throw (GraphMismatched (g_ nd) (this (graph w))) w) \/
  (exists pre nd post,
     nodes = pre ++ nd :: post /\ Forall (handle_ok (graph w)) pre /\
     g_ nd = this (graph w) /\
     N.of_nat (length (nodes_ (graph w))) <= id_ nd /\
     add_function f nodes w = Abort).
Proof.
  unfold add_function.
  destruct (gather_args_cases nodes [] [] w)
    as [(shs & E & Hall & Hsh)
       | [(pre & x & post & -> & Hpre & Hx & E)
         | (pre & x & post & -> & Hpre & Hx & Hr & E)]].
  - rewrite (bind_Ok _ _ _ _ _ E). simpl.
    unfold call_forward_shape.
    destruct (forward_shape f shs) as [s | what] eqn:Efs.
    + left. 
      destruct (push_sinks_Ok (map id_ nodes)
                  (to_unsigned (N.of_nat (length (nodes_ (graph w))))) w)
        as (ns & E2 & X).
      { apply Forall_fmap. eapply Forall_impl; [exact Hall |].
        intros nd [_ Hid]. simpl. lia. }
      exists shs, s, ns.
      split; [exact Hall |]. split; [exact Hsh |]. split; [exact Efs |].
      split; [exact X |].
      unfold bind at 1. simpl. unfold bind at 1. simpl.
      rewrite (bind_Ok _ _ _ _ _ E2). reflexivity.
    + right. left. exists shs, what. repeat split; auto.
  - right. right. left. exists pre, x, post.
    rewrite (bind_Throw _ _ _ _ _ E). auto.
  - right. right. right. exists pre, x, post.
    rewrite (bind_Abort _ _ _ E). auto.
Qed.

(** ** Frames: what [Graph::backward] leaves alone *)

Lemma with_grad_eq_fields t n n' :
  with_grad t n' = with_grad t n ->
  shape n' = shape n /\ func n' = func n /\ value n' = value n /\
  args n' = args n /\ sinks n' = sinks n.
Proof.
  destruct n, n'. unfold with_grad. simpl. intros [= -> -> -> -> ->]. auto.
Qed.

Lemma grads_changed_below_refl b g : grads_changed_below b g g.
Proof.
  split; [reflexivity |]. split; [reflexivity |]. intros i n Hn.
  exists n. auto.
Qed.

Lemma grads_changed_below_mono b b' g g' :
  (b <= b')%nat -> grads_changed_below b g g' -> grads_changed_below b' g g'.
Proof.
  intros Hb (Ht & Hl & H). split; [exact Ht |]. split; [exact Hl |].
  intros i n Hn. destruct (H _ _ Hn) as (n' & Hn' & Hs & Hc).
  exists n'. split; [exact Hn' |]. split; [exact Hs |].
  destruct Hc as [-> | [Hi Hv]]; [left; reflexivity | right; split; [lia | exact Hv]].
Qed.

Lemma grads_changed_below_trans b g1 g2 g3 :
  grads_changed_below b g1 g2 -> grads_changed_below b g2 g3 ->
  grads_changed_below b g1 g3.
Proof.
  intros (Ht1 & Hl1 & H1) (Ht2 & Hl2 & H2).
  split; [congruence |]. split; [congruence |]. intros i n Hn.
  destruct (H1 _ _ Hn) as (n2 & Hn2 & Hs1 & Hc1).
  destruct (H2 _ _ Hn2) as (n3 & Hn3 & Hs2 & Hc2).
  exists n3. split; [exact Hn3 |]. split; [congruence |].
  destruct Hc2 as [-> | [Hi Hv]]; [exact Hc1 |].
  right. split; [exact Hi |].
  apply with_grad_eq_fields in Hs1 as (_ & _ & Hval & _). congruence.
Qed.

Lemma grads_changed_below_lookup_back b g g' i n' :
  grads_changed_below b g g' -> nodes_ g' !! i = Some n' ->
  exists n, nodes_ g !! i = Some n /\
    with_grad Tensor_new n' = with_grad Tensor_new n.
Proof.
  intros (_ & Hl & H) Hn'.
  assert (Hi : (i < length (nodes_ g))%nat).
  { rewrite <- Hl. eapply lookup_lt_Some. exact Hn'. }
  destruct (lookup_lt_is_Some_2 _ _ Hi) as [n Hn].
  destruct (H _ _ Hn) as (n'' & Hn'' & Hs & _).
  exists n. split; [exact Hn |]. congruence.
Qed.

Lemma args_below_frame b g g' :
  grads_changed_below b g g' -> args_below g -> args_below g'.
Proof.
  intros Hf Hab p n' a Hn' Ha.
  destruct (grads_changed_below_lookup_back _ _ _ _ _ Hf Hn') as (n & Hn & Hs).
  apply with_grad_eq_fields in Hs as (_ & _ & _ & Hargs & _).
  rewrite Hargs in Ha. eapply Hab; eassumption.
Qed.

Lemma values_closed_frame b g g' :
  grads_changed_below b g g' -> values_closed g -> values_closed g'.
Proof.
  intros Hf Hvc p n' a na' Hn' Hv Ha Hna'.
  destruct (grads_changed_below_lookup_back _ _ _ _ _ Hf Hn') as (n & Hn & Hs).
  destruct (grads_changed_below_lookup_back _ _ _ _ _ Hf Hna') as (na & Hna & Hsa).
  apply with_grad_eq_fields in Hs as (_ & _ & Hval & Hargs & _).
  apply with_grad_eq_fields in Hsa as (_ & _ & Hvala & _).
  rewrite Hval in Hv. rewrite Hargs in Ha. rewrite Hvala.
  exact (Hvc _ _ _ _ Hn Hv Ha Hna).
Qed.

Lemma ptr_ok_frame b b' g g' p :
  grads_changed_below b' g g' -> ptr_ok g b p -> ptr_ok g' b p.
Proof.
  intros (_ & _ & H) (n & Hn & Hv & Hp).
  destruct (H _ _ Hn) as (n' & Hn' & Hs & _).
  apply with_grad_eq_fields in Hs as (_ & _ & Hval & _).
  exists n'. split; [exact Hn' |]. split; [congruence | exact Hp].
Qed.

Lemma is_backward_call_frame b g g' id ptrs ga e :
  grads_changed_below b g g' ->
  is_backward_call g' id ptrs ga e -> is_backward_call g id ptrs ga e.
Proof.
  intros Hf (y & gy & xs & gs & -> & Hxs & Hl & Hlast).
  exists y, gy, xs, gs. split; [reflexivity |]. split; [| auto].
  eapply Forall2_impl; [exact Hxs |]. intros p x (n' & Hn' & <-).
  destruct (grads_changed_below_lookup_back _ _ _ _ _ Hf Hn') as (n & Hn & Hs).
  apply with_grad_eq_fields in Hs as (_ & _ & Hval & _). eauto.
Qed.

Lemma is_zero_init_frame b g g' a zero z :
  grads_changed_below b g g' ->
  is_zero_init g' a zero z -> is_zero_init g a zero z.
Proof.
  intros Hf (n' & old & Hn' & -> & Hv & ->).
  destruct (grads_changed_below_lookup_back _ _ _ _ _ Hf Hn') as (n & Hn & Hs).
  apply with_grad_eq_fields in Hs as (Hsh & _ & Hval & _).
  exists n, old. rewrite Hsh, Hval. auto.
Qed.

Lemma operand_events_frame b g g' id done rest tr :
  grads_changed_below b g g' ->
  operand_events g' id done rest tr -> operand_events g id done rest tr.
Proof.
  intros Hf H. induction H.
  - constructor.
  - eapply oe_existing;
      [eassumption | eapply is_backward_call_frame; eassumption | assumption].
  - eapply oe_created;
      [eapply is_zero_init_frame; eassumption
      | eapply is_backward_call_frame; eassumption | assumption].
Qed.

Lemma visit_events_frame b g g' id tr :
  grads_changed_below b g g' ->
  visit_events g' id tr -> visit_events g id tr.
Proof.
  intros Hf (n' & Hn' & H).
  destruct (grads_changed_below_lookup_back _ _ _ _ _ Hf Hn') as (n & Hn & Hs).
  apply with_grad_eq_fields in Hs as (_ & _ & Hval & Hargs & _).
  exists n. split; [exact Hn |]. rewrite <- Hval, <- Hargs.
  destruct (valid (value n')); [| exact H].
  eapply operand_events_frame; eassumption.
Qed.

Lemma loop_events_frame b g g' k tr :
  grads_changed_below b g g' ->
  loop_events g' k tr -> loop_events g k tr.
Proof.
  intros Hf H. induction H.
  - constructor.
  - constructor; [eapply visit_events_frame; eassumption | assumption].
Qed.

(** ** The steps of [Graph::backward] *)

Lemma modify_node_grad w a n h b :
  nodes_ (graph w) !! N.to_nat a = Some n ->
  valid (value n) = true -> (N.to_nat a < b)%nat ->
  (forall m, with_grad Tensor_new (h m) = with_grad Tensor_new m) ->
  exists w', modify_node a h w = Ok tt w' /\ log w' = log w /\
    grads_changed_below b (graph w) (graph w') /\
    nodes_ (graph w') !! N.to_nat a = Some (h n).
Proof.
  intros Hn Hv Hb Hh. unfold modify_node. rewrite Hn.
  eexists. split; [reflexivity |]. simpl. split; [reflexivity |].
  assert (Ha : (N.to_nat a < length (nodes_ (graph w)))%nat)
    by (eapply lookup_lt_Some; exact Hn).
  split; [| apply list_lookup_insert_eq; exact Ha].
  split; [reflexivity |]. split; [apply length_insert |].
  simpl. intros i m Hm. destruct (decide (i = N.to_nat a)) as [-> | Hne].
  - rewrite list_lookup_insert_eq by exact Ha.
    assert (m = n) as -> by congruence.
    exists (h n). split; [reflexivity |]. split; [apply Hh |]. right. auto.
  - rewrite list_lookup_insert_ne by auto. exists m. auto.
Qed.

Lemma deref_values_Ok w b ptrs :
  Forall (ptr_ok (graph w) b) ptrs ->
  exists xs, deref_values ptrs w = Ok xs w /\
    Forall2 (fun p x => exists n,
               nodes_ (graph w) !! N.to_nat p = Some n /\ value n = x) ptrs xs.
Proof.
  induction 1 as [| p ptrs (n & Hn & _) _ (xs & E & H)]; simpl.
  - exists []. split; [reflexivity | constructor].
  - exists (value n :: xs).
    rewrite (bind_Ok _ _ _ _ _ (node_at_Ok _ _ _ Hn)).
    rewrite (bind_Ok _ _ _ _ _ E). split; [reflexivity |].
    constructor; [eauto | exact H].
Qed.

Lemma deref_grads_Ok w b ptrs :
  Forall (ptr_ok (graph w) b) ptrs ->
  exists gs, deref_grads ptrs w = Ok gs w /\
    Forall2 (fun p x => exists n,
               nodes_ (graph w) !! N.to_nat p = Some n /\ grad n = x) ptrs gs.
Proof.
  induction 1 as [| p ptrs (n & Hn & _) _ (xs & E & H)]; simpl.
  - exists []. split; [reflexivity | constructor].
  - exists (grad n :: xs).
    rewrite (bind_Ok _ _ _ _ _ (node_at_Ok _ _ _ Hn)).
    rewrite (bind_Ok _ _ _ _ _ E). split; [reflexivity |].
    constructor; [eauto | exact H].
Qed.

Lemma apply_updates_Ok w b ptrs upds :
  Forall (ptr_ok (graph w) b) ptrs ->
  exists w', apply_updates ptrs upds w = Ok tt w' /\ log w' = log w /\
    grads_changed_below b (graph w) (graph w').
Proof.
  revert w upds. induction ptrs as [| p ptrs IH]; intros w upds Hall.
  - exists w. simpl. split; [reflexivity |]. split; [reflexivity |].
    apply grads_changed_below_refl.
  - destruct upds as [| u upds].
    + exists w. simpl. split; [reflexivity |]. split; [reflexivity |].
      apply grads_changed_below_refl.
    + apply Forall_cons in Hall as [(n & Hn & Hv & Hp) Hall]. simpl.
      destruct (modify_node_grad w p n (fun n => with_grad (u (grad n)) n) b
                  Hn Hv Hp) as (w1 & E1 & L1 & F1 & _).
      { intros m. reflexivity. }
      rewrite (bind_Ok _ _ _ _ _ E1).
      destruct (IH w1 upds) as (w2 & E2 & L2 & F2).
      { eapply Forall_impl; [exact Hall |]. intros q Hq.
        eapply ptr_ok_frame; eassumption. }
      exists w2. split; [exact E2 |]. split; [congruence |].
      eapply grads_changed_below_trans; eassumption.
Qed.

Lemma call_backward_Ok w b id cur done a na :
  nodes_ (graph w) !! N.to_nat id = Some cur ->
  Forall (ptr_ok (graph w) b) (done ++ [a]) ->
  nodes_ (graph w) !! N.to_nat a = Some na ->
  exists w' e,
    call_backward id (done ++ [a]) (done ++ [a]) w = Ok tt w' /\
    log w' = log w ++ [e] /\
    is_backward_call (graph w) id (done ++ [a]) (grad na) e /\
    grads_changed_below b (graph w) (graph w').
Proof.
  intros Hcur Hall Hna. unfold call_backward.
  rewrite (bind_Ok _ _ _ _ _ (node_at_Ok _ _ _ Hcur)).
  destruct (deref_values_Ok w b _ Hall) as (xs & Exs & Hxs).
  rewrite (bind_Ok _ _ _ _ _ Exs).
  destruct (deref_grads_Ok w b _ Hall) as (gs & Egs & Hgs).
  rewrite (bind_Ok _ _ _ _ _ Egs).
  set (e := ev_backward id (value cur) (grad cur) xs (done ++ [a]) gs).
  set (w1 := mkWorld (graph w) (log w ++ [e])).
  assert (E1 : emit e w = Ok tt w1) by reflexivity.
  rewrite (bind_Ok _ _ _ _ _ E1).
  destruct (apply_updates_Ok w1 b (done ++ [a])
              (backward_updates (func cur) (value cur) (grad cur) xs) Hall)
    as (w2 & E2 & L2 & F2).
  exists w2, e. split; [exact E2 |]. split; [exact L2 |]. split; [| exact F2].
  exists (value cur), (grad cur), xs, gs.
  split; [reflexivity |]. split; [exact Hxs |].
  split; [symmetry; eapply Forall2_length; exact Hgs |].
  apply Forall2_app_inv_l in Hgs as (gs1 & gs2 & _ & H2 & ->).
  apply Forall2_cons_inv_l in H2 as (g0 & gs3 & (n0 & Hn0 & <-) & H3 & ->).
  apply Forall2_nil_inv_l in H3 as ->.
  rewrite last_snoc. congruence.
Qed.

Lemma ensure_grad_Ok {laws : TensorLaws TL} w b a :
  ptr_ok (graph w) b a ->
  exists w' tr,
    ensure_grad a w = Ok tt w' /\ log w' = log w ++ tr /\
    grads_changed_below b (graph w) (graph w') /\
    exists n', nodes_ (graph w') !! N.to_nat a = Some n' /\
      valid (grad n') = true /\
      (tr = [] \/ exists z, tr = [z] /\ is_zero_init (graph w) a (grad n') z).
Proof.
  intros (n & Hn & Hv & Hp). unfold ensure_grad.
  rewrite (bind_Ok _ _ _ _ _ (node_at_Ok _ _ _ Hn)).
  destruct (valid (grad n)) eqn:Hg.
  - exists w, []. split; [reflexivity |]. rewrite app_nil_r.
    split; [reflexivity |]. split; [apply grads_changed_below_refl |].
    exists n. auto.
  - set (z := ev_constant a (grad n) (shape n) 0).
    set (w1 := mkWorld (graph w) (log w ++ [z])).
    assert (E1 : emit z w = Ok tt w1) by reflexivity.
    rewrite (bind_Ok _ _ _ _ _ E1).
    destruct (modify_node_grad w1 a n
                (with_grad (constant (value n) (shape n) 0)) b Hn Hv Hp)
      as (w2 & E2 & L2 & F2 & Hn2).
    { intros m. reflexivity. }
    exists w2, [z]. split; [exact E2 |]. split; [exact L2 |].
    split; [exact F2 |]. eexists. split; [exact Hn2 |]. simpl.
    split; [apply valid_constant; exact Hv |].
    right. exists z. split; [reflexivity |]. exists n, (grad n). auto.
Qed.

Lemma backward_args_Ok {laws : TensorLaws TL} w b id cur rest done :
  nodes_ (graph w) !! N.to_nat id = Some cur ->
  Forall (ptr_ok (graph w) b) (done ++ rest) ->
  exists w' tr,
    backward_args id rest done done w = Ok tt w' /\
    log w' = log w ++ tr /\
    grads_changed_below b (graph w) (graph w') /\
    operand_events (graph w) id done rest tr.
Proof.
  revert w cur done. induction rest as [| a rest IH]; intros w cur done Hcur Hall.
  - exists w, []. simpl. split; [reflexivity |]. rewrite app_nil_r.
    split; [reflexivity |]. split; [apply grads_changed_below_refl |].
    constructor.
  - simpl.
    assert (Ha : ptr_ok (graph w) b a).
    { rewrite Forall_app in Hall. destruct Hall as [_ Hall].
      apply Forall_cons in Hall as [Ha _]. exact Ha. }
    destruct (ensure_grad_Ok w b a Ha)
      as (w1 & tr1 & E1 & L1 & F1 & n1 & Hn1 & Hg1 & Hz).
    rewrite (bind_Ok _ _ _ _ _ E1).
    assert (Hall1 : Forall (ptr_ok (graph w1) b) ((done ++ [a]) ++ rest)).
    { rewrite <- app_assoc. simpl. eapply Forall_impl; [exact Hall |].
      intros q Hq. eapply ptr_ok_frame; eassumption. }
    destruct F1 as (Ft1 & Fl1 & Fn1).
    destruct (Fn1 _ _ Hcur) as (cur1 & Hcur1 & _).
    assert (F1 : grads_changed_below b (graph w) (graph w1))
      by (split; [exact Ft1 |]; split; [exact Fl1 | exact Fn1]).
    destruct (call_backward_Ok w1 b id cur1 done a n1 Hcur1)
      as (w2 & e & E2 & L2 & C2 & F2);
      [rewrite Forall_app in Hall1; tauto | exact Hn1 |].
    rewrite (bind_Ok _ _ _ _ _ E2).
    destruct F2 as (Ft2 & Fl2 & Fn2).
    destruct (Fn2 _ _ Hcur1) as (cur2 & Hcur2 & _).
    assert (F2 : grads_changed_below b (graph w1) (graph w2))
      by (split; [exact Ft2 |]; split; [exact Fl2 | exact Fn2]).
    destruct (IH w2 cur2 (done ++ [a]) Hcur2) as (w3 & tr3 & E3 & L3 & F3 & O3).
    { eapply Forall_impl; [exact Hall1 |]. intros q Hq.
      eapply ptr_ok_frame; eassumption. }
    assert (F02 : grads_changed_below b (graph w) (graph w2))
      by (eapply grads_changed_below_trans; eassumption).
    exists w3, (tr1 ++ e :: tr3). split; [exact E3 |].
    split; [rewrite L3, L2, L1, <- !app_assoc; reflexivity |].
    split; [eapply grads_changed_below_trans; eassumption |].
    assert (C0 : is_backward_call (graph w) id (done ++ [a]) (grad n1) e)
      by exact (is_backward_call_frame _ _ _ _ _ _ _ F1 C2).
    assert (O0 : operand_events (graph w) id (done ++ [a]) rest tr3)
      by exact (operand_events_frame _ _ _ _ _ _ _ F02 O3).
    destruct Hz as [-> | (z & -> & Hz)]; simpl.
    + eapply oe_existing; eassumption.
    + eapply oe_created; eassumption.
Qed.

Lemma backward_visit_Ok {laws : TensorLaws TL} w id :
  args_below (graph w) -> values_closed (graph w) ->
  (id < length (nodes_ (graph w)))%nat ->
  exists w' tr,
    backward_visit (N.of_nat id) w = Ok tt w' /\
    log w' = log w ++ tr /\
    grads_changed_below id (graph w) (graph w') /\
    visit_events (graph w) (N.of_nat id) tr.
Proof.
  intros Hab Hvc Hid. destruct (lookup_lt_is_Some_2 _ _ Hid) as [cur Hcur].
  unfold backward_visit.
  assert (Hcur' : nodes_ (graph w) !! N.to_nat (N.of_nat id) = Some cur)
    by (rewrite Nat2N.id; exact Hcur).
  rewrite (bind_Ok _ _ _ _ _ (node_at_Ok _ _ _ Hcur')).
  destruct (valid (value cur)) eqn:Hv.
  - destruct (backward_args_Ok w id (N.of_nat id) cur (args cur) [] Hcur')
      as (w' & tr & E & L & F & O).
    { simpl. apply Forall_forall. intros a Ha.
      pose proof (Hab _ _ _ Hcur Ha) as Hlt.
      assert (Hr : (N.to_nat a < length (nodes_ (graph w)))%nat) by lia.
      destruct (lookup_lt_is_Some_2 _ _ Hr) as [na Hna].
      exists na. split; [exact Hna |]. split; [| exact Hlt].
      exact (Hvc _ _ _ _ Hcur Hv Ha Hna). }
    exists w', tr. split; [exact E |]. split; [exact L |]. split; [exact F |].
    exists cur. split; [exact Hcur' |]. rewrite Hv. exact O.
  - exists w, []. split; [reflexivity |]. rewrite app_nil_r.
    split; [reflexivity |]. split; [apply grads_changed_below_refl |].
    exists cur. split; [exact Hcur' |]. rewrite Hv. reflexivity.
Qed.

Lemma backward_loop_Ok {laws : TensorLaws TL} k w :
  args_below (graph w) -> values_closed (graph w) ->
  (k <= length (nodes_ (graph w)))%nat ->
  exists w' tr,
    backward_loop k w = Ok tt w' /\
    log w' = log w ++ tr /\
    grads_changed_below (pred k) (graph w) (graph w') /\
    loop_events (graph w) k tr.
Proof.
  revert w. induction k as [| id IH]; intros w Hab Hvc Hk.
  - exists w, []. split; [reflexivity |]. rewrite app_nil_r.
    split; [reflexivity |]. split; [apply grads_changed_below_refl |].
    constructor.
  - simpl.
    destruct (backward_visit_Ok w id Hab Hvc) as (w1 & tr1 & E1 & L1 & F1 & V1);
      [lia |].
    rewrite (bind_Ok _ _ _ _ _ E1).
    destruct (IH w1) as (w2 & tr2 & E2 & L2 & F2 & V2).
    { eapply args_below_frame; eassumption. }
    { eapply values_closed_frame; eassumption. }
    { destruct F1 as (_ & -> & _). lia. }
    exists w2, (tr1 ++ tr2). split; [exact E2 |].
    split; [rewrite L2, L1, <- app_assoc; reflexivity |].
    split.
    + eapply grads_changed_below_trans; [exact F1 |].
      eapply grads_changed_below_mono; [| exact F2]. lia.
    + constructor; [exact V1 |]. eapply loop_events_frame; eassumption.
Qed.

(** ** Frames: what [Graph::forward] leaves alone *)

Lemma with_value_eq_fields t n n' :
  with_value t n' = with_value t n ->
  shape n' = shape n /\ func n' = func n /\ grad n' = grad n /\
  args n' = args n /\ sinks n' = sinks n.
Proof.
  destruct n, n'. unfold with_value. simpl. intros [= -> -> -> -> ->]. auto.
Qed.

Lemma values_filled_refl g : values_filled g g.
Proof.
  split; [reflexivity |]. split; [reflexivity |]. intros i n Hn.
  exists n. auto.
Qed.

Lemma values_filled_trans g1 g2 g3 :
  values_filled g1 g2 -> values_filled g2 g3 -> values_filled g1 g3.
Proof.
  intros (Ht1 & Hl1 & H1) (Ht2 & Hl2 & H2).
  split; [congruence |]. split; [congruence |]. intros i n Hn.
  destruct (H1 _ _ Hn) as (n2 & Hn2 & Hs1 & Hc1).
  destruct (H2 _ _ Hn2) as (n3 & Hn3 & Hs2 & Hc2).
  exists n3. split; [exact Hn3 |]. split; [congruence |].
  intros Hv. specialize (Hc1 Hv). subst n2. auto.
Qed.

Lemma values_filled_lookup_back g g' i n' :
  values_filled g g' -> nodes_ g' !! i = Some n' ->
  exists n, nodes_ g !! i = Some n /\
    with_value Tensor_new n' = with_value Tensor_new n /\
    (valid (value n) = true -> n' = n).
Proof.
  intros (_ & Hl & H) Hn'.
  assert (Hi : (i < length (nodes_ g))%nat).
  { rewrite <- Hl. eapply lookup_lt_Some. exact Hn'. }
  destruct (lookup_lt_is_Some_2 _ _ Hi) as [n Hn].
  destruct (H _ _ Hn) as (n'' & Hn'' & Hs & Hc).
  assert (n'' = n') as -> by congruence. eauto.
Qed.

Lemma realized_filled g g' i :
  values_filled g g' -> realized g i -> realized g' i.
Proof.
  intros (_ & _ & H) (n & Hn & Hv).
  destruct (H _ _ Hn) as (n' & Hn' & _ & Hc).
  specialize (Hc Hv). subst n'. exists n. auto.
Qed.

Lemma args_below_filled g g' :
  values_filled g g' -> args_below g -> args_below g'.
Proof.
  intros Hf Hab p n' a Hn' Ha.
  destruct (values_filled_lookup_back _ _ _ _ Hf Hn') as (n & Hn & Hs & _).
  apply with_value_eq_fields in Hs as (_ & _ & _ & Hargs & _).
  rewrite Hargs in Ha. eapply Hab; eassumption.
Qed.

Lemma funcs_satisfy_filled P g g' :
  values_filled g g' -> funcs_satisfy P g -> funcs_satisfy P g'.
Proof.
  intros Hf Hfs p n' Hn'.
  destruct (values_filled_lookup_back _ _ _ _ Hf Hn') as (n & Hn & Hs & _).
  apply with_value_eq_fields in Hs as (_ & Hfunc & _).
  rewrite Hfunc. eapply Hfs; eassumption.
Qed.

Lemma grads_realized_filled g g' :
  values_filled g g' -> grads_realized g -> grads_realized g'.
Proof.
  intros Hf Hgr p n' Hn' Hg.
  destruct (values_filled_lookup_back _ _ _ _ Hf Hn') as (n & Hn & Hs & Hc).
  apply with_value_eq_fields in Hs as (_ & _ & Hgrad & _).
  rewrite Hgrad in Hg. pose proof (Hgr _ _ Hn Hg) as Hv.
  rewrite (Hc Hv). exact Hv.
Qed.

Lemma sinks_above_filled g g' :
  values_filled g g' -> sinks_above g -> sinks_above g'.
Proof.
  intros Hf Hsa p n' s Hn' Hs'.
  destruct (values_filled_lookup_back _ _ _ _ Hf Hn') as (n & Hn & Hs & _).
  apply with_value_eq_fields in Hs as (_ & _ & _ & _ & Hsinks).
  rewrite Hsinks in Hs'. eapply Hsa; eassumption.
Qed.

(** ** The calls of [forward] *)

Lemma forward_ids_app tr1 tr2 :
  forward_ids (tr1 ++ tr2) = forward_ids tr1 ++ forward_ids tr2.
Proof.
  induction tr1 as [| [| |] tr1 IH]; simpl; rewrite ?IH; reflexivity.
Qed.

Lemma forward_ids_calls g g' b tr j :
  Forall (forward_call g g' b) tr -> j ∈ forward_ids tr ->
  (N.to_nat j < b)%nat /\
  (exists n, nodes_ g !! N.to_nat j = Some n /\ valid (value n) = false) /\
  realized g' j.
Proof.
  induction 1 as [| e tr (i & xs & n & n' & -> & Hb & Hn & Hv & Hn' & Hv') _ IH];
    simpl; intros Hj.
  - apply elem_of_nil in Hj. contradiction.
  - apply elem_of_cons in Hj as [-> | Hj]; [| auto].
    split; [exact Hb |]. split; [eauto |]. exists n'. auto.
Qed.

Lemma forward_effect_refl b w : forward_effect b w w.
Proof.
  split; [apply values_filled_refl |]. exists []. rewrite app_nil_r.
  split; [reflexivity |]. split; constructor.
Qed.

Lemma forward_call_mono g g' b b' e :
  (b <= b')%nat -> forward_call g g' b e -> forward_call g g' b' e.
Proof.
  intros Hb (j & xs & n & n' & -> & Hj & H). exists j, xs, n, n'.
  split; [reflexivity |]. split; [lia | exact H].
Qed.

Lemma forward_effect_mono b b' w w' :
  (b <= b')%nat -> forward_effect b w w' -> forward_effect b' w w'.
Proof.
  intros Hb (Hf & tr & Hl & Hall & Hnd). split; [exact Hf |].
  exists tr. split; [exact Hl |]. split; [| exact Hnd].
  eapply Forall_impl; [exact Hall |]. intros e. apply forward_call_mono. exact Hb.
Qed.

Lemma forward_effect_trans b w1 w2 w3 :
  forward_effect b w1 w2 -> forward_effect b w2 w3 -> forward_effect b w1 w3.
Proof.
  intros (Hf1 & tr1 & Hl1 & Hall1 & Hnd1) (Hf2 & tr2 & Hl2 & Hall2 & Hnd2).
  split; [eapply values_filled_trans; eassumption |].
  exists (tr1 ++ tr2). split; [rewrite Hl2, Hl1, app_assoc; reflexivity |].
  split.
  - apply Forall_app. split.
    + eapply Forall_impl; [exact Hall1 |].
      intros e (j & xs & n & n' & -> & Hb & Hn & Hv & Hn' & Hv').
      destruct (realized_filled _ _ j Hf2) as (n3 & Hn3 & Hv3); [exists n'; auto |].
      exists j, xs, n, n3. auto 10.
    + eapply Forall_impl; [exact Hall2 |].
      intros e (j & xs & n2 & n' & -> & Hb & Hn2 & Hv2 & Hn' & Hv').
      destruct (values_filled_lookup_back _ _ _ _ Hf1 Hn2) as (n & Hn & _ & Hc).
      exists j, xs, n, n'. split; [reflexivity |]. split; [exact Hb |].
      split; [exact Hn |]. split; [| auto].
      destruct (valid (value n)) eqn:Hv; [| reflexivity].
      rewrite (Hc eq_refl) in Hv2. congruence.
  - rewrite forward_ids_app. apply NoDup_app. split; [exact Hnd1 |].
    split; [| exact Hnd2]. intros j Hj1 Hj2.
    destruct (forward_ids_calls _ _ _ _ _ Hall1 Hj1) as (_ & _ & (n & Hn & Hv)).
    destruct (forward_ids_calls _ _ _ _ _ Hall2 Hj2) as (_ & (m & Hm & Hvm) & _).
    congruence.
Qed.

Lemma forward_inv_filled g g' :
  values_filled g g' -> values_closed g' -> forward_inv g -> forward_inv g'.
Proof.
  intros Hf Hvc (Hab & _ & Hfs). split; [eapply args_below_filled; eassumption |].
  split; [exact Hvc |]. eapply funcs_satisfy_filled; eassumption.
Qed.

(** ** Loops *)

Lemma for_each_Ok_inv {A} (l : list A) (body : A -> M unit)
    (I : World -> Prop) (R : World -> World -> Prop) (Q : A -> World -> Prop) :
  (forall w, R w w) ->
  (forall w1 w2 w3, R w1 w2 -> R w2 w3 -> R w1 w3) ->
  (forall x w w', x ∈ l -> I w -> body x w = Ok tt w' ->
     I w' /\ R w w' /\ Q x w') ->
  (forall x w w', Q x w -> I w -> R w w' -> Q x w') ->
  forall w w', I w -> for_each l body w = Ok tt w' ->
    I w' /\ R w w' /\ forall x, x ∈ l -> Q x w'.
Proof.
  intros Hrefl Htrans Hbody Hstable.
  induction l as [| x l IH]; intros w w' HI E; simpl in E.
  - injection E as <-. split; [exact HI |]. split; [apply Hrefl |].
    intros x Hx. apply elem_of_nil in Hx. contradiction.
  - apply bind_Ok_inv in E as ([] & w1 & E1 & E2).
    destruct (Hbody x w w1) as (HI1 & HR1 & HQ1);
      [apply list_elem_of_here | exact HI | exact E1 |].
    destruct IH with (w := w1) (w' := w') as (HI2 & HR2 & HQ2);
      [ intros y v v' Hy; apply Hbody; apply list_elem_of_further; exact Hy
      | exact HI1 | exact E2 |].
    split; [exact HI2 |]. split; [eapply Htrans; eassumption |].
    intros y Hy. apply elem_of_cons in Hy as [-> | Hy]; [| auto].
    eapply Hstable; eassumption.
Qed.

Lemma for_each_Ok {A} (l : list A) (body : A -> M unit) (I : World -> Prop) :
  (forall x w, x ∈ l -> I w -> exists w', body x w = Ok tt w' /\ I w') ->
  forall w, I w -> exists w', for_each l body w = Ok tt w' /\ I w'.
Proof.
  intros Hbody. induction l as [| x l IH]; intros w HI; simpl.
  - exists w. auto.
  - destruct (Hbody x w) as (w1 & E1 & HI1); [apply list_elem_of_here | exact HI |].
    rewrite (bind_Ok _ _ _ _ _ E1).
    apply IH; [| exact HI1].
    intros y v Hy. apply Hbody. apply list_elem_of_further. exact Hy.
Qed.

Lemma deref_values_Ok_inv ptrs w xs w' :
  deref_values ptrs w = Ok xs w' ->
  w' = w /\
  Forall2 (fun p x => exists n,
             nodes_ (graph w) !! N.to_nat p = Some n /\ value n = x) ptrs xs.
Proof.
  revert xs w'. induction ptrs as [| p ptrs IH]; intros xs w' E; simpl in E.
  - injection E as <- <-. split; [reflexivity | constructor].
  - apply bind_Ok_inv in E as (n & w1 & E1 & E).
    apply node_at_Ok_inv in E1 as [-> Hn].
    apply bind_Ok_inv in E as (ys & w2 & E2 & E).
    apply IH in E2 as [-> Hys]. injection E as <- <-.
    split; [reflexivity |]. constructor; [eauto | exact Hys].
Qed.

(** ** Graph::forward *)

(** Storing a value at [id], whose operands hold values, keeps the
    values closed under operands. *)
Lemma values_closed_set_value g id n v :
  nodes_ g !! id = Some n -> valid v = true -> values_closed g ->
  (forall a, a ∈ args n -> realized g a) ->
  values_closed (mkGraph (this g) (<[id := with_value v n]> (nodes_ g))).
Proof.
  intros Hn Hvalid Hvc Hargs p m a ma. simpl.
  assert (Hid : (id < length (nodes_ g))%nat) by (eapply lookup_lt_Some; exact Hn).
  intros Hm Hv Ha Hma.
  destruct (decide (N.to_nat a = id)) as [Ha_id | Ha_ne].
  - rewrite Ha_id in Hma.
    rewrite list_lookup_insert_eq in Hma by exact Hid. injection Hma as <-.
    exact Hvalid.
  - rewrite list_lookup_insert_ne in Hma by auto.
    destruct (decide (p = id)) as [-> | Hne].
    + rewrite list_lookup_insert_eq in Hm by exact Hid. injection Hm as <-.
      destruct (Hargs _ Ha) as (na & Hna & Hva). congruence.
    + rewrite list_lookup_insert_ne in Hm by auto.
      exact (Hvc _ _ _ _ Hm Hv Ha Hma).
Qed.

Lemma operand_values_valid g ptrs xs :
  Forall2 (fun p x => exists n,
             nodes_ g !! N.to_nat p = Some n /\ value n = x) ptrs xs ->
  (forall a, a ∈ ptrs -> realized g a) ->
  Forall (fun x => valid x = true) xs.
Proof.
  induction 1 as [| p x ptrs xs (n & Hn & <-) _ IH]; intros Hall.
  - constructor.
  - constructor.
    + destruct (Hall p) as (m & Hm & Hv); [apply list_elem_of_here |]. congruence.
    + apply IH. intros a Ha. apply Hall. apply list_elem_of_further. exact Ha.
Qed.

Lemma forward_recursive_effect fuel id w w' :
  forward_inv (graph w) -> forward_recursive fuel id w = Ok tt w' ->
  forward_inv (graph w') /\ forward_effect (S (N.to_nat id)) w w' /\
  realized (graph w') id.
Proof.
  revert id w w'. induction fuel as [| fuel IH]; intros id w w' Hinv E;
    simpl in E; [discriminate |].
  apply bind_Ok_inv in E as (n & w0 & E0 & E).
  apply node_at_Ok_inv in E0 as [-> Hn].
  destruct (valid (value n)) eqn:Hv.
  { injection E as <-. split; [exact Hinv |].
    split; [apply forward_effect_refl |]. exists n. auto. }
  apply bind_Ok_inv in E as ([] & w1 & E1 & E).
  apply bind_Ok_inv in E as (xs & w2 & E2 & E).
  apply deref_values_Ok_inv in E2 as [-> Hxs].
  apply bind_Ok_inv in E as ([] & w3 & E3 & E).
  injection E3 as <-.
  assert (Hbelow : forall a, a ∈ args n -> (N.to_nat a < N.to_nat id)%nat).
  { intros a Ha. destruct Hinv as (Hab & _). exact (Hab _ _ _ Hn Ha). }
  (* the loop over the operands *)
  match type of E1 with
  | for_each _ ?body _ = _ =>
      pose proof (for_each_Ok_inv (args n) body
                    (fun w => forward_inv (graph w))
                    (forward_effect (N.to_nat id))
                    (fun a w => realized (graph w) a)
                    (forward_effect_refl _) (forward_effect_trans _)) as Hloop
  end.
  destruct Hloop with (w := w) (w' := w1) as (Hinv1 & Heff1 & Hreal1);
    [| | exact Hinv | exact E1 |]; clear Hloop.
  { intros a v v' Ha Hv0 Ea.
    apply bind_Ok_inv in Ea as ([] & v1 & Ea1 & Ea).
    apply bind_Ok_inv in Ea as (m & v2 & Ea2 & Ea).
    apply node_at_Ok_inv in Ea2 as [-> _]. injection Ea as <-.
    destruct (IH _ _ _ Hv0 Ea1) as (Hi & He & Hr).
    split; [exact Hi |]. split; [| exact Hr].
    eapply forward_effect_mono; [| exact He]. specialize (Hbelow a Ha). lia. }
  { intros a v v' Hr _ (Hf & _). eapply realized_filled; eassumption. }
  (* the call of forward and the store *)
  unfold modify_node in E. simpl in E.
  destruct (nodes_ (graph w1) !! N.to_nat id) as [n1 |] eqn:Hn1; [| discriminate].
  injection E as <-.
  destruct Heff1 as (Hf1 & tr1 & Hl1 & Hall1 & Hnd1).
  destruct (proj2 (proj2 Hf1) _ _ Hn) as (n1' & Hn1' & Hs1 & _).
  assert (n1' = n1) as -> by congruence.
  pose proof (with_value_eq_fields _ _ _ Hs1) as (Hshape & Hfunc & Hgrad & Hargs & Hsinks).
  assert (Hid : (N.to_nat id < length (nodes_ (graph w1)))%nat)
    by (eapply lookup_lt_Some; exact Hn1).
  assert (Hvalid : valid (forward (func n) xs) = true).
  { destruct Hinv as (_ & _ & Hfs). apply (Hfs _ _ Hn).
    eapply operand_values_valid; [exact Hxs | exact Hreal1]. }
  set (v := forward (func n) xs) in *.
  set (g' := mkGraph (this (graph w1))
                     (<[N.to_nat id := with_value v n1]> (nodes_ (graph w1)))).
  assert (Hf' : values_filled (graph w) g').
  { destruct Hf1 as (Ht & Hlen & Hnodes). split; [exact Ht |].
    split; [simpl; rewrite length_insert; exact Hlen |].
    intros i m Hm. simpl. destruct (decide (i = N.to_nat id)) as [-> | Hne].
    - rewrite list_lookup_insert_eq by exact Hid.
      assert (m = n) as -> by congruence.
      eexists. split; [reflexivity |]. split; [exact Hs1 | congruence].
    - rewrite list_lookup_insert_ne by auto. apply Hnodes. exact Hm. }
  assert (Hvc' : values_closed g').
  { apply values_closed_set_value;
      [exact Hn1 | exact Hvalid | exact (proj1 (proj2 Hinv1)) |].
    rewrite Hargs. exact Hreal1. }
  split; [eapply forward_inv_filled; eassumption |].
  split.
  - split; [exact Hf' |]. exists (tr1 ++ [ev_forward id xs]). simpl.
    split; [rewrite Hl1, app_assoc; reflexivity |]. split.
    + apply Forall_app. split.
      * eapply Forall_impl; [exact Hall1 |].
        intros e (j & ys & m & m' & -> & Hj & Hm & Hvm & Hm' & Hvm').
        exists j, ys, m, m'. split; [reflexivity |]. split; [lia |].
        split; [exact Hm |]. split; [exact Hvm |]. split; [| exact Hvm'].
        simpl. rewrite list_lookup_insert_ne by lia. exact Hm'.
      * constructor; [| constructor].
        exists id, xs, n, (with_value v n1). split; [reflexivity |].
        split; [lia |]. split; [exact Hn |]. split; [exact Hv |].
        split; [| exact Hvalid].
        simpl. apply list_lookup_insert_eq. exact Hid.
    + rewrite forward_ids_app. simpl. apply NoDup_app. split; [exact Hnd1 |].
      split; [| apply NoDup_singleton].
      intros j Hj1 Hj2. apply list_elem_of_singleton in Hj2 as ->.
      destruct (forward_ids_calls _ _ _ _ _ Hall1 Hj1) as (Hlt & _). lia.
  - exists (with_value v n1). split; [| exact Hvalid].
    simpl. apply list_lookup_insert_eq. exact Hid.
Qed.

Lemma deref_values_in_range ptrs w :
  Forall (fun p => (N.to_nat p < length (nodes_ (graph w)))%nat) ptrs ->
  exists xs, deref_values ptrs w = Ok xs w.
Proof.
  induction 1 as [| p ptrs Hp _ (xs & E)]; simpl.
  - exists []. reflexivity.
  - destruct (lookup_lt_is_Some_2 _ _ Hp) as [n Hn].
    rewrite (bind_Ok _ _ _ _ _ (node_at_Ok _ _ _ Hn)).
    rewrite (bind_Ok _ _ _ _ _ E). eexists. reflexivity.
Qed.

(** With fuel above the position, the recursion of [forward] ends. *)
Lemma forward_recursive_Ok fuel id w :
  forward_inv (graph w) ->
  (N.to_nat id < length (nodes_ (graph w)))%nat -> (N.to_nat id < fuel)%nat ->
  exists w', forward_recursive fuel id w = Ok tt w'.
Proof.
  revert id w. induction fuel as [| fuel IH]; intros id w Hinv Hid Hfuel;
    [lia |]. simpl.
  destruct (lookup_lt_is_Some_2 _ _ Hid) as [n Hn].
  rewrite (bind_Ok _ _ _ _ _ (node_at_Ok _ _ _ Hn)).
  destruct (valid (value n)); [eexists; reflexivity |].
  assert (Hbelow : forall a, a ∈ args n -> (N.to_nat a < N.to_nat id)%nat).
  { intros a Ha. destruct Hinv as (Hab & _). exact (Hab _ _ _ Hn Ha). }
  match goal with
  | |- context [for_each _ ?body] =>
      destruct (for_each_Ok (args n) body
                  (fun v => forward_inv (graph v) /\
                            length (nodes_ (graph v)) = length (nodes_ (graph w))))
        with (w := w) as (w1 & E1 & Hinv1 & Hlen1)
  end.
  { intros a v Ha [Hv Hlen]. specialize (Hbelow a Ha).
    destruct (IH a v Hv) as (v1 & Ea); [lia | lia |].
    destruct (forward_recursive_effect _ _ _ _ Hv Ea) as (Hv1 & (Hf & _) & _).
    assert (Hlen1 : length (nodes_ (graph v1)) = length (nodes_ (graph w)))
      by (destruct Hf as (_ & -> & _); exact Hlen).
    assert (Ha1 : (N.to_nat a < length (nodes_ (graph v1)))%nat) by lia.
    destruct (lookup_lt_is_Some_2 _ _ Ha1) as [m Hm].
    exists v1. rewrite (bind_Ok _ _ _ _ _ Ea).
    rewrite (bind_Ok _ _ _ _ _ (node_at_Ok _ _ _ Hm)). auto. }
  { auto. }
  rewrite (bind_Ok _ _ _ _ _ E1).
  destruct (deref_values_in_range (args n) w1) as (xs & E2).
  { apply Forall_forall. intros a Ha. specialize (Hbelow a Ha). lia. }
  rewrite (bind_Ok _ _ _ _ _ E2).
  unfold bind, emit, modify_node. simpl.
  assert (Hid1 : (N.to_nat id < length (nodes_ (graph w1)))%nat) by lia.
  destruct (lookup_lt_is_Some_2 _ _ Hid1) as [n1 ->]. eexists. reflexivity.
Qed.

(** The ways [Graph::forward] can end with the process alive. *)
Lemma Graph_forward_after fuel node w w' :
  after (Graph_forward fuel node w) = Some w' ->
  (w' = w /\ g_ node <> this (graph w)) \/
  (handle_ok (graph w) node /\
   forward_recursive fuel (id_ node) w = Ok tt w').
Proof.
  unfold Graph_forward. intros H.
  apply bind_after_inv in H as [(e & H) | ([] & w1 & E1 & H)].
  { apply CHECK_NODE_Throw_inv in H as (-> & Hg & _). auto. }
  apply CHECK_NODE_Ok_inv in E1 as [-> Hok]. right. split; [exact Hok |].
  apply bind_after_inv in H as [(e & H) | ([] & w2 & E2 & H)].
  { exfalso. exact (never_throws_forward_recursive _ _ _ _ _ H). }
  apply bind_after_inv in H as [(e & H) | (n & w3 & E3 & H)].
  { exfalso. exact (never_throws_node_at _ _ _ _ H). }
  apply node_at_Ok_inv in E3 as [-> _]. injection H as <-. exact E2.
Qed.

Lemma Graph_forward_Ok_inv fuel node w v w' :
  Graph_forward fuel node w = Ok v w' ->
  handle_ok (graph w) node /\
  forward_recursive fuel (id_ node) w = Ok tt w' /\
  exists n', nodes_ (graph w') !! N.to_nat (id_ node) = Some n' /\ value n' = v.
Proof.
  unfold Graph_forward. intros H.
  apply bind_Ok_inv in H as ([] & w1 & E1 & H).
  apply CHECK_NODE_Ok_inv in E1 as [-> Hok]. split; [exact Hok |].
  apply bind_Ok_inv in H as ([] & w2 & E2 & H).
  apply bind_Ok_inv in H as (n & w3 & E3 & H).
  apply node_at_Ok_inv in E3 as [-> Hn]. injection H as <- <-.
  split; [exact E2 |]. eauto.
Qed.

(** A forward evaluation of a node that holds a value changes nothing
    and returns that value. *)
Lemma Graph_forward_realized fuel node w n :
  handle_ok (graph w) node ->
  nodes_ (graph w) !! N.to_nat (id_ node) = Some n ->
  valid (value n) = true ->
  Graph_forward (S fuel) node w = Ok (value n) w.
Proof.
  intros Hok Hn Hv. unfold Graph_forward.
  rewrite (bind_Ok _ _ _ _ _ (CHECK_NODE_ok _ _ Hok)).
  assert (E : forward_recursive (S fuel) (id_ node) w = Ok tt w).
  { simpl. rewrite (bind_Ok _ _ _ _ _ (node_at_Ok _ _ _ Hn)). rewrite Hv.
    reflexivity. }
  rewrite (bind_Ok _ _ _ _ _ E).
  rewrite (bind_Ok _ _ _ _ _ (node_at_Ok _ _ _ Hn)). reflexivity.
Qed.

(** ** Graph::backward *)

Lemma to_int_le id : (to_int id <= Z.of_N id)%Z.
Proof.
  unfold to_int, to_unsigned, UINT_MOD.
  assert (H : (id mod 2 ^ 32 <= id)%N) by (apply N.Div0.mod_le).
  destruct (Z.ltb_spec (Z.of_N (id mod 2 ^ 32)) (2 ^ 31)); lia.
Qed.

Lemma to_int_small id : id < 2 ^ 31 -> to_int id = Z.of_N id.
Proof.
  intros H. unfold to_int, to_unsigned, UINT_MOD.
  rewrite N.mod_small by lia.
  destruct (Z.ltb_spec (Z.of_N id) (2 ^ 31)); [reflexivity | lia].
Qed.

(** The number of iterations of the loop of [backward]. *)
Lemma backward_iterations_le id :
  (Z.to_nat (to_int id + 1) <= S (N.to_nat id))%nat.
Proof. pose proof (to_int_le id). lia. Qed.

Lemma backward_iterations_small id :
  id < 2 ^ 31 -> Z.to_nat (to_int id + 1) = S (N.to_nat id).
Proof. intros H. rewrite (to_int_small _ H). lia. Qed.

Lemma Graph_backward_Throw_inv node w e w' :
  Graph_backward node w = Throw e w' ->
  w' = w /\
  ((g_ node <> this (graph w) /\
    e = GraphMismatched (g_ node) (this (graph w))) \/
   (exists n, handle_ok (graph w) node /\
      nodes_ (graph w) !! N.to_nat (id_ node) = Some n /\
      ((valid (value n) = false /\ e = NotCalculated (id_ node)) \/
       (valid (value n) = true /\ valid (grad n) = true /\
        e = AlreadyHasGradient (id_ node))))).
Proof.
  unfold Graph_backward. intros H.
  apply bind_Throw_inv in H as [H | ([] & w1 & E1 & H)].
  { apply CHECK_NODE_Throw_inv in H as (-> & Hg & ->). auto. }
  apply CHECK_NODE_Ok_inv in E1 as [-> Hok].
  apply bind_Throw_inv in H as [H | (n & w2 & E2 & H)].
  { exfalso. exact (never_throws_node_at _ _ _ _ H). }
  apply node_at_Ok_inv in E2 as [-> Hn].
  destruct (valid (value n)) eqn:Hv; simpl in H.
  - destruct (valid (grad n)) eqn:Hg.
    + injection H as <- <-. split; [reflexivity |]. right. exists n. auto 10.
    + exfalso.
      apply bind_Throw_inv in H as [H | ([] & w3 & _ & H)]; [discriminate |].
      apply bind_Throw_inv in H as [H | ([] & w4 & _ & H)].
      * exact (never_throws_modify_node _ _ _ _ _ H).
      * exact (never_throws_backward_loop _ _ _ _ H).
  - injection H as <- <-. split; [reflexivity |]. right. exists n. auto 10.
Qed.

Lemma Graph_backward_not_calculated node w n :
  handle_ok (graph w) node ->
  nodes_ (graph w) !! N.to_nat (id_ node) = Some n ->
  valid (value n) = false ->
  Graph_backward node w = Throw (NotCalculated (id_ node)) w.
Proof.
  intros Hok Hn Hv. unfold Graph_backward.
  rewrite (bind_Ok _ _ _ _ _ (CHECK_NODE_ok _ _ Hok)).
  rewrite (bind_Ok _ _ _ _ _ (node_at_Ok _ _ _ Hn)). rewrite Hv. reflexivity.
Qed.

Lemma Graph_backward_already node w n :
  handle_ok (graph w) node ->
  nodes_ (graph w) !! N.to_nat (id_ node) = Some n ->
  valid (value n) = true -> valid (grad n) = true ->
  Graph_backward node w = Throw (AlreadyHasGradient (id_ node)) w.
Proof.
  intros Hok Hn Hv Hg. unfold Graph_backward.
  rewrite (bind_Ok _ _ _ _ _ (CHECK_NODE_ok _ _ Hok)).
  rewrite (bind_Ok _ _ _ _ _ (node_at_Ok _ _ _ Hn)). rewrite Hv, Hg.
  reflexivity.
Qed.

(** A differentiation whose preconditions hold returns; what it calls
    and what it changes. *)
Lemma Graph_backward_Ok {laws : TensorLaws TL} node w n :
  args_below (graph w) -> values_closed (graph w) ->
  handle_ok (graph w) node ->
  nodes_ (graph w) !! N.to_nat (id_ node) = Some n ->
  valid (value n) = true -> valid (grad n) = false ->
  exists w' tr,
    Graph_backward node w = Ok tt w' /\
    log w' = log w ++ ev_constant (id_ node) (grad n) (shape n) 1 :: tr /\
    loop_events (graph w) (Z.to_nat (to_int (id_ node) + 1)) tr /\
    grads_changed_below (S (N.to_nat (id_ node))) (graph w) (graph w') /\
    nodes_ (graph w') !! N.to_nat (id_ node)
      = Some (with_grad (constant (value n) (shape n) 1) n).
Proof.
  intros Hab Hvc Hok Hn Hv Hg. unfold Graph_backward.
  rewrite (bind_Ok _ _ _ _ _ (CHECK_NODE_ok _ _ Hok)).
  rewrite (bind_Ok _ _ _ _ _ (node_at_Ok _ _ _ Hn)). rewrite Hv, Hg. simpl.
  set (z := ev_constant (id_ node) (grad n) (shape n) 1).
  set (w1 := mkWorld (graph w) (log w ++ [z])).
  assert (E1 : emit z w = Ok tt w1) by reflexivity.
  rewrite (bind_Ok _ _ _ _ _ E1).
  destruct (modify_node_grad w1 (id_ node) n
              (with_grad (constant (value n) (shape n) 1))
              (S (N.to_nat (id_ node))) Hn Hv)
    as (w2 & E2 & L2 & F2 & Hn2); [lia | intros m; reflexivity |].
  rewrite (bind_Ok _ _ _ _ _ E2).
  pose proof (backward_iterations_le (id_ node)) as Hk.
  assert (Hlen : (N.to_nat (id_ node) < length (nodes_ (graph w2)))%nat)
    by (eapply lookup_lt_Some; exact Hn2).
  destruct (backward_loop_Ok (Z.to_nat (to_int (id_ node) + 1)) w2)
    as (w3 & tr & E3 & L3 & F3 & V3).
  { eapply args_below_frame; [exact F2 | exact Hab]. }
  { eapply values_closed_frame; [exact F2 | exact Hvc]. }
  { lia. }
  exists w3, tr. split; [exact E3 |].
  split; [rewrite L3, L2; unfold w1; simpl; rewrite <- app_assoc; reflexivity |].
  split; [eapply loop_events_frame; [exact F2 | exact V3] |].
  split.
  - eapply grads_changed_below_trans; [exact F2 |].
    eapply grads_changed_below_mono; [| exact F3]. lia.
  - destruct F3 as (_ & _ & H3).
    destruct (H3 _ _ Hn2) as (n3 & Hn3 & _ & [-> | [Hlt _]]); [exact Hn3 | lia].
Qed.

Lemma operand_events_forward_ids g id done rest tr :
  operand_events g id done rest tr -> forward_ids tr = [].
Proof.
  induction 1 as [| done a rest ga e tr _ (y & gy & xs & gs & -> & _) _ IH
                  | done a rest zero z e tr (n & old & _ & -> & _)
                      (y & gy & xs & gs & -> & _) _ IH]; simpl; auto.
Qed.

Lemma loop_events_forward_ids g k tr :
  loop_events g k tr -> forward_ids tr = [].
Proof.
  induction 1 as [| id tr1 tr2 (n & _ & H1) _ IH]; [reflexivity |].
  rewrite forward_ids_app, IH, app_nil_r.
  destruct (valid (value n)); [| subst tr1; reflexivity].
  eapply operand_events_forward_ids; exact H1.
Qed.

(** The ways [Graph::backward] can end with the process alive. *)
Lemma Graph_backward_after {laws : TensorLaws TL} node w w' :
  args_below (graph w) -> values_closed (graph w) ->
  after (Graph_backward node w) = Some w' ->
  w' = w \/
  exists tr,
    log w' = log w ++ tr /\ forward_ids tr = [] /\
    grads_changed_below (S (N.to_nat (id_ node))) (graph w) (graph w').
Proof.
  intros Hab Hvc H.
  destruct (Graph_backward node w) as [[] w1 | e w1 | | |] eqn:E;
    simpl in H; try discriminate; injection H as ->.
  - right. pose proof E as E0.
    apply bind_Ok_inv in E as ([] & v1 & E1 & E).
    apply CHECK_NODE_Ok_inv in E1 as [-> Hok].
    apply bind_Ok_inv in E as (n & v2 & E2 & E).
    apply node_at_Ok_inv in E2 as [-> Hn].
    destruct (valid (value n)) eqn:Hv; [| discriminate].
    destruct (valid (grad n)) eqn:Hg; [discriminate |]. clear E.
    destruct (Graph_backward_Ok node w n Hab Hvc Hok Hn Hv Hg)
      as (w2 & tr & E2 & L2 & V2 & F2 & _).
    rewrite E2 in E0. injection E0 as ->.
    exists (ev_constant (id_ node) (grad n) (shape n) 1 :: tr).
    split; [exact L2 |]. split; [| exact F2].
    simpl. eapply loop_events_forward_ids; exact V2.
  - left. apply Graph_backward_Throw_inv in E. tauto.
Qed.

(** ** Calls that change values and gradients only *)

Lemma same_structure_refl w : same_structure w w.
Proof. split; reflexivity. Qed.

Lemma same_structure_trans w1 w2 w3 :
  same_structure w1 w2 -> same_structure w2 w3 -> same_structure w1 w3.
Proof. intros [H1 H2] [H3 H4]. split; congruence. Qed.

Lemma skeleton_fields n n' :
  skeleton n' = skeleton n ->
  shape n' = shape n /\ func n' = func n /\ args n' = args n /\
  sinks n' = sinks n.
Proof.
  destruct n, n'. unfold skeleton, with_value, with_grad. simpl.
  intros [= -> -> -> ->]. auto.
Qed.

Lemma same_structure_length w w' :
  same_structure w w' ->
  length (nodes_ (graph w')) = length (nodes_ (graph w)).
Proof.
  intros [_ H]. apply (f_equal length) in H. rewrite !length_fmap in H.
  exact H.
Qed.

Lemma same_structure_lookup w w' i n' :
  same_structure w w' -> nodes_ (graph w') !! i = Some n' ->
  exists n, nodes_ (graph w) !! i = Some n /\ skeleton n' = skeleton n.
Proof.
  intros [_ H] Hn'.
  assert (Hs : (skeleton <$> nodes_ (graph w')) !! i = Some (skeleton n'))
    by (rewrite list_lookup_fmap, Hn'; reflexivity).
  rewrite H, list_lookup_fmap in Hs.
  destruct (nodes_ (graph w) !! i) as [n |]; [| discriminate].
  exists n. split; [reflexivity |]. simpl in Hs. congruence.
Qed.

Lemma args_below_structure w w' :
  same_structure w w' -> args_below (graph w) -> args_below (graph w').
Proof.
  intros Hs Hab p n' a Hn' Ha.
  destruct (same_structure_lookup _ _ _ _ Hs Hn') as (n & Hn & Hsk).
  apply skeleton_fields in Hsk as (_ & _ & Hargs & _).
  rewrite Hargs in Ha. exact (Hab _ _ _ Hn Ha).
Qed.

Lemma sinks_above_structure w w' :
  same_structure w w' -> sinks_above (graph w) -> sinks_above (graph w').
Proof.
  intros Hs Hsa p n' s Hn' Hs'.
  destruct (same_structure_lookup _ _ _ _ Hs Hn') as (n & Hn & Hsk).
  apply skeleton_fields in Hsk as (_ & _ & _ & Hsinks).
  rewrite Hsinks in Hs'. exact (Hsa _ _ _ Hn Hs').
Qed.

Lemma keeps_structure_ret {A} (a : A) : keeps_structure (ret a).
Proof. intros w w' [= <-]. apply same_structure_refl. Qed.

Lemma keeps_structure_throw {A} e : keeps_structure (@throw _ A e).
Proof. intros w w' [= <-]. apply same_structure_refl. Qed.

Lemma keeps_structure_bind {A B} (m : M A) (k : A -> M B) :
  keeps_structure m -> (forall a, keeps_structure (k a)) ->
  keeps_structure (bind m k).
Proof.
  intros Hm Hk w w' H.
  apply bind_after_inv in H as [(e & H) | (a & w1 & E1 & H)].
  - apply Hm. rewrite H. reflexivity.
  - eapply same_structure_trans; [apply Hm; rewrite E1; reflexivity |].
    eapply Hk. exact H.
Qed.

Lemma keeps_structure_emit e : keeps_structure (emit e).
Proof. intros w w' [= <-]. split; reflexivity. Qed.

Lemma keeps_structure_node_at i : keeps_structure (node_at i).
Proof.
  intros w w'. unfold node_at. destruct (_ !! _); simpl; [| discriminate].
  intros [= <-]. apply same_structure_refl.
Qed.

Lemma keeps_structure_modify_node i f :
  (forall n, skeleton (f n) = skeleton n) -> keeps_structure (modify_node i f).
Proof.
  intros Hf w w'. unfold modify_node.
  destruct (_ !! _) as [n |] eqn:Hn; simpl; [| discriminate].
  intros [= <-]. split; [reflexivity |]. simpl.
  rewrite list_fmap_insert, Hf. apply list_insert_id.
  rewrite list_lookup_fmap, Hn. reflexivity.
Qed.

Lemma keeps_structure_for_each {A} (l : list A) body :
  (forall x, keeps_structure (body x)) -> keeps_structure (for_each l body).
Proof.
  intros Hb. induction l as [| x l IH]; simpl.
  - apply keeps_structure_ret.
  - apply keeps_structure_bind; auto.
Qed.

Lemma keeps_structure_deref_values ptrs : keeps_structure (deref_values ptrs).
Proof.
  induction ptrs as [| p ptrs IH]; simpl.
  - apply keeps_structure_ret.
  - apply keeps_structure_bind; [apply keeps_structure_node_at |]. intros n.
    apply keeps_structure_bind; [exact IH |]. intros xs.
    apply keeps_structure_ret.
Qed.

Lemma keeps_structure_deref_grads ptrs : keeps_structure (deref_grads ptrs).
Proof.
  induction ptrs as [| p ptrs IH]; simpl.
  - apply keeps_structure_ret.
  - apply keeps_structure_bind; [apply keeps_structure_node_at |]. intros n.
    apply keeps_structure_bind; [exact IH |]. intros xs.
    apply keeps_structure_ret.
Qed.

Lemma keeps_structure_CHECK_NODE node : keeps_structure (CHECK_NODE node).
Proof.
  intros w w'. unfold CHECK_NODE. case_bool_decide; simpl.
  - intros [= <-]. apply same_structure_refl.
  - destruct (_ <=? _); simpl; [discriminate |].
    intros [= <-]. apply same_structure_refl.
Qed.

Lemma keeps_structure_forward_recursive fuel id :
  keeps_structure (forward_recursive fuel id).
Proof.
  revert id. induction fuel as [| fuel IH]; intros id; simpl.
  - intros w w'. discriminate.
  - apply keeps_structure_bind; [apply keeps_structure_node_at |]. intros n.
    destruct (valid (value n)); [apply keeps_structure_ret |].
    apply keeps_structure_bind.
    { apply keeps_structure_for_each. intros a.
      apply keeps_structure_bind; [apply IH |]. intros _.
      apply keeps_structure_bind; [apply keeps_structure_node_at |]. intros _.
      apply keeps_structure_ret. }
    intros _.
    apply keeps_structure_bind; [apply keeps_structure_deref_values |].
    intros xs.
    apply keeps_structure_bind; [apply keeps_structure_emit |]. intros _.
    apply keeps_structure_modify_node. intros m. reflexivity.
Qed.

Lemma keeps_structure_Graph_forward fuel node :
  keeps_structure (Graph_forward fuel node).
Proof.
  unfold Graph_forward.
  apply keeps_structure_bind; [apply keeps_structure_CHECK_NODE |]. intros _.
  apply keeps_structure_bind; [apply keeps_structure_forward_recursive |].
  intros _.
  apply keeps_structure_bind; [apply keeps_structure_node_at |]. intros n.
  apply keeps_structure_ret.
Qed.

Lemma keeps_structure_apply_updates gxs upds :
  keeps_structure (apply_updates gxs upds).
Proof.
  revert upds. induction gxs as [| p gxs IH]; intros [| u upds]; simpl;
    try apply keeps_structure_ret.
  apply keeps_structure_bind; [| auto].
  apply keeps_structure_modify_node. intros m. reflexivity.
Qed.

Lemma keeps_structure_call_backward id vs gs :
  keeps_structure (call_backward id vs gs).
Proof.
  unfold call_backward.
  apply keeps_structure_bind; [apply keeps_structure_node_at |]. intros n.
  apply keeps_structure_bind; [apply keeps_structure_deref_values |].
  intros xs.
  apply keeps_structure_bind; [apply keeps_structure_deref_grads |].
  intros gl.
  apply keeps_structure_bind; [apply keeps_structure_emit |]. intros _.
  apply keeps_structure_apply_updates.
Qed.

Lemma keeps_structure_ensure_grad a : keeps_structure (ensure_grad a).
Proof.
  unfold ensure_grad.
  apply keeps_structure_bind; [apply keeps_structure_node_at |]. intros n.
  destruct (valid (grad n)); [apply keeps_structure_ret |].
  apply keeps_structure_bind; [apply keeps_structure_emit |]. intros _.
  apply keeps_structure_modify_node. intros m. reflexivity.
Qed.

Lemma keeps_structure_backward_args id rest vs gs :
  keeps_structure (backward_args id rest vs gs).
Proof.
  revert vs gs. induction rest as [| a rest IH]; intros vs gs; simpl.
  - apply keeps_structure_ret.
  - apply keeps_structure_bind; [apply keeps_structure_ensure_grad |].
    intros _.
    apply keeps_structure_bind; [apply keeps_structure_call_backward |].
    intros _. apply IH.
Qed.

Lemma keeps_structure_backward_loop k : keeps_structure (backward_loop k).
Proof.
  induction k as [| k IH]; simpl.
  - apply keeps_structure_ret.
  - apply keeps_structure_bind; [| auto]. unfold backward_visit.
    apply keeps_structure_bind; [apply keeps_structure_node_at |]. intros n.
    destruct (valid (value n));
      [apply keeps_structure_backward_args | apply keeps_structure_ret].
Qed.

Lemma keeps_structure_Graph_backward node :
  keeps_structure (Graph_backward node).
Proof.
  unfold Graph_backward.
  apply keeps_structure_bind; [apply keeps_structure_CHECK_NODE |]. intros _.
  apply keeps_structure_bind; [apply keeps_structure_node_at |]. intros n.
  destruct (negb (valid (value n))); [apply keeps_structure_throw |].
  destruct (valid (grad n)); [apply keeps_structure_throw |].
  apply keeps_structure_bind; [apply keeps_structure_emit |]. intros _.
  apply keeps_structure_bind; [| intros _; apply keeps_structure_backward_loop].
  apply keeps_structure_modify_node. intros m. reflexivity.
Qed.

(** The accessors leave the world as it is. *)
Lemma get_value_after node w w' :
  after (get_value node w) = Some w' -> w' = w.
Proof.
  unfold get_value. intros H.
  apply bind_after_inv in H as [(e & H) | ([] & w1 & E1 & H)].
  { apply CHECK_NODE_Throw_inv in H. tauto. }
  apply CHECK_NODE_Ok_inv in E1 as [-> _].
  apply bind_after_inv in H as [(e & H) | (n & w2 & E2 & H)].
  { exfalso. exact (never_throws_node_at _ _ _ _ H). }
  apply node_at_Ok_inv in E2 as [-> _]. injection H as <-. reflexivity.
Qed.

Lemma get_gradient_after node w w' :
  after (get_gradient node w) = Some w' -> w' = w.
Proof.
  unfold get_gradient. intros H.
  apply bind_after_inv in H as [(e & H) | ([] & w1 & E1 & H)].
  { apply CHECK_NODE_Throw_inv in H. tauto. }
  apply CHECK_NODE_Ok_inv in E1 as [-> _].
  apply bind_after_inv in H as [(e & H) | (n & w2 & E2 & H)].
  { exfalso. exact (never_throws_node_at _ _ _ _ H). }
  apply node_at_Ok_inv in E2 as [-> _]. injection H as <-. reflexivity.
Qed.

(** ** The graph after [add_function] *)

Lemma add_function_after f nodes w w' :
  after (add_function f nodes w) = Some w' ->
  w' = w \/
  exists s ns,
    Forall (handle_ok (graph w)) nodes /\
    sinks_extended (to_unsigned (N.of_nat (length (nodes_ (graph w)))))
                   (nodes_ (graph w)) ns /\
    w' = mkWorld
           (mkGraph (this (graph w))
              (ns ++ [mkNodeInfo s f Tensor_new Tensor_new (map id_ nodes) []]))
           (log w).
Proof.
  intros H.
  destruct (add_function_cases f nodes w)
    as [(shs & s & ns & Hall & _ & _ & Hext & E)
       | [(shs & what & _ & _ & _ & E)
         | [(pre & nd & post & _ & _ & _ & E)
           | (pre & nd & post & _ & _ & _ & _ & E)]]];
    rewrite E in H; simpl in H; try discriminate; injection H as <-.
  - right. exists s, ns. auto.
  - left. reflexivity.
  - left. reflexivity.
Qed.

(** A record of the graph after a successful [add_function] is the new
    record, at the old length, or an old record with more consumers. *)
Lemma added_lookup r old ns new p n' :
  sinks_extended r old ns ->
  (ns ++ [new]) !! p = Some n' ->
  (p = length old /\ n' = new) \/
  (exists n, old !! p = Some n /\
     shape n' = shape n /\ func n' = func n /\ value n' = value n /\
     grad n' = grad n /\ args n' = args n /\
     forall s, s ∈ sinks n' -> s ∈ sinks n \/ s = r).
Proof.
  intros [Hlen Hext] Hp.
  destruct (decide (p < length ns)%nat) as [Hlt | Hge].
  - right. rewrite lookup_app_l in Hp by exact Hlt.
    assert (Hlt' : (p < length old)%nat) by lia.
    destruct (lookup_lt_is_Some_2 _ _ Hlt') as [n Hn].
    destruct (Hext _ _ Hn) as (n'' & Hn'' & H).
    assert (n'' = n') as -> by congruence. eauto.
  - left. rewrite lookup_app_r in Hp by lia.
    destruct (p - length ns)%nat as [| k] eqn:Hk; simpl in Hp; [| discriminate].
    injection Hp as <-. split; [lia | reflexivity].
Qed.

Lemma added_lookup_old r old ns new p n :
  sinks_extended r old ns -> old !! p = Some n ->
  exists n', (ns ++ [new]) !! p = Some n' /\
    value n' = value n /\ grad n' = grad n.
Proof.
  intros [Hlen Hext] Hn.
  destruct (Hext _ _ Hn) as (n' & Hn' & _ & _ & Hv & Hg & _).
  exists n'. split; [| auto].
  rewrite lookup_app_l by (eapply lookup_lt_Some; exact Hn'). exact Hn'.
Qed.

Lemma args_below_added g r ns s f v gr nodes :
  args_below g -> sinks_extended r (nodes_ g) ns ->
  Forall (handle_ok g) nodes ->
  args_below (mkGraph (this g)
                (ns ++ [mkNodeInfo s f v gr (map id_ nodes) []])).
Proof.
  intros Hab Hext Hall p n' a Hn' Ha. simpl in Hn'.
  destruct (added_lookup _ _ _ _ _ _ Hext Hn')
    as [[-> ->] | (n & Hn & _ & _ & _ & _ & Hargs & _)].
  - simpl in Ha. apply list_elem_of_fmap in Ha as (nd & -> & Hnd).
    rewrite Forall_forall in Hall. destruct (Hall _ Hnd) as [_ Hid]. lia.
  - rewrite Hargs in Ha. exact (Hab _ _ _ Hn Ha).
Qed.

Lemma sinks_above_added g ns s f v gr ids :
  sinks_above g -> N.of_nat (length (nodes_ g)) < UINT_MOD ->
  sinks_extended (to_unsigned (N.of_nat (length (nodes_ g)))) (nodes_ g) ns ->
  sinks_above (mkGraph (this g) (ns ++ [mkNodeInfo s f v gr ids []])).
Proof.
  intros Hsa Hsmall Hext p n' x Hn' Hx. simpl in Hn'.
  destruct (added_lookup _ _ _ _ _ _ Hext Hn')
    as [[-> ->] | (n & Hn & _ & _ & _ & _ & _ & Hsinks)].
  - simpl in Hx. apply elem_of_nil in Hx. contradiction.
  - destruct (Hsinks _ Hx) as [Hx0 | ->]; [exact (Hsa _ _ _ Hn Hx0) |].
    unfold to_unsigned. rewrite N.mod_small by exact Hsmall.
    apply lookup_lt_Some in Hn. lia.
Qed.

(** ** Structure of reachable graphs *)

Lemma reachable_structure P w :
  reachable P w ->
  args_below (graph w) /\
  (N.of_nat (length (nodes_ (graph w))) <= UINT_MOD -> sinks_above (graph w)).
Proof.
  induction 1 as [a
                 | w f nodes w' _ [IHa IHs] _ H
                 | w fuel node w' _ [IHa IHs] H
                 | w node w' _ [IHa IHs] H
                 | w node w' _ IH H
                 | w node w' _ IH H].
  - split.
    + intros p n x Hn. simpl in Hn. rewrite lookup_nil in Hn. discriminate.
    + intros _ p n x Hn. simpl in Hn. rewrite lookup_nil in Hn. discriminate.
  - apply add_function_after in H as [-> | (s & ns & Hall & Hext & ->)];
      [auto |]. simpl. split.
    + eapply args_below_added; eassumption.
    + intros Hlen. destruct Hext as [Hl Hext].
      rewrite length_app, Hl in Hlen. simpl in Hlen.
      apply sinks_above_added; [apply IHs; lia | lia |].
      split; assumption.
  - apply keeps_structure_Graph_forward in H.
    split; [eapply args_below_structure; eassumption |].
    rewrite (same_structure_length _ _ H). intros Hlen.
    eapply sinks_above_structure; [exact H | auto].
  - apply keeps_structure_Graph_backward in H.
    split; [eapply args_below_structure; eassumption |].
    rewrite (same_structure_length _ _ H). intros Hlen.
    eapply sinks_above_structure; [exact H | auto].
  - apply get_value_after in H as ->. exact IH.
  - apply get_gradient_after in H as ->. exact IH.
Qed.

(** ** Invariants of reachable graphs whose operations honour the
    contract of [forward] *)

Lemma realized_frame b g g' i :
  grads_changed_below b g g' -> realized g i -> realized g' i.
Proof.
  intros (_ & _ & H) (n & Hn & Hv).
  destruct (H _ _ Hn) as (n' & Hn' & Hs & _).
  apply with_grad_eq_fields in Hs as (_ & _ & Hval & _).
  exists n'. split; [exact Hn' | congruence].
Qed.

Lemma funcs_satisfy_frame P b g g' :
  grads_changed_below b g g' -> funcs_satisfy P g -> funcs_satisfy P g'.
Proof.
  intros Hf Hfs p n' Hn'.
  destruct (grads_changed_below_lookup_back _ _ _ _ _ Hf Hn') as (n & Hn & Hs).
  apply with_grad_eq_fields in Hs as (_ & Hfunc & _).
  rewrite Hfunc. exact (Hfs _ _ Hn).
Qed.

Lemma grads_realized_frame b g g' :
  grads_changed_below b g g' -> grads_realized g -> grads_realized g'.
Proof.
  intros Hf Hgr p n' Hn' Hg.
  destruct (grads_changed_below_lookup_back _ _ _ _ _ Hf Hn') as (n & Hn & Hs).
  destruct Hf as (_ & _ & H). destruct (H _ _ Hn) as (n'' & Hn'' & _ & Hc).
  assert (n'' = n') as -> by congruence.
  apply with_grad_eq_fields in Hs as (_ & _ & Hval & _).
  destruct Hc as [-> | [_ Hv]]; [exact (Hgr _ _ Hn Hg) | congruence].
Qed.

Lemma world_inv_new a : world_inv (mkWorld (Graph_new a) []).
Proof.
  assert (Hnil : forall p (n : NodeInfo), @nil NodeInfo !! p = Some n -> False)
    by (intros p n H; rewrite lookup_nil in H; discriminate).
  split; [| split].
  - split; [| split]; intros p n; simpl; intros; exfalso; eauto.
  - intros p n; simpl; intros; exfalso; eauto.
  - split; [constructor |]. simpl. intros j Hj.
    apply elem_of_nil in Hj. contradiction.
Qed.

Lemma world_inv_added {laws : TensorLaws TL} w ns s f nodes :
  world_inv w -> realizes f ->
  Forall (handle_ok (graph w)) nodes ->
  sinks_extended (to_unsigned (N.of_nat (length (nodes_ (graph w)))))
                 (nodes_ (graph w)) ns ->
  world_inv
    (mkWorld
       (mkGraph (this (graph w))
          (ns ++ [mkNodeInfo s f Tensor_new Tensor_new (map id_ nodes) []]))
       (log w)).
Proof.
  intros ((Hab & Hvc & Hfs) & Hgr & Hnd & Hlog) Hf Hall Hext.
  split; [split; [| split] | split].
  - eapply args_below_added; eassumption.
  - intros p n' a na' Hn' Hv Ha Hna'. simpl in *.
    destruct (added_lookup _ _ _ _ _ _ Hext Hn')
      as [[-> ->] | (n & Hn & _ & _ & Hval & _ & Hargs & _)].
    { simpl in Hv. rewrite valid_Tensor_new in Hv. discriminate. }
    rewrite Hval in Hv. rewrite Hargs in Ha.
    destruct (added_lookup _ _ _ _ _ _ Hext Hna')
      as [[Hlen ->] | (na & Hna & _ & _ & Hvala & _)].
    { pose proof (Hab _ _ _ Hn Ha). apply lookup_lt_Some in Hn. lia. }
    rewrite Hvala. exact (Hvc _ _ _ _ Hn Hv Ha Hna).
  - intros p n' Hn'. simpl in Hn'.
    destruct (added_lookup _ _ _ _ _ _ Hext Hn')
      as [[-> ->] | (n & Hn & _ & Hfunc & _)]; [exact Hf |].
    rewrite Hfunc. exact (Hfs _ _ Hn).
  - intros p n' Hn' Hg. simpl in Hn'.
    destruct (added_lookup _ _ _ _ _ _ Hext Hn')
      as [[-> ->] | (n & Hn & _ & _ & Hval & Hgrad & _)].
    { simpl in Hg. rewrite valid_Tensor_new in Hg. discriminate. }
    rewrite Hval. rewrite Hgrad in Hg. exact (Hgr _ _ Hn Hg).
  - split; [exact Hnd |]. simpl. intros j Hj.
    destruct (Hlog j Hj) as (n & Hn & Hv).
    destruct (added_lookup_old _ _ _
                (mkNodeInfo s f Tensor_new Tensor_new (map id_ nodes) [])
                _ _ Hext Hn) as (n' & Hn' & Hval & _).
    exists n'. split; [exact Hn' | congruence].
Qed.

Lemma world_inv_forward fuel id w w' :
  world_inv w -> forward_recursive fuel id w = Ok tt w' -> world_inv w'.
Proof.
  intros (Hinv & Hgr & Hnd & Hlog) E.
  destruct (forward_recursive_effect _ _ _ _ Hinv E)
    as (Hinv' & (Hf & tr & Hl & Hall & Hndtr) & _).
  split; [exact Hinv' |]. split; [eapply grads_realized_filled; eassumption |].
  unfold forwards_once. rewrite Hl, forward_ids_app. split.
  - apply NoDup_app. split; [exact Hnd |]. split; [| exact Hndtr].
    intros j Hj1 Hj2. destruct (Hlog j Hj1) as (n & Hn & Hv).
    destruct (forward_ids_calls _ _ _ _ _ Hall Hj2) as (_ & (m & Hm & Hvm) & _).
    congruence.
  - intros j Hj. apply elem_of_app in Hj as [Hj | Hj].
    + eapply realized_filled; [exact Hf | auto].
    + destruct (forward_ids_calls _ _ _ _ _ Hall Hj) as (_ & _ & Hr). exact Hr.
Qed.

Lemma world_inv_backward {laws : TensorLaws TL} node w w' :
  world_inv w -> after (Graph_backward node w) = Some w' -> world_inv w'.
Proof.
  intros Hw H. pose proof Hw as ((Hab & Hvc & Hfs) & Hgr & Hnd & Hlog).
  apply Graph_backward_after in H as [-> | (tr & Hl & Hids & Hf)];
    [exact Hw | | exact Hab | exact Hvc].
  split; [split; [| split] | split].
  - eapply args_below_frame; eassumption.
  - eapply values_closed_frame; eassumption.
  - eapply funcs_satisfy_frame; eassumption.
  - eapply grads_realized_frame; eassumption.
  - unfold forwards_once.
    rewrite Hl, forward_ids_app, Hids, app_nil_r. split; [exact Hnd |].
    intros j Hj. eapply realized_frame; [exact Hf | auto].
Qed.

Lemma reachable_world_inv {laws : TensorLaws TL} w :
  reachable realizes w -> world_inv w.
Proof.
  induction 1 as [a
                 | w f nodes w' _ IH Hf H
                 | w fuel node w' _ IH H
                 | w node w' _ IH H
                 | w node w' _ IH H
                 | w node w' _ IH H].
  - apply world_inv_new.
  - apply add_function_after in H as [-> | (s & ns & Hall & Hext & ->)];
      [exact IH |].
    apply world_inv_added; assumption.
  - apply Graph_forward_after in H as [[-> _] | [_ E]]; [exact IH |].
    eapply world_inv_forward; eassumption.
  - eapply world_inv_backward; eassumption.
  - apply get_value_after in H as ->. exact IH.
  - apply get_gradient_after in H as ->. exact IH.
Qed.

(** ** Handles *)

(** The handles that pass the check are gathered without effect. *)
Lemma gather_args_prefix pre rest ids shs w :
  Forall (handle_ok (graph w)) pre ->
  exists shs',
    gather_args (pre ++ rest) ids shs w
      = gather_args rest (ids ++ map id_ pre) (shs ++ shs') w.
Proof.
  revert ids shs. induction pre as [| nd pre IH]; intros ids shs Hall.
  - exists []. simpl. rewrite !app_nil_r. reflexivity.
  - apply Forall_cons in Hall as [Hok Hall]. simpl.
    destruct (handle_ok_lookup _ _ Hok) as [n Hn].
    rewrite (bind_Ok _ _ _ _ _ (CHECK_NODE_ok _ _ Hok)).
    rewrite (bind_Ok _ _ _ _ _ (node_at_Ok _ _ _ Hn)).
    destruct (IH (ids ++ [id_ nd]) (shs ++ [shape n]) Hall) as (shs' & ->).
    exists (shape n :: shs'). rewrite <- !app_assoc. reflexivity.
Qed.

Lemma add_function_foreign f pre node post w :
  Forall (handle_ok (graph w)) pre -> g_ node <> this (graph w) ->
  add_function f (pre ++ node :: post) w
    = Throw (GraphMismatched (g_ node) (this (graph w))) w.
Proof.
  intros Hpre Hg. unfold add_function.
  destruct (gather_args_prefix pre (node :: post) [] [] w Hpre) as (shs' & E).
  apply bind_Throw. rewrite E. simpl.
  apply bind_Throw. apply CHECK_NODE_foreign. exact Hg.
Qed.

Lemma add_function_out_of_range f pre node post w :
  Forall (handle_ok (graph w)) pre -> g_ node = this (graph w) ->
  N.of_nat (length (nodes_ (graph w))) <= id_ node ->
  add_function f (pre ++ node :: post) w = Abort.
Proof.
  intros Hpre Hg Hid. unfold add_function.
  destruct (gather_args_prefix pre (node :: post) [] [] w Hpre) as (shs' & E).
  apply bind_Abort. rewrite E. simpl.
  apply bind_Abort. apply CHECK_NODE_out_of_range; assumption.
Qed.

(** C7: in every method that takes a handle, a handle of another graph is
    answered by the exception "Graph mismatched" with the world as it
    was, and a handle of this graph whose position is not below the
    number of nodes by [std::abort()].  For [add_function] the handle
    meant is the first one that fails the check. *)
Theorem foreign_handle_throws_and_bad_position_aborts
    (w : World) (node : Node) (f : Function) (pre post : list Node)
    (fuel : nat) :
  Forall (handle_ok (graph w)) pre ->
  (g_ node <> this (graph w) ->
   let e := GraphMismatched (g_ node) (this (graph w)) in
   add_function f (pre ++ node :: post) w = Throw e w /\
   Graph_forward fuel node w = Throw e w /\
   Graph_backward node w = Throw e w /\
   get_value node w = Throw e w /\
   get_gradient node w = Throw e w) /\
  (g_ node = this (graph w) ->
   N.of_nat (length (nodes_ (graph w))) <= id_ node ->
   add_function f (pre ++ node :: post) w = Abort /\
   Graph_forward fuel node w = Abort /\
   Graph_backward node w = Abort /\
   get_value node w = Abort /\
   get_gradient node w = Abort).
Proof.
  intros Hpre. split.
  - intros Hg e. pose proof (CHECK_NODE_foreign _ _ Hg) as E.
    split; [apply add_function_foreign; assumption |].
    repeat split; apply bind_Throw; exact E.
  - intros Hg Hid. pose proof (CHECK_NODE_out_of_range _ _ Hg Hid) as E.
    split; [apply add_function_out_of_range; assumption |].
    repeat split; apply bind_Abort; exact E.
Qed.

Lemma shape_of_handle_functional g nodes shs shs' :
  Forall2 (shape_of_handle g) nodes shs ->
  Forall2 (shape_of_handle g) nodes shs' -> shs = shs'.
Proof.
  intros H. revert shs'. induction H as [| nd s nodes shs (n & Hn & <-) _ IH];
    intros shs' H'.
  - apply Forall2_nil_inv_l in H'. congruence.
  - apply Forall2_cons_inv_l in H' as (s' & shs'' & (n' & Hn' & <-) & H' & ->).
    f_equal; [congruence | auto].
Qed.

(** C5: a call of [add_function] that throws leaves the world as it
    was; in particular, when all handles pass the check and
    [forward_shape] throws on the shapes of the operands, the call throws
    that exception and no node and no consumer entry has been added. *)
Theorem add_function_all_or_nothing
    (w : World) (f : Function) (nodes : list Node) :
  (forall e w', add_function f nodes w = Throw e w' -> w' = w) /\
  (forall shs what,
     Forall (handle_ok (graph w)) nodes ->
     Forall2 (shape_of_handle (graph w)) nodes shs ->
     forward_shape f shs = inr what ->
     add_function f nodes w = Throw (Raised what) w).
Proof.
  destruct (add_function_cases f nodes w)
    as [(shs0 & s & ns & Hall & Hsh & Hfs & _ & E)
       | [(shs0 & what0 & Hall & Hsh & Hfs & E)
         | [(pre & nd & post & -> & Hpre & Hg & E)
           | (pre & nd & post & -> & Hpre & Hg & Hid & E)]]].
  - split; [intros e w' H; congruence |].
    intros shs what _ Hsh' Hfs'.
    rewrite (shape_of_handle_functional _ _ _ _ Hsh' Hsh) in Hfs'. congruence.
  - split; [intros e w' H; congruence |].
    intros shs what _ Hsh' Hfs'.
    rewrite (shape_of_handle_functional _ _ _ _ Hsh' Hsh) in Hfs'.
    rewrite E. congruence.
  - split; [intros e w' H; congruence |].
    intros shs what Hall. exfalso.
    apply Forall_app in Hall as [_ Hall].
    apply Forall_cons in Hall as [[Hok _] _]. contradiction.
  - split; [intros e w' H; congruence |].
    intros shs what Hall. exfalso.
    apply Forall_app in Hall as [_ Hall].
    apply Forall_cons in Hall as [[_ Hok] _]. lia.
Qed.

(** C10: a call of [backward] that throws has changed nothing.  It
    throws exactly when the handle is of another graph, or the target
    holds no value, or the target holds a gradient already; the world it
    leaves is then the world it found, no value, no gradient and no entry
    of the log being different. *)
Theorem backward_failure_is_atomic
    (w : World) (node : Node) (e : Error) (w' : World) :
  Graph_backward node w = Throw e w' <->
  w' = w /\
  ((g_ node <> this (graph w) /\
    e = GraphMismatched (g_ node) (this (graph w))) \/
   (exists n, handle_ok (graph w) node /\
      nodes_ (graph w) !! N.to_nat (id_ node) = Some n /\
      ((valid (value n) = false /\ e = NotCalculated (id_ node)) \/
       (valid (value n) = true /\ valid (grad n) = true /\
        e = AlreadyHasGradient (id_ node))))).
Proof.
  split; [apply Graph_backward_Throw_inv |].
  intros [-> [[Hg ->] | (n & Hok & Hn & [[Hv ->] | (Hv & Hgr & ->)])]].
  - apply bind_Throw. apply CHECK_NODE_foreign. exact Hg.
  - eapply Graph_backward_not_calculated; eassumption.
  - eapply Graph_backward_already; eassumption.
Qed.

(** ** Differentiation *)

(** C4: on a reachable graph, [backward] on a target without a value
    throws "not calculated", on a target that holds a gradient it throws
    "already has the gradient", and on a target with a value and without
    a gradient it returns; a second call on the same target then throws
    "already has the gradient". *)
Theorem backward_checks_its_preconditions {laws : TensorLaws TL}
    (w : World) (node : Node) (n : NodeInfo) :
  reachable realizes w ->
  handle_ok (graph w) node ->
  nodes_ (graph w) !! N.to_nat (id_ node) = Some n ->
  (valid (value n) = false ->
   Graph_backward node w = Throw (NotCalculated (id_ node)) w) /\
  (valid (grad n) = true ->
   Graph_backward node w = Throw (AlreadyHasGradient (id_ node)) w) /\
  (valid (value n) = true -> valid (grad n) = false ->
   exists w',
     Graph_backward node w = Ok tt w' /\
     Graph_backward node w' = Throw (AlreadyHasGradient (id_ node)) w').
Proof.
  intros Hreach Hok Hn.
  destruct (reachable_world_inv w Hreach) as ((Hab & Hvc & _) & Hgr & _).
  split; [| split].
  - intros Hv. eapply Graph_backward_not_calculated; eassumption.
  - intros Hg. eapply Graph_backward_already; try eassumption.
    exact (Hgr _ _ Hn Hg).
  - intros Hv Hg.
    destruct (Graph_backward_Ok node w n Hab Hvc Hok Hn Hv Hg)
      as (w' & tr & E & _ & _ & (Ht & Hl & _) & Hn').
    exists w'. split; [exact E |].
    eapply Graph_backward_already; [| exact Hn' | exact Hv |].
    + destruct Hok as [Hg0 Hid]. split; [congruence |]. rewrite Hl. exact Hid.
    + simpl. apply valid_constant. exact Hv.
Qed.

(** *** What [backward] is handed *)

Lemma modify_node_Ok_inv a f w w' :
  modify_node a f w = Ok tt w' ->
  exists n, nodes_ (graph w) !! N.to_nat a = Some n /\
    w' = mkWorld (mkGraph (this (graph w))
                          (<[N.to_nat a := f n]> (nodes_ (graph w))))
                 (log w).
Proof.
  unfold modify_node. destruct (_ !! _) as [n |]; [| discriminate].
  intros [= <-]. eauto.
Qed.

Lemma deref_grads_Ok_inv ptrs w gs w' :
  deref_grads ptrs w = Ok gs w' -> w' = w.
Proof.
  revert gs w'. induction ptrs as [| p ptrs IH]; intros gs w' E; simpl in E.
  - injection E as <- <-. reflexivity.
  - apply bind_Ok_inv in E as (n & w1 & E1 & E).
    apply node_at_Ok_inv in E1 as [-> _].
    apply bind_Ok_inv in E as (ys & w2 & E2 & E).
    apply IH in E2 as ->. injection E as _ <-. reflexivity.
Qed.










(** ** Construction order *)

Lemma args_below_dependency_order g :
  args_below g -> dependency_order g (seq 0 (length (nodes_ g))).
Proof.
  intros Hab i p n a Hi Hn Ha.
  apply lookup_seq in Hi as [-> Hlt]. simpl in *.
  pose proof (Hab _ _ _ Hn Ha) as Hbelow.
  exists (N.to_nat a). split; [exact Hbelow |].
  apply lookup_seq. split; [reflexivity | lia].
Qed.

(** C2: in every reachable graph every operand position of a node is
    below the position of the node, so that the positions in increasing
    order list every operand before its consumers; and [add_function]
    stores the new node at the position equal to the number of nodes
    before the call, which is the position of the handle it returns
    (narrowed to [unsigned]). *)
Theorem positions_are_a_dependency_order
    (P : Function -> Prop) (w : World) :
  reachable P w ->
  args_below (graph w) /\
  dependency_order (graph w) (seq 0 (length (nodes_ (graph w)))) /\
  (forall f nodes nd w',
     add_function f nodes w = Ok nd w' ->
     length (nodes_ (graph w')) = S (length (nodes_ (graph w))) /\
     (exists n, nodes_ (graph w') !! length (nodes_ (graph w)) = Some n /\
        func n = f /\ args n = map id_ nodes) /\
     g_ nd = this (graph w) /\
     id_ nd = to_unsigned (N.of_nat (length (nodes_ (graph w)))) /\
     (N.of_nat (length (nodes_ (graph w))) < UINT_MOD ->
      N.to_nat (id_ nd) = length (nodes_ (graph w)))).
Proof.
  intros Hreach. destruct (reachable_structure P w Hreach) as [Hab _].
  split; [exact Hab |]. split; [apply args_below_dependency_order; exact Hab |].
  intros f nodes nd w' E.
  destruct (add_function_cases f nodes w)
    as [(shs & s & ns & _ & _ & _ & [Hlen _] & E')
       | [(shs & what & _ & _ & _ & E')
         | [(pre & x & post & _ & _ & _ & E')
           | (pre & x & post & _ & _ & _ & _ & E')]]];
    rewrite E' in E; try discriminate.
  injection E as <- <-. simpl.
  split; [rewrite length_app, Hlen; simpl; lia |].
  split.
  - eexists. split.
    { rewrite lookup_app_r by lia. rewrite Hlen, Nat.sub_diag. reflexivity. }
    split; reflexivity.
  - split; [reflexivity |]. split; [reflexivity |].
    intros Hsmall. unfold to_unsigned. rewrite N.mod_small by exact Hsmall. lia.
Qed.

(** C9: in every reachable graph whose positions fit an [unsigned],
    every consumer position of a node is above the position of the node;
    [add_function] adds to consumer lists nothing but the position of the
    new node, and [forward] and [backward] change no consumer list (they
    change values and gradients only). *)
Theorem sinks_point_to_later_nodes
    (P : Function -> Prop) (w : World) :
  reachable P w ->
  N.of_nat (length (nodes_ (graph w))) <= UINT_MOD ->
  sinks_above (graph w) /\
  (forall f nodes nd w',
     add_function f nodes w = Ok nd w' ->
     forall p n', nodes_ (graph w') !! p = Some n' ->
       (p = length (nodes_ (graph w)) /\ sinks n' = []) \/
       (exists n, nodes_ (graph w) !! p = Some n /\
          forall s, s ∈ sinks n' -> s ∈ sinks n \/ s = id_ nd)) /\
  (forall fuel node w',
     after (Graph_forward fuel node w) = Some w' -> same_structure w w') /\
  (forall node w',
     after (Graph_backward node w) = Some w' -> same_structure w w').
Proof.
  intros Hreach Hlen. destruct (reachable_structure P w Hreach) as [_ Hsa].
  split; [exact (Hsa Hlen) |]. split; [| split].
  - intros f nodes nd w' E.
    destruct (add_function_cases f nodes w)
      as [(shs & s & ns & _ & _ & _ & Hext & E')
         | [(shs & what & _ & _ & _ & E')
           | [(pre & x & post & _ & _ & _ & E')
             | (pre & x & post & _ & _ & _ & _ & E')]]];
      rewrite E' in E; try discriminate.
    injection E as <- <-. simpl. intros p n' Hn'.
    destruct (added_lookup _ _ _ _ _ _ Hext Hn')
      as [[-> ->] | (n & Hn & _ & _ & _ & _ & _ & Hsinks)]; [left | right]; eauto.
  - intros fuel node w'. apply keeps_structure_Graph_forward.
  - intros node w'. apply keeps_structure_Graph_backward.
Qed.

(** ** Memoization *)

(** C6: in every reachable graph whose operations honour the contract
    of [forward], no node has had its [forward] called twice since the
    graph was created.  A forward evaluation that returns has left every
    node that held a value as it was, and has called [forward] only for
    nodes that held none, once each; a second evaluation of the same
    target returns the same tensor, leaves the world as it is and calls
    nothing.  With fuel above the position of the target the evaluation
    returns. *)
Theorem forward_is_memoized {laws : TensorLaws TL} (w : World) :
  reachable realizes w ->
  NoDup (forward_ids (log w)) /\
  (forall fuel node v w',
     Graph_forward fuel node w = Ok v w' ->
     forward_effect (S (N.to_nat (id_ node))) w w' /\
     NoDup (forward_ids (log w')) /\
     forall fuel', Graph_forward (S fuel') node w' = Ok v w') /\
  (forall fuel node,
     handle_ok (graph w) node -> (N.to_nat (id_ node) < fuel)%nat ->
     exists v w', Graph_forward fuel node w = Ok v w').
Proof.
  intros Hreach. pose proof (reachable_world_inv w Hreach) as Hw.
  pose proof Hw as (Hinv & _ & Hnd & _).
  split; [exact Hnd |]. split.
  - intros fuel node v w' E.
    apply Graph_forward_Ok_inv in E as (Hok & E & n' & Hn' & <-).
    destruct (forward_recursive_effect _ _ _ _ Hinv E) as (_ & Heff & (m & Hm & Hv)).
    assert (m = n') as -> by congruence.
    split; [exact Heff |].
    split; [exact (proj1 (proj2 (proj2 (world_inv_forward _ _ _ _ Hw E)))) |].
    intros fuel'. apply Graph_forward_realized; [| exact Hn' | exact Hv].
    destruct Heff as ((Ht & Hl & _) & _). destruct Hok as [Hg Hid].
    split; [congruence |]. rewrite Hl. exact Hid.
  - intros fuel node Hok Hfuel.
    destruct (forward_recursive_Ok fuel (id_ node) w Hinv) as (w' & E);
      [destruct Hok as [_ Hid]; lia | exact Hfuel |].
    destruct (forward_recursive_effect _ _ _ _ Hinv E) as (_ & _ & (m & Hm & _)).
    exists (value m), w'. unfold Graph_forward.
    rewrite (bind_Ok _ _ _ _ _ (CHECK_NODE_ok _ _ Hok)).
    rewrite (bind_Ok _ _ _ _ _ E).
    rewrite (bind_Ok _ _ _ _ _ (node_at_Ok _ _ _ Hm)). reflexivity.
Qed.

(** ** How often [backward] is called *)

Lemma backward_ids_app tr1 tr2 :
  backward_ids (tr1 ++ tr2) = backward_ids tr1 ++ backward_ids tr2.
Proof.
  induction tr1 as [| [| |] tr1 IH]; simpl; rewrite ?IH; reflexivity.
Qed.

Lemma operand_events_backward_ids g id done rest tr :
  operand_events g id done rest tr ->
  backward_ids tr = replicate (length rest) id.
Proof.
  induction 1 as [| done a rest ga e tr _ (y & gy & xs & gs & -> & _) _ IH
                  | done a rest zero z e tr (n & old & _ & -> & _)
                      (y & gy & xs & gs & -> & _) _ IH]; simpl; congruence.
Qed.

Lemma loop_events_backward_ids g k tr :
  loop_events g k tr ->
  backward_ids tr = flat_map (backward_calls_at g) (rev (seq 0 k)).
Proof.
  induction 1 as [| id tr1 tr2 (n & Hn & H1) _ IH]; [reflexivity |].
  rewrite seq_S, rev_unit. simpl. rewrite backward_ids_app, IH. f_equal.
  unfold backward_calls_at. rewrite Nat2N.id in Hn. rewrite Hn.
  destruct (valid (value n)); [| subst tr1; reflexivity].
  eapply operand_events_backward_ids; exact H1.
Qed.

(** A differentiation calls [backward] once for every operand of every
    node at or below the target that holds a value, the nodes in
    decreasing order of position. *)
Lemma backward_is_called_for_every_operand {laws : TensorLaws TL}
    (w : World) (node : Node) (n : NodeInfo) :
  args_below (graph w) -> values_closed (graph w) ->
  handle_ok (graph w) node ->
  id_ node < 2 ^ 31 ->
  nodes_ (graph w) !! N.to_nat (id_ node) = Some n ->
  valid (value n) = true -> valid (grad n) = false ->
  exists w',
    Graph_backward node w = Ok tt w' /\
    backward_ids (log w')
      = backward_ids (log w)
        ++ flat_map (backward_calls_at (graph w))
                    (rev (seq 0 (S (N.to_nat (id_ node))))).
Proof.
  intros Hab Hvc Hok Hsmall Hn Hv Hg.
  destruct (Graph_backward_Ok node w n Hab Hvc Hok Hn Hv Hg)
    as (w' & tr & E & Hl & Hloop & _).
  rewrite (backward_iterations_small _ Hsmall) in Hloop.
  exists w'. split; [exact E |].
  rewrite Hl, backward_ids_app. simpl.
  rewrite (loop_events_backward_ids _ _ _ Hloop). reflexivity.
Qed.

(** ** More on Shape *)

Lemma Shape_eqb_true (a b : Shape) :
  Shape_eqb a b = true <-> dims_ a = dims_ b /\ k_ a = k_ b.
Proof.
  unfold Shape_eqb, has_same_dims.
  rewrite andb_true_iff, bool_decide_eq_true, N.eqb_eq. reflexivity.
Qed.

(** [operator==] is an equivalence on shapes, [operator!=] is its
    complement, and two shapes that compare equal answer every query on
    extents alike: the same depth, the same extent at every axis, the
    same batch size; they have the same dimensions and compatible
    batches. *)
Theorem Shape_eqb_is_an_equivalence :
  (forall s : Shape, Shape_eqb s s = true) /\
  (forall a b : Shape, Shape_eqb a b = Shape_eqb b a) /\
  (forall a b c : Shape,
     Shape_eqb a b = true -> Shape_eqb b c = true -> Shape_eqb a c = true) /\
  (forall a b : Shape, Shape_neqb a b = true <-> Shape_eqb a b = false) /\
  (forall a b : Shape,
     Shape_eqb a b = true ->
     depth a = depth b /\ batch_size a = batch_size b /\
     (forall i, subscript a i = subscript b i) /\
     has_same_dims a b = true /\ has_compatible_batch a b = true).
Proof.
  split; [| split; [| split; [| split]]].
  - intros s. apply Shape_eqb_true. auto.
  - intros a b. destruct (Shape_eqb b a) eqn:E.
    + apply Shape_eqb_true in E as [E1 E2]. apply Shape_eqb_true. auto.
    + destruct (Shape_eqb a b) eqn:E'; [| reflexivity].
      apply Shape_eqb_true in E' as [E1 E2].
      assert (H : Shape_eqb b a = true) by (apply Shape_eqb_true; auto).
      congruence.
  - intros a b c Hab Hbc.
    apply Shape_eqb_true in Hab as [H1 H2]. apply Shape_eqb_true in Hbc as [H3 H4].
    apply Shape_eqb_true. split; congruence.
  - intros a b. unfold Shape_neqb. apply negb_true_iff.
  - intros a b H. apply Shape_eqb_true in H as [Hd Hk].
    unfold depth, batch_size, subscript, depth, has_same_dims,
      has_compatible_batch.
    rewrite Hd, Hk. split; [reflexivity |]. split; [reflexivity |].
    split; [reflexivity |]. split; [apply bool_decide_eq_true; reflexivity |].
    rewrite N.eqb_refl. reflexivity.
Qed.

(** Batch compatibility is reflexive and symmetric, and a shape of batch
    size 1 is compatible with every shape; it is not transitive: batch
    sizes 2 and 3 are both compatible with 1 and not with each other. *)
Theorem has_compatible_batch_is_not_transitive :
  (forall s : Shape, has_compatible_batch s s = true) /\
  (forall a b : Shape, has_compatible_batch a b = has_compatible_batch b a) /\
  (forall s t : Shape, batch_size s = 1 ->
     has_compatible_batch s t = true /\ has_compatible_batch t s = true) /\
  ~ (forall a b c : Shape,
       has_compatible_batch a b = true -> has_compatible_batch b c = true ->
       has_compatible_batch a c = true).
Proof.
  unfold has_compatible_batch, batch_size.
  split; [| split; [| split]].
  - intros s. rewrite N.eqb_refl. reflexivity.
  - intros a b. rewrite (N.eqb_sym (k_ a) (k_ b)).
    destruct (k_ b =? k_ a), (k_ a =? 1), (k_ b =? 1); reflexivity.
  - intros s t Hs. rewrite Hs, (N.eqb_refl 1). split.
    + rewrite orb_true_r. reflexivity.
    + apply orb_true_r.
  - intros H.
    specialize (H (mkShape [] 2 1) (mkShape [] 1 1) (mkShape [] 3 1)
                  eq_refl eq_refl).
    discriminate H.
Qed.

(** Within the stored depth, [operator[]] returns the extent stored at
    that axis, and the access is inside [dims_]. *)
Theorem subscript_reads_inside_dims (s : Shape) (i : N) :
  i < depth s -> dims_ s !! N.to_nat i = Some (subscript s i).
Proof.
  intros Hi. pose proof (depth_le_length s) as Hd.
  assert (Hlt : (N.to_nat i < length (dims_ s))%nat) by lia.
  unfold subscript. destruct (N.ltb_spec i (depth s)) as [_ | Hge]; [| lia].
  destruct (lookup_lt_is_Some_2 _ _ Hlt) as [x Hx]. rewrite Hx. f_equal.
  symmetry. apply nth_lookup_Some with (d := 0) in Hx. exact Hx.
Qed.

(** ** What a call leaves alone, through a view of the records *)

Section Views.

Context {X : Type} (view : NodeInfo -> X).

Lemma same_view_refl w : same_view view w w.
Proof. split; reflexivity. Qed.

Lemma same_view_trans w1 w2 w3 :
  same_view view w1 w2 -> same_view view w2 w3 -> same_view view w1 w3.
Proof. intros [H1 H2] [H3 H4]. split; congruence. Qed.

Lemma same_view_lookup w w' i n' :
  same_view view w w' -> nodes_ (graph w') !! i = Some n' ->
  exists n, nodes_ (graph w) !! i = Some n /\ view n' = view n.
Proof.
  intros [_ H] Hn'.
  assert (Hs : (view <$> nodes_ (graph w')) !! i = Some (view n'))
    by (rewrite list_lookup_fmap, Hn'; reflexivity).
  rewrite H, list_lookup_fmap in Hs.
  destruct (nodes_ (graph w) !! i) as [n |]; [| discriminate].
  exists n. split; [reflexivity |]. simpl in Hs. congruence.
Qed.

Lemma keeps_view_ret {A} (a : A) : keeps_view view (ret a).
Proof. intros w w' [= <-]. apply same_view_refl. Qed.

Lemma keeps_view_throw {A} e : keeps_view view (@throw _ A e).
Proof. intros w w' [= <-]. apply same_view_refl. Qed.

Lemma keeps_view_bind {A B} (m : M A) (k : A -> M B) :
  keeps_view view m -> (forall a, keeps_view view (k a)) ->
  keeps_view view (bind m k).
Proof.
  intros Hm Hk w w' H.
  apply bind_after_inv in H as [(e & H) | (a & w1 & E1 & H)].
  - apply Hm. rewrite H. reflexivity.
  - eapply same_view_trans; [apply Hm; rewrite E1; reflexivity |].
    eapply Hk. exact H.
Qed.

Lemma keeps_view_emit e : keeps_view view (emit e).
Proof. intros w w' [= <-]. split; reflexivity. Qed.

Lemma keeps_view_node_at i : keeps_view view (node_at i).
Proof.
  intros w w'. unfold node_at. destruct (_ !! _); simpl; [| discriminate].
  intros [= <-]. apply same_view_refl.
Qed.

Lemma keeps_view_modify_node i f :
  (forall n, view (f n) = view n) -> keeps_view view (modify_node i f).
Proof.
  intros Hf w w'. unfold modify_node.
  destruct (_ !! _) as [n |] eqn:Hn; simpl; [| discriminate].
  intros [= <-]. split; [reflexivity |]. simpl.
  rewrite list_fmap_insert, Hf. apply list_insert_id.
  rewrite list_lookup_fmap, Hn. reflexivity.
Qed.

Lemma keeps_view_for_each {A} (l : list A) body :
  (forall x, keeps_view view (body x)) -> keeps_view view (for_each l body).
Proof.
  intros Hb. induction l as [| x l IH]; simpl.
  - apply keeps_view_ret.
  - apply keeps_view_bind; auto.
Qed.

Lemma keeps_view_deref_values ptrs : keeps_view view (deref_values ptrs).
Proof.
  induction ptrs as [| p ptrs IH]; simpl.
  - apply keeps_view_ret.
  - apply keeps_view_bind; [apply keeps_view_node_at |]. intros n.
    apply keeps_view_bind; [exact IH |]. intros xs. apply keeps_view_ret.
Qed.

Lemma keeps_view_deref_grads ptrs : keeps_view view (deref_grads ptrs).
Proof.
  induction ptrs as [| p ptrs IH]; simpl.
  - apply keeps_view_ret.
  - apply keeps_view_bind; [apply keeps_view_node_at |]. intros n.
    apply keeps_view_bind; [exact IH |]. intros xs. apply keeps_view_ret.
Qed.

Lemma keeps_view_CHECK_NODE node : keeps_view view (CHECK_NODE node).
Proof.
  intros w w'. unfold CHECK_NODE. case_bool_decide; simpl.
  - intros [= <-]. apply same_view_refl.
  - destruct (_ <=? _); simpl; [discriminate |].
    intros [= <-]. apply same_view_refl.
Qed.

(** [forward] writes values only. *)
Lemma keeps_view_Graph_forward fuel node :
  (forall t n, view (with_value t n) = view n) ->
  keeps_view view (Graph_forward fuel node).
Proof.
  intros Hv. unfold Graph_forward.
  apply keeps_view_bind; [apply keeps_view_CHECK_NODE |]. intros _.
  apply keeps_view_bind;
    [| intros _; apply keeps_view_bind;
       [apply keeps_view_node_at | intros n; apply keeps_view_ret]].
  generalize (id_ node). clear node.
  induction fuel as [| fuel IH]; intros id; simpl.
  - intros w w'. discriminate.
  - apply keeps_view_bind; [apply keeps_view_node_at |]. intros n.
    destruct (valid (value n)); [apply keeps_view_ret |].
    apply keeps_view_bind.
    { apply keeps_view_for_each. intros a.
      apply keeps_view_bind; [apply IH |]. intros _.
      apply keeps_view_bind; [apply keeps_view_node_at |]. intros _.
      apply keeps_view_ret. }
    intros _.
    apply keeps_view_bind; [apply keeps_view_deref_values |]. intros xs.
    apply keeps_view_bind; [apply keeps_view_emit |]. intros _.
    apply keeps_view_modify_node. intros m. apply Hv.
Qed.

(** [backward] writes gradients only. *)
Lemma keeps_view_Graph_backward node :
  (forall t n, view (with_grad t n) = view n) ->
  keeps_view view (Graph_backward node).
Proof.
  intros Hg.
  assert (Hupd : forall gxs upds, keeps_view view (apply_updates gxs upds)).
  { induction gxs as [| p gxs IH]; intros [| u upds]; simpl;
      try apply keeps_view_ret.
    apply keeps_view_bind; [| auto].
    apply keeps_view_modify_node. intros m. apply Hg. }
  assert (Hcall : forall id vs gs, keeps_view view (call_backward id vs gs)).
  { intros id vs gs. unfold call_backward.
    apply keeps_view_bind; [apply keeps_view_node_at |]. intros n.
    apply keeps_view_bind; [apply keeps_view_deref_values |]. intros xs.
    apply keeps_view_bind; [apply keeps_view_deref_grads |]. intros gl.
    apply keeps_view_bind; [apply keeps_view_emit |]. intros _. apply Hupd. }
  assert (Hens : forall a, keeps_view view (ensure_grad a)).
  { intros a. unfold ensure_grad.
    apply keeps_view_bind; [apply keeps_view_node_at |]. intros n.
    destruct (valid (grad n)); [apply keeps_view_ret |].
    apply keeps_view_bind; [apply keeps_view_emit |]. intros _.
    apply keeps_view_modify_node. intros m. apply Hg. }
  assert (Hargs : forall id rest vs gs,
            keeps_view view (backward_args id rest vs gs)).
  { intros id rest. induction rest as [| a rest IH]; intros vs gs; simpl.
    - apply keeps_view_ret.
    - apply keeps_view_bind; [apply Hens |]. intros _.
      apply keeps_view_bind; [apply Hcall |]. intros _. apply IH. }
  assert (Hloop : forall k, keeps_view view (backward_loop k)).
  { induction k as [| k IH]; simpl.
    - apply keeps_view_ret.
    - apply keeps_view_bind; [| auto]. unfold backward_visit.
      apply keeps_view_bind; [apply keeps_view_node_at |]. intros n.
      destruct (valid (value n)); [apply Hargs | apply keeps_view_ret]. }
  unfold Graph_backward.
  apply keeps_view_bind; [apply keeps_view_CHECK_NODE |]. intros _.
  apply keeps_view_bind; [apply keeps_view_node_at |]. intros n.
  destruct (negb (valid (value n))); [apply keeps_view_throw |].
  destruct (valid (grad n)); [apply keeps_view_throw |].
  apply keeps_view_bind; [apply keeps_view_emit |]. intros _.
  apply keeps_view_bind; [| intros _; apply Hloop].
  apply keeps_view_modify_node. intros m. apply Hg.
Qed.

End Views.

(** Whether it returns or throws, from whatever graph it starts,
    [forward] changes nothing but values and [backward] nothing but
    gradients: shapes, operations, operands and consumers stay, [forward]
    leaves every gradient and [backward] every value as it was. *)
Theorem forward_writes_values_and_backward_gradients_only
    (w w' : World) (node : Node) (fuel : nat) :
  (after (Graph_forward fuel node w) = Some w' ->
   with_value Tensor_new <$> nodes_ (graph w')
     = with_value Tensor_new <$> nodes_ (graph w)) /\
  (after (Graph_backward node w) = Some w' ->
   with_grad Tensor_new <$> nodes_ (graph w')
     = with_grad Tensor_new <$> nodes_ (graph w)).
Proof.
  split; intros H.
  - apply (keeps_view_Graph_forward (with_value Tensor_new)) in H;
      [exact (proj2 H) | reflexivity].
  - apply (keeps_view_Graph_backward (with_grad Tensor_new)) in H;
      [exact (proj2 H) | reflexivity].
Qed.

(** ** The graph only grows *)






(** ** The node [add_function] adds *)

(** A successful [add_function] returns a handle that passes the check
    on the new graph and has made no call to a device or to [forward] or
    [backward]; the values and gradients of the nodes that were there are
    as they were.  Where the position fits an [unsigned], the node behind
    the new handle has the shape [forward_shape] inferred from the shapes
    of the operands, in their order, and holds neither value nor
    gradient: the accessors return default-constructed tensors and
    [backward] on it throws "not calculated". *)
Theorem add_function_returns_a_fresh_handle {laws : TensorLaws TL}
    (w : World) (f : Function) (nodes : list Node) (nd : Node) (w' : World) :
  add_function f nodes w = Ok nd w' ->
  handle_ok (graph w') nd /\
  log w' = log w /\
  (forall p n, nodes_ (graph w) !! p = Some n ->
     exists n', nodes_ (graph w') !! p = Some n' /\
       value n' = value n /\ grad n' = grad n) /\
  (N.of_nat (length (nodes_ (graph w))) < UINT_MOD ->
   (exists shs n',
      Forall2 (shape_of_handle (graph w)) nodes shs /\
      nodes_ (graph w') !! N.to_nat (id_ nd) = Some n' /\
      forward_shape f shs = inl (shape n')) /\
   get_value nd w' = Ok Tensor_new w' /\
   get_gradient nd w' = Ok Tensor_new w' /\
   Graph_backward nd w' = Throw (NotCalculated (id_ nd)) w').
Proof.
  intros E.
  destruct (add_function_cases f nodes w)
    as [(shs & s & ns & Hall & Hsh & Hfs & Hext & E')
       | [(shs & what & _ & _ & _ & E')
         | [(pre & x & post & _ & _ & _ & E')
           | (pre & x & post & _ & _ & _ & _ & E')]]];
    rewrite E' in E; try discriminate.
  injection E as <- <-.
  pose proof (proj1 Hext) as Hlen.
  set (len := length (nodes_ (graph w))) in *.
  set (new := mkNodeInfo s f Tensor_new Tensor_new (map id_ nodes) []).
  set (w1 := mkWorld (mkGraph (this (graph w)) (ns ++ [new])) (log w)).
  set (nd := mkNode (this (graph w)) (to_unsigned (N.of_nat len))).
  assert (Hle : to_unsigned (N.of_nat len) <= N.of_nat len)
    by (unfold to_unsigned; apply N.Div0.mod_le).
  assert (Hok : handle_ok (graph w1) nd).
  { split; [reflexivity |]. simpl. rewrite length_app, Hlen. simpl. lia. }
  split; [exact Hok |]. split; [reflexivity |]. split.
  { intros p n Hn.
    destruct (added_lookup_old _ _ _ new _ _ Hext Hn) as (n' & Hn' & H).
    exists n'. auto. }
  intros Hsmall.
  assert (Hid : N.to_nat (id_ nd) = len).
  { simpl. unfold to_unsigned. rewrite N.mod_small by exact Hsmall. lia. }
  assert (Hnew : nodes_ (graph w1) !! N.to_nat (id_ nd) = Some new).
  { rewrite Hid. simpl. rewrite lookup_app_r by lia.
    rewrite Hlen, Nat.sub_diag. reflexivity. }
  split; [exists shs, new; auto |].
  split; [| split].
  - unfold get_value.
    rewrite (bind_Ok _ _ _ _ _ (CHECK_NODE_ok w1 nd Hok)).
    rewrite (bind_Ok _ _ _ _ _ (node_at_Ok w1 _ _ Hnew)). reflexivity.
  - unfold get_gradient.
    rewrite (bind_Ok _ _ _ _ _ (CHECK_NODE_ok w1 nd Hok)).
    rewrite (bind_Ok _ _ _ _ _ (node_at_Ok w1 _ _ Hnew)). reflexivity.
  - apply (Graph_backward_not_calculated nd w1 new Hok Hnew).
    simpl. apply valid_Tensor_new.
Qed.

(** ** Dependencies *)

Lemma depends_on_trans g p q r :
  depends_on g p q -> depends_on g q r -> depends_on g p r.
Proof.
  induction 1 as [p | p n a q Hn Ha _ IH]; [auto |].
  intros Hr. eapply dep_step; [exact Hn | exact Ha | auto].
Qed.

Lemma depends_on_structure w w' p q :
  same_structure w w' ->
  depends_on (graph w') p q -> depends_on (graph w) p q.
Proof.
  intros Hs. induction 1 as [p | p n' a q Hn' Ha _ IH]; [constructor |].
  destruct (same_structure_lookup _ _ _ _ Hs Hn') as (n & Hn & Hsk).
  apply skeleton_fields in Hsk as (_ & _ & Hargs & _).
  rewrite Hargs in Ha. eapply dep_step; eassumption.
Qed.

Lemma depends_on_below g p q :
  args_below g -> depends_on g p q -> q <= p.
Proof.
  intros Hab. induction 1 as [p | p n a q Hn Ha _ IH]; [lia |].
  pose proof (Hab _ _ _ Hn Ha). lia.
Qed.

(** A dependency other than the node itself is an operand of a
    dependency. *)
Lemma depends_on_last g p q :
  depends_on g p q ->
  q = p \/ exists r n, depends_on g p r /\
             nodes_ g !! N.to_nat r = Some n /\ q ∈ args n.
Proof.
  induction 1 as [p | p n a q Hn Ha Hd IH]; [left; reflexivity |].
  right. destruct IH as [-> | (r & m & Hr & Hm & Hq)].
  - exists p, n. split; [constructor | auto].
  - exists r, m. split; [| auto]. eapply dep_step; eassumption.
Qed.

Lemma realized_dependencies g p q :
  args_below g -> values_closed g ->
  realized g p -> depends_on g p q -> realized g q.
Proof.
  intros Hab Hvc Hp Hd. induction Hd as [p | p n a q Hn Ha _ IH]; [exact Hp |].
  apply IH. destruct Hp as (m & Hm & Hv).
  assert (m = n) as -> by congruence.
  pose proof (Hab _ _ _ Hn Ha) as Hlt.
  assert (Hr : (N.to_nat a < length (nodes_ g))%nat)
    by (apply lookup_lt_Some in Hn; lia).
  destruct (lookup_lt_is_Some_2 _ _ Hr) as [na Hna].
  exists na. split; [exact Hna |]. exact (Hvc _ _ _ _ Hn Hv Ha Hna).
Qed.

(** ** What a forward evaluation touches *)

Lemma forward_scope_refl g id v : forward_scope g id v v.
Proof.
  split; [reflexivity |]. exists []. rewrite app_nil_r.
  split; [reflexivity | constructor].
Qed.

Lemma forward_scope_trans g id v1 v2 v3 :
  forward_scope g id v1 v2 -> forward_scope g id v2 v3 ->
  forward_scope g id v1 v3.
Proof.
  intros (H1 & tr1 & L1 & F1) (H2 & tr2 & L2 & F2). split.
  - intros i Hi. rewrite (H2 i Hi). apply H1. exact Hi.
  - exists (tr1 ++ tr2). split; [rewrite L2, L1, app_assoc; reflexivity |].
    apply Forall_app. auto.
Qed.

Lemma forward_scope_operand g id n a v v' :
  nodes_ g !! N.to_nat id = Some n -> a ∈ args n ->
  forward_scope g a v v' -> forward_scope g id v v'.
Proof.
  intros Hn Ha (H & tr & L & F).
  assert (Hd : forall q, depends_on g a q -> depends_on g id q)
    by (intros q Hq; eapply dep_step; eassumption).
  split.
  - intros i Hi. apply H. intros Hq. apply Hi. auto.
  - exists tr. split; [exact L |]. eapply Forall_impl; [exact F |].
    intros e (j & xs & -> & Hj). exists j, xs. auto.
Qed.

Lemma forward_scope_structure w v id v1 v2 :
  same_structure w v ->
  forward_scope (graph v) id v1 v2 -> forward_scope (graph w) id v1 v2.
Proof.
  intros Hs (H & tr & L & F).
  assert (Hd : forall q, depends_on (graph v) id q -> depends_on (graph w) id q)
    by (intros q; apply depends_on_structure; exact Hs).
  assert (Hd' : forall q, depends_on (graph w) id q -> depends_on (graph v) id q).
  { intros q. apply depends_on_structure.
    destruct Hs as [Ht Hsk]. split; congruence. }
  split.
  - intros i Hi. apply H. intros Hq. apply Hi. auto.
  - exists tr. split; [exact L |]. eapply Forall_impl; [exact F |].
    intros e (j & xs & -> & Hj). exists j, xs. auto.
Qed.

Lemma forward_recursive_scope fuel id w w' :
  forward_recursive fuel id w = Ok tt w' -> forward_scope (graph w) id w w'.
Proof.
  revert id w w'. induction fuel as [| fuel IH]; intros id w w' E;
    simpl in E; [discriminate |].
  apply bind_Ok_inv in E as (n & w0 & E0 & E).
  apply node_at_Ok_inv in E0 as [-> Hn].
  destruct (valid (value n)) eqn:Hv.
  { injection E as <-. apply forward_scope_refl. }
  apply bind_Ok_inv in E as ([] & w1 & E1 & E).
  apply bind_Ok_inv in E as (xs & w2 & E2 & E).
  apply deref_values_Ok_inv in E2 as [-> Hxs].
  apply bind_Ok_inv in E as ([] & w3 & E3 & E).
  injection E3 as <-.
  match type of E1 with
  | for_each _ ?body _ = _ =>
      pose proof (for_each_Ok_inv (args n) body
                    (fun v => same_structure w v)
                    (forward_scope (graph w) id)
                    (fun _ _ => True)
                    (forward_scope_refl _ _) (forward_scope_trans _ _)) as Hloop
  end.
  destruct Hloop with (w := w) (w' := w1) as (Hs1 & Hsc1 & _);
    [| auto | apply same_structure_refl | exact E1 |]; clear Hloop.
  { intros a v v' Ha Hs Ea.
    apply bind_Ok_inv in Ea as ([] & v1 & Ea1 & Ea).
    apply bind_Ok_inv in Ea as (m & v2 & Ea2 & Ea).
    apply node_at_Ok_inv in Ea2 as [-> _]. injection Ea as <-.
    split; [| split; [| exact I]].
    - eapply same_structure_trans; [exact Hs |].
      apply (keeps_structure_forward_recursive fuel a). rewrite Ea1. reflexivity.
    - eapply forward_scope_operand; [exact Hn | exact Ha |].
      eapply forward_scope_structure; [exact Hs |]. apply IH. exact Ea1. }
  eapply forward_scope_trans; [exact Hsc1 |].
  unfold modify_node in E. simpl in E.
  destruct (nodes_ (graph w1) !! N.to_nat id) as [n1 |] eqn:Hn1; [| discriminate].
  injection E as <-. split; simpl.
  - intros i Hi. apply list_lookup_insert_ne. intros <-.
    apply Hi. rewrite N2Nat.id. constructor.
  - exists [ev_forward id xs]. split; [reflexivity |].
    constructor; [| constructor]. exists id, xs. split; [reflexivity | constructor].
Qed.

(** Whatever the graph, a forward evaluation that returns has changed
    nothing at the positions its target does not depend on, and has
    called [forward] only for nodes the target depends on. *)
Theorem forward_touches_only_dependencies
    (w : World) (fuel : nat) (node : Node) (v : Tensor) (w' : World) :
  Graph_forward fuel node w = Ok v w' ->
  (forall i, ~ depends_on (graph w) (id_ node) (N.of_nat i) ->
     nodes_ (graph w') !! i = nodes_ (graph w) !! i) /\
  exists tr, log w' = log w ++ tr /\
    Forall (forward_call_within (graph w) (id_ node)) tr.
Proof.
  intros E. apply Graph_forward_Ok_inv in E as (_ & E & _).
  exact (forward_recursive_scope _ _ _ _ E).
Qed.

(** ** Values agree with the operations *)

Lemma values_consistent_set_value g id n xs :
  nodes_ g !! id = Some n -> valid (value n) = false ->
  values_consistent g ->
  Forall2 (fun a x => exists na,
             nodes_ g !! N.to_nat a = Some na /\ value na = x /\
             valid x = true) (args n) xs ->
  values_consistent
    (mkGraph (this g)
       (<[id := with_value (forward (func n) xs) n]> (nodes_ g))).
Proof.
  intros Hn Hv Hc Hxs.
  assert (Hid : (id < length (nodes_ g))%nat) by (eapply lookup_lt_Some; exact Hn).
  assert (Hmove : forall l ys,
            Forall2 (fun a x => exists na,
                       nodes_ g !! N.to_nat a = Some na /\ value na = x /\
                       valid x = true) l ys ->
            Forall2 (fun a x => exists na,
                       <[id := with_value (forward (func n) xs) n]> (nodes_ g)
                         !! N.to_nat a = Some na /\ value na = x /\
                       valid x = true) l ys).
  { intros l ys H. eapply Forall2_impl; [exact H |].
    intros a x (na & Hna & Hx & Hvx). exists na. split; [| auto].
    rewrite list_lookup_insert_ne; [exact Hna |].
    intros Heq. rewrite <- Heq in Hna.
    assert (na = n) by congruence. subst na. congruence. }
  intros p m Hm Hvm. simpl in *.
  destruct (decide (p = id)) as [-> | Hne].
  - rewrite list_lookup_insert_eq in Hm by exact Hid. injection Hm as <-.
    exists xs. split; [apply Hmove; exact Hxs | reflexivity].
  - rewrite list_lookup_insert_ne in Hm by auto.
    destruct (Hc _ _ Hm Hvm) as (ys & Hys & Hval).
    exists ys. split; [apply Hmove; exact Hys | exact Hval].
Qed.

Lemma operand_values_realized g ptrs xs :
  Forall2 (fun p x => exists n,
             nodes_ g !! N.to_nat p = Some n /\ value n = x) ptrs xs ->
  (forall a, a ∈ ptrs -> realized g a) ->
  Forall2 (fun a x => exists na,
             nodes_ g !! N.to_nat a = Some na /\ value na = x /\
             valid x = true) ptrs xs.
Proof.
  induction 1 as [| p x ptrs xs (n & Hn & <-) _ IH]; intros Hall.
  - constructor.
  - constructor.
    + destruct (Hall p) as (m & Hm & Hv); [apply list_elem_of_here |].
      exists n. split; [exact Hn |]. split; [reflexivity | congruence].
    + apply IH. intros a Ha. apply Hall. apply list_elem_of_further. exact Ha.
Qed.

Lemma forward_recursive_consistent fuel id w w' :
  forward_inv (graph w) -> values_consistent (graph w) ->
  forward_recursive fuel id w = Ok tt w' -> values_consistent (graph w').
Proof.
  revert id w w'. induction fuel as [| fuel IH]; intros id w w' Hinv Hc E;
    simpl in E; [discriminate |].
  apply bind_Ok_inv in E as (n & w0 & E0 & E).
  apply node_at_Ok_inv in E0 as [-> Hn].
  destruct (valid (value n)) eqn:Hv.
  { injection E as <-. exact Hc. }
  apply bind_Ok_inv in E as ([] & w1 & E1 & E).
  apply bind_Ok_inv in E as (xs & w2 & E2 & E).
  apply deref_values_Ok_inv in E2 as [-> Hxs].
  apply bind_Ok_inv in E as ([] & w3 & E3 & E).
  injection E3 as <-.
  assert (Hbelow : forall a, a ∈ args n -> (N.to_nat a < N.to_nat id)%nat).
  { intros a Ha. destruct Hinv as (Hab & _). exact (Hab _ _ _ Hn Ha). }
  match type of E1 with
  | for_each _ ?body _ = _ =>
      pose proof (for_each_Ok_inv (args n) body
                    (fun v => forward_inv (graph v) /\
                              values_consistent (graph v))
                    (fun v v' =>
                       values_filled (graph v) (graph v') /\
                       nodes_ (graph v') !! N.to_nat id
                         = nodes_ (graph v) !! N.to_nat id)
                    (fun a v => realized (graph v) a)) as Hloop
  end.
  destruct Hloop with (w := w) (w' := w1) as ((Hinv1 & Hc1) & (_ & Hid1) & Hreal1);
    [| | | | split; assumption | exact E1 |]; clear Hloop.
  { intros v. split; [apply values_filled_refl | reflexivity]. }
  { intros v1 v2 v3 [F1 H1] [F2 H2].
    split; [eapply values_filled_trans; eassumption | congruence]. }
  { intros a v v' Ha [Hv0 Hc0] Ea.
    apply bind_Ok_inv in Ea as ([] & v1 & Ea1 & Ea).
    apply bind_Ok_inv in Ea as (m & v2 & Ea2 & Ea).
    apply node_at_Ok_inv in Ea2 as [-> _]. injection Ea as <-.
    destruct (forward_recursive_effect _ _ _ _ Hv0 Ea1) as (Hi & (Hf & _) & Hr).
    split; [split; [exact Hi | exact (IH _ _ _ Hv0 Hc0 Ea1)] |].
    split; [| exact Hr]. split; [exact Hf |].
    destruct (forward_recursive_scope _ _ _ _ Ea1) as (Hsc & _).
    rewrite <- (N2Nat.id id) at 1. rewrite Nat2N.id. apply Hsc.
    intros Hd. rewrite N2Nat.id in Hd.
    apply (depends_on_below _ _ _ (proj1 Hv0)) in Hd.
    specialize (Hbelow a Ha). lia. }
  { intros a v v' Hr _ [Hf _]. eapply realized_filled; eassumption. }
  unfold modify_node in E. simpl in E. rewrite Hid1, Hn in E.
  injection E as <-. simpl.
  apply values_consistent_set_value; [congruence | exact Hv | exact Hc1 |].
  apply operand_values_realized; [exact Hxs | exact Hreal1].
Qed.

Lemma values_consistent_frame b g g' :
  grads_changed_below b g g' -> values_consistent g -> values_consistent g'.
Proof.
  intros Hf Hc p n' Hn' Hv.
  destruct (grads_changed_below_lookup_back _ _ _ _ _ Hf Hn') as (n & Hn & Hs).
  apply with_grad_eq_fields in Hs as (_ & Hfunc & Hval & Hargs & _).
  rewrite Hval in Hv. destruct (Hc _ _ Hn Hv) as (xs & Hxs & Hx).
  exists xs. rewrite Hargs, Hfunc, Hval. split; [| exact Hx].
  eapply Forall2_impl; [exact Hxs |].
  intros a x (na & Hna & Hxa & Hvx).
  destruct Hf as (_ & _ & H). destruct (H _ _ Hna) as (na' & Hna' & Hsa & _).
  apply with_grad_eq_fields in Hsa as (_ & _ & Hvala & _).
  exists na'. split; [exact Hna' |]. split; [congruence | exact Hvx].
Qed.

Lemma values_consistent_added {laws : TensorLaws TL} g r ns s f ids :
  values_consistent g -> sinks_extended r (nodes_ g) ns ->
  values_consistent
    (mkGraph (this g) (ns ++ [mkNodeInfo s f Tensor_new Tensor_new ids []])).
Proof.
  intros Hc Hext p n' Hn' Hv. simpl in *.
  destruct (added_lookup _ _ _ _ _ _ Hext Hn')
    as [[-> ->] | (n & Hn & _ & Hfunc & Hval & _ & Hargs & _)].
  { simpl in Hv. rewrite valid_Tensor_new in Hv. discriminate. }
  rewrite Hval in Hv. destruct (Hc _ _ Hn Hv) as (xs & Hxs & Hx).
  exists xs. rewrite Hargs, Hfunc, Hval. split; [| exact Hx].
  eapply Forall2_impl; [exact Hxs |].
  intros a x (na & Hna & Hxa & Hvx).
  destruct (added_lookup_old _ _ _
              (mkNodeInfo s f Tensor_new Tensor_new ids []) _ _ Hext Hna)
    as (na' & Hna' & Hvala & _).
  exists na'. split; [exact Hna' |]. split; [congruence | exact Hvx].
Qed.

(** In every reachable graph whose operations honour the contract of
    [forward], the value a node holds is the tensor its operation's
    [forward] returns on the values its operands hold, taken in the order
    of the operands, and all of these hold values. *)
Theorem values_agree_with_operations {laws : TensorLaws TL} (w : World) :
  reachable realizes w -> values_consistent (graph w).
Proof.
  induction 1 as [a
                 | w f nodes w' Hr IH Hf H
                 | w fuel node w' Hr IH H
                 | w node w' Hr IH H
                 | w node w' _ IH H
                 | w node w' _ IH H].
  - intros p n Hn. simpl in Hn. rewrite lookup_nil in Hn. discriminate.
  - apply add_function_after in H as [-> | (s & ns & Hall & Hext & ->)];
      [exact IH |].
    simpl. eapply values_consistent_added; eassumption.
  - apply Graph_forward_after in H as [[-> _] | [_ E]]; [exact IH |].
    eapply forward_recursive_consistent; [| exact IH | exact E].
    exact (proj1 (reachable_world_inv w Hr)).
  - destruct (reachable_world_inv w Hr) as ((Hab & Hvc & _) & _).
    apply Graph_backward_after in H as [-> | (tr & _ & _ & Hfr)];
      [exact IH | | exact Hab | exact Hvc].
    eapply values_consistent_frame; eassumption.
  - apply get_value_after in H as ->. exact IH.
  - apply get_gradient_after in H as ->. exact IH.
Qed.

(** In a reachable graph whose operations honour the contract of
    [forward], a forward evaluation that returns returns a tensor that
    holds a value, which [get_value] returns afterwards, and has left
    every node the target depends on with a value. *)
Theorem forward_realizes_the_dependencies {laws : TensorLaws TL}
    (w : World) (fuel : nat) (node : Node) (v : Tensor) (w' : World) :
  reachable realizes w ->
  Graph_forward fuel node w = Ok v w' ->
  valid v = true /\
  get_value node w' = Ok v w' /\
  forall q, depends_on (graph w') (id_ node) q -> realized (graph w') q.
Proof.
  intros Hr E. destruct (reachable_world_inv w Hr) as (Hinv & _).
  apply Graph_forward_Ok_inv in E as (Hok & E & n' & Hn' & <-).
  destruct (forward_recursive_effect _ _ _ _ Hinv E)
    as ((Hab' & Hvc' & _) & ((Ht & Hl & _) & _) & (m & Hm & Hv)).
  assert (m = n') as -> by congruence.
  assert (Hok' : handle_ok (graph w') node).
  { destruct Hok as [Hg Hid]. split; [congruence |]. rewrite Hl. exact Hid. }
  split; [exact Hv |]. split.
  - unfold get_value.
    rewrite (bind_Ok _ _ _ _ _ (CHECK_NODE_ok _ _ Hok')).
    rewrite (bind_Ok _ _ _ _ _ (node_at_Ok _ _ _ Hn')). reflexivity.
  - intros q Hq. eapply realized_dependencies; [exact Hab' | exact Hvc' | | exact Hq].
    exists n'. auto.
Qed.

(** ** Consumers mirror operands *)

Lemma push_sinks_exact ids r w w' :
  for_each ids (fun arg_id => modify_node arg_id (push_sink r)) w = Ok tt w' ->
  sinks_pushed r ids (nodes_ (graph w)) (nodes_ (graph w')).
Proof.
  revert w w'. induction ids as [| a ids IH]; intros w w' E; simpl in E.
  - injection E as <-. split; [reflexivity |]. intros i n Hn.
    exists n. simpl. rewrite app_nil_r. auto.
  - apply bind_Ok_inv in E as ([] & w1 & E1 & E).
    unfold modify_node in E1.
    destruct (nodes_ (graph w) !! N.to_nat a) as [na |] eqn:Hna; [| discriminate].
    injection E1 as <-.
    destruct (IH _ _ E) as [Hlen Hrest]. simpl in Hlen, Hrest.
    assert (Ha : (N.to_nat a < length (nodes_ (graph w)))%nat)
      by (eapply lookup_lt_Some; exact Hna).
    split; [rewrite Hlen; apply length_insert |].
    intros i n Hn. destruct (decide (i = N.to_nat a)) as [-> | Hne].
    + destruct (Hrest (N.to_nat a) (push_sink r na)) as (n' & Hn' & Hargs & Hsinks).
      { apply list_lookup_insert_eq. exact Ha. }
      assert (n = na) as -> by congruence.
      exists n'. split; [exact Hn' |]. split; [exact Hargs |].
      rewrite Hsinks. simpl. rewrite N2Nat.id.
      destruct (N.eq_dec a a) as [_ | Hc]; [| contradiction].
      rewrite <- app_assoc. reflexivity.
    + destruct (Hrest i n) as (n' & Hn' & Hargs & Hsinks).
      { rewrite list_lookup_insert_ne by auto. exact Hn. }
      exists n'. split; [exact Hn' |]. split; [exact Hargs |].
      rewrite Hsinks. simpl.
      destruct (N.eq_dec a (N.of_nat i)) as [Hc | _]; [| reflexivity].
      exfalso. apply Hne. rewrite Hc. rewrite Nat2N.id. reflexivity.
Qed.

(** What a successful [add_function] leaves: the old records with the
    new position pushed on the consumers of the operands, then the new
    record. *)
Lemma add_function_Ok_exact f nodes w nd w' :
  add_function f nodes w = Ok nd w' ->
  exists s ns,
    Forall (handle_ok (graph w)) nodes /\
    sinks_pushed (to_unsigned (N.of_nat (length (nodes_ (graph w)))))
                 (map id_ nodes) (nodes_ (graph w)) ns /\
    nodes_ (graph w')
      = ns ++ [mkNodeInfo s f Tensor_new Tensor_new (map id_ nodes) []].
Proof.
  intros E. pose proof E as E0. unfold add_function in E.
  apply bind_Ok_inv in E as (ga & w1 & E1 & E).
  destruct (gather_args_cases nodes [] [] w)
    as [(shs & Eg & Hall & _)
       | [(pre & x & post & _ & _ & _ & Eg)
         | (pre & x & post & _ & _ & _ & _ & Eg)]];
    rewrite Eg in E1; try discriminate.
  injection E1 as <- <-. simpl in E.
  apply bind_Ok_inv in E as (s & w2 & E2 & E).
  unfold call_forward_shape in E2.
  destruct (forward_shape f shs) as [s0 | what]; [| discriminate].
  injection E2 as <- <-.
  apply bind_Ok_inv in E as (g & w3 & E3 & E). injection E3 as <- <-.
  apply bind_Ok_inv in E as ([] & w4 & E4 & E).
  apply bind_Ok_inv in E as ([] & w5 & E5 & E).
  injection E5 as <-. injection E as <- <-. simpl.
  exists s0, (nodes_ (graph w4)). split; [exact Hall |]. split; [| reflexivity].
  exact (push_sinks_exact _ _ _ _ E4).
Qed.

Lemma count_occ_replicate (x y : N) k :
  count_occ N.eq_dec (replicate k x) y = if N.eq_dec x y then k else 0%nat.
Proof.
  induction k as [| k IH]; simpl.
  - destruct (N.eq_dec x y); reflexivity.
  - rewrite IH. destruct (N.eq_dec x y); reflexivity.
Qed.

Lemma count_occ_absent (l : list N) (y : N) :
  y ∉ l -> count_occ N.eq_dec l y = 0%nat.
Proof.
  intros H. apply count_occ_not_In. intros Hin. apply H.
  apply list_elem_of_In. exact Hin.
Qed.

Lemma sinks_mirror_args_added g ns s f v gr nodes :
  args_below g -> sinks_mirror_args g ->
  N.of_nat (length (nodes_ g)) < UINT_MOD ->
  Forall (handle_ok g) nodes ->
  sinks_pushed (to_unsigned (N.of_nat (length (nodes_ g))))
               (map id_ nodes) (nodes_ g) ns ->
  sinks_mirror_args
    (mkGraph (this g) (ns ++ [mkNodeInfo s f v gr (map id_ nodes) []])).
Proof.
  intros Hab [Hrange Hmirror] Hsmall Hall [Hlen Hpush].
  set (len := length (nodes_ g)) in *.
  assert (Hr : to_unsigned (N.of_nat len) = N.of_nat len)
    by (unfold to_unsigned; apply N.mod_small; exact Hsmall).
  rewrite Hr in Hpush.
  set (new := mkNodeInfo s f v gr (map id_ nodes) []).
  assert (Hids : forall a, a ∈ map id_ nodes -> a < N.of_nat len).
  { intros a Ha. apply list_elem_of_fmap in Ha as (nd & -> & Hnd).
    rewrite Forall_forall in Hall. exact (proj2 (Hall _ Hnd)). }
  (* a record of the new graph is the new one or an old one, pushed *)
  assert (Hcases : forall p np, (ns ++ [new]) !! p = Some np ->
            (p = len /\ np = new) \/
            (exists n, nodes_ g !! p = Some n /\ args np = args n /\
               sinks np = sinks n ++
                 replicate (count_occ N.eq_dec (map id_ nodes) (N.of_nat p))
                           (N.of_nat len))).
  { intros p np Hp. destruct (decide (p < length ns)%nat) as [Hlt | Hge].
    - right. rewrite lookup_app_l in Hp by exact Hlt.
      assert (Hlt' : (p < len)%nat) by lia.
      destruct (lookup_lt_is_Some_2 _ _ Hlt') as [n Hn].
      destruct (Hpush _ _ Hn) as (n' & Hn' & H).
      assert (n' = np) as -> by congruence. eauto.
    - left. rewrite lookup_app_r in Hp by lia.
      destruct (p - length ns)%nat as [| k] eqn:Hk; simpl in Hp; [| discriminate].
      injection Hp as <-. split; [lia | reflexivity]. }
  split; simpl.
  - intros p np x Hp Hx. rewrite length_app, Hlen. simpl.
    destruct (Hcases _ _ Hp) as [[-> ->] | (n & Hn & _ & Hsinks)].
    + simpl in Hx. apply elem_of_nil in Hx. contradiction.
    + rewrite Hsinks in Hx. apply elem_of_app in Hx as [Hx | Hx].
      * pose proof (Hrange _ _ _ Hn Hx). lia.
      * apply elem_of_replicate in Hx as [-> _]. lia.
  - intros p q np nq Hp Hq.
    destruct (Hcases _ _ Hp) as [[-> ->] | (n & Hn & _ & Hsinks)];
      destruct (Hcases _ _ Hq) as [[-> ->] | (m & Hm & Hargs & _)]; simpl.
    + symmetry. apply count_occ_absent. intros Hin.
      specialize (Hids _ Hin). lia.
    + rewrite Hargs. symmetry. apply count_occ_absent. intros Hin.
      pose proof (Hab _ _ _ Hm Hin). apply lookup_lt_Some in Hm. lia.
    + rewrite Hsinks, count_occ_app, count_occ_replicate.
      destruct (N.eq_dec (N.of_nat len) (N.of_nat len)) as [_ | Hc];
        [| contradiction].
      rewrite count_occ_absent; [reflexivity |].
      intros Hin. pose proof (Hrange _ _ _ Hn Hin). lia.
    + rewrite Hsinks, Hargs, count_occ_app, count_occ_replicate.
      destruct (N.eq_dec (N.of_nat len) (N.of_nat q)) as [Hc | _].
      * apply lookup_lt_Some in Hm. lia.
      * rewrite Nat.add_0_r. exact (Hmirror _ _ _ _ Hn Hm).
Qed.

Lemma sinks_mirror_args_structure w w' :
  same_structure w w' ->
  sinks_mirror_args (graph w) -> sinks_mirror_args (graph w').
Proof.
  intros Hs [Hrange Hmirror]. split.
  - intros p np' x Hp Hx. rewrite (same_structure_length _ _ Hs).
    destruct (same_structure_lookup _ _ _ _ Hs Hp) as (np & Hnp & Hsk).
    apply skeleton_fields in Hsk as (_ & _ & _ & Hsinks).
    rewrite Hsinks in Hx. exact (Hrange _ _ _ Hnp Hx).
  - intros p q np' nq' Hp Hq.
    destruct (same_structure_lookup _ _ _ _ Hs Hp) as (np & Hnp & Hsk).
    destruct (same_structure_lookup _ _ _ _ Hs Hq) as (nq & Hnq & Hsk').
    apply skeleton_fields in Hsk as (_ & _ & _ & Hsinks).
    apply skeleton_fields in Hsk' as (_ & _ & Hargs & _).
    rewrite Hsinks, Hargs. exact (Hmirror _ _ _ _ Hnp Hnq).
Qed.

(** In every reachable graph whose positions fit an [unsigned], the
    consumer lists are the operand lists read backwards: every consumer
    position is a position of the graph, [s] is recorded as a consumer of
    [p] exactly as often as [p] is an operand of [s], and so [s] is among
    the consumers of [p] exactly when [p] is among the operands of [s]. *)
Theorem consumers_mirror_operands (P : Function -> Prop) (w : World) :
  reachable P w ->
  N.of_nat (length (nodes_ (graph w))) <= UINT_MOD ->
  sinks_mirror_args (graph w) /\
  (forall p s np ns,
     nodes_ (graph w) !! p = Some np -> nodes_ (graph w) !! s = Some ns ->
     N.of_nat s ∈ sinks np <-> N.of_nat p ∈ args ns).
Proof.
  intros Hr Hlen.
  assert (Hm : sinks_mirror_args (graph w)).
  { induction Hr as [a
                    | w f nodes w' Hr IH Hf H
                    | w fuel node w' Hr IH H
                    | w node w' Hr IH H
                    | w node w' _ IH H
                    | w node w' _ IH H].
    - split; intros p; intros; simpl in *;
        match goal with H : [] !! _ = Some _ |- _ =>
          rewrite lookup_nil in H; discriminate end.
    - destruct (add_function f nodes w) as [nd w1 | e w1 | | |] eqn:E;
        simpl in H; try discriminate; injection H as ->.
      + destruct (add_function_Ok_exact _ _ _ _ _ E) as (s & ns & Hall & Hpush & Hn).
        pose proof (proj1 Hpush) as Hl.
        assert (Hsmall : N.of_nat (length (nodes_ (graph w))) < UINT_MOD).
        { rewrite Hn, length_app, Hl in Hlen. simpl in Hlen. lia. }
        assert (Hg : graph w'
                     = mkGraph (this (graph w'))
                         (ns ++ [mkNodeInfo s f Tensor_new Tensor_new
                                            (map id_ nodes) []])).
        { destruct (graph w') as [t l]. simpl in *. congruence. }
        rewrite Hg.
        assert (Hm0 : sinks_mirror_args (graph w)) by (apply IH; lia).
        destruct (sinks_mirror_args_added (graph w) ns s f Tensor_new Tensor_new
                    nodes (proj1 (reachable_structure P w Hr)) Hm0 Hsmall
                    Hall Hpush) as [H1 H2].
        split; [exact H1 | exact H2].
      + assert (w' = w) as ->; [| auto].
        destruct (add_function_cases f nodes w)
          as [(shs & s & ns & _ & _ & _ & _ & E')
             | [(shs & what & _ & _ & _ & E')
               | [(pre & x & post & _ & _ & _ & E')
                 | (pre & x & post & _ & _ & _ & _ & E')]]];
          rewrite E' in E; try discriminate; injection E as _ <-; reflexivity.
    - apply keeps_structure_Graph_forward in H.
      eapply sinks_mirror_args_structure; [exact H |].
      apply IH. rewrite <- (same_structure_length _ _ H). exact Hlen.
    - apply keeps_structure_Graph_backward in H.
      eapply sinks_mirror_args_structure; [exact H |].
      apply IH. rewrite <- (same_structure_length _ _ H). exact Hlen.
    - apply get_value_after in H as ->. auto.
    - apply get_gradient_after in H as ->. auto. }
  split; [exact Hm |].
  intros p s np ns Hp Hs. destruct Hm as [_ Hm].
  specialize (Hm _ _ _ _ Hp Hs).
  rewrite !list_elem_of_In.
  rewrite (count_occ_In N.eq_dec (sinks np)), (count_occ_In N.eq_dec (args ns)).
  rewrite Hm. reflexivity.
Qed.

(** ** Operations of reachable graphs *)

Lemma reachable_mono (P Q : Function -> Prop) w :
  (forall f, P f -> Q f) -> reachable P w -> reachable Q w.
Proof.
  intros HPQ. induction 1.
  - apply reach_new.
  - eapply reach_add_function; eauto.
  - eapply reach_forward; eauto.
  - eapply reach_backward; eauto.
  - eapply reach_get_value; eauto.
  - eapply reach_get_gradient; eauto.
Qed.

Lemma funcs_satisfy_structure P w w' :
  same_structure w w' ->
  funcs_satisfy P (graph w) -> funcs_satisfy P (graph w').
Proof.
  intros Hs Hfs p n' Hn'.
  destruct (same_structure_lookup _ _ _ _ Hs Hn') as (n & Hn & Hsk).
  apply skeleton_fields in Hsk as (_ & Hfunc & _).
  rewrite Hfunc. exact (Hfs _ _ Hn).
Qed.

Lemma reachable_funcs P w : reachable P w -> funcs_satisfy P (graph w).
Proof.
  induction 1 as [a
                 | w f nodes w' _ IH Hf H
                 | w fuel node w' _ IH H
                 | w node w' _ IH H
                 | w node w' _ IH H
                 | w node w' _ IH H].
  - intros p n Hn. simpl in Hn. rewrite lookup_nil in Hn. discriminate.
  - apply add_function_after in H as [-> | (s & ns & _ & Hext & ->)];
      [exact IH |].
    intros p n' Hn'. simpl in Hn'.
    destruct (added_lookup _ _ _ _ _ _ Hext Hn')
      as [[-> ->] | (n & Hn & _ & Hfunc & _)]; [exact Hf |].
    rewrite Hfunc. exact (IH _ _ Hn).
  - apply keeps_structure_Graph_forward in H.
    eapply funcs_satisfy_structure; eassumption.
  - apply keeps_structure_Graph_backward in H.
    eapply funcs_satisfy_structure; eassumption.
  - apply get_value_after in H as ->. exact IH.
  - apply get_gradient_after in H as ->. exact IH.
Qed.

(** ** Gradients that exist stay *)

Lemma grads_kept_refl g : grads_kept g g.
Proof. intros a H. exact H. Qed.

Lemma grads_kept_trans g1 g2 g3 :
  grads_kept g1 g2 -> grads_kept g2 g3 -> grads_kept g1 g3.
Proof. intros H1 H2 a H. auto. Qed.

Lemma grads_kept_modify a f w w' :
  (forall n, valid (grad n) = true -> valid (grad (f n)) = true) ->
  modify_node a f w = Ok tt w' -> grads_kept (graph w) (graph w').
Proof.
  intros Hf E. apply modify_node_Ok_inv in E as (n & Hn & ->).
  intros q (m & Hm & Hv). unfold has_grad. simpl.
  assert (Ha : (N.to_nat a < length (nodes_ (graph w)))%nat)
    by (eapply lookup_lt_Some; exact Hn).
  destruct (decide (N.to_nat q = N.to_nat a)) as [Heq | Hne].
  - rewrite Heq in *. assert (m = n) as -> by congruence.
    exists (f n). split; [apply list_lookup_insert_eq; exact Ha | auto].
  - exists m. split; [| exact Hv].
    rewrite list_lookup_insert_ne by auto. exact Hm.
Qed.

Lemma apply_updates_kept ptrs upds w w' :
  (forall u, u ∈ upds -> forall t, valid t = true -> valid (u t) = true) ->
  apply_updates ptrs upds w = Ok tt w' -> grads_kept (graph w) (graph w').
Proof.
  revert upds w. induction ptrs as [| p ptrs IH]; intros upds w Hu E.
  - simpl in E. injection E as <-. apply grads_kept_refl.
  - destruct upds as [| u upds]; simpl in E.
    + injection E as <-. apply grads_kept_refl.
    + apply bind_Ok_inv in E as ([] & w1 & E1 & E).
      eapply grads_kept_trans.
      * eapply grads_kept_modify; [| exact E1]. intros n Hv. simpl.
        apply Hu; [apply list_elem_of_here | exact Hv].
      * eapply IH; [| exact E]. intros v Hv. apply Hu.
        apply list_elem_of_further. exact Hv.
Qed.

Lemma call_backward_kept id vs gs w w' :
  funcs_satisfy keeps_valid (graph w) ->
  call_backward id vs gs w = Ok tt w' -> grads_kept (graph w) (graph w').
Proof.
  intros Hfs E. unfold call_backward in E.
  apply bind_Ok_inv in E as (cur & w1 & E1 & E).
  apply node_at_Ok_inv in E1 as [-> Hcur].
  apply bind_Ok_inv in E as (xs & w2 & E2 & E).
  apply deref_values_Ok_inv in E2 as [-> _].
  apply bind_Ok_inv in E as (gl & w3 & E3 & E).
  apply deref_grads_Ok_inv in E3 as ->.
  apply bind_Ok_inv in E as ([] & w4 & E4 & E). injection E4 as <-.
  apply apply_updates_kept in E; [exact E |].
  intros u Hu t Ht. exact (Hfs _ _ Hcur _ _ _ _ _ Hu Ht).
Qed.

Lemma backward_args_grads {laws : TensorLaws TL} w b id cur rest done w' :
  nodes_ (graph w) !! N.to_nat id = Some cur ->
  Forall (ptr_ok (graph w) b) (done ++ rest) ->
  funcs_satisfy keeps_valid (graph w) ->
  backward_args id rest done done w = Ok tt w' ->
  grads_kept (graph w) (graph w') /\
  forall a, a ∈ rest -> has_grad (graph w') a.
Proof.
  revert w cur done. induction rest as [| a rest IH];
    intros w cur done Hcur Hall Hfs E; simpl in E.
  - injection E as <-. split; [apply grads_kept_refl |].
    intros a Ha. apply elem_of_nil in Ha. contradiction.
  - apply bind_Ok_inv in E as ([] & w1 & E1 & E).
    apply bind_Ok_inv in E as ([] & w2 & E2 & E).
    assert (Ha : ptr_ok (graph w) b a).
    { rewrite Forall_app in Hall. destruct Hall as [_ Hall].
      apply Forall_cons in Hall as [Ha _]. exact Ha. }
    destruct (ensure_grad_Ok w b a Ha)
      as (w1' & tr1 & E1' & _ & F1 & n1 & Hn1 & Hg1 & _).
    rewrite E1 in E1'. injection E1' as <-.
    assert (K1 : grads_kept (graph w) (graph w1)).
    { clear - E1. unfold ensure_grad in E1.
      apply bind_Ok_inv in E1 as (n & v & En & E1).
      apply node_at_Ok_inv in En as [-> Hn].
      destruct (valid (grad n)) eqn:Hg.
      - injection E1 as <-. apply grads_kept_refl.
      - apply bind_Ok_inv in E1 as ([] & v1 & Ee & E1). injection Ee as <-.
        apply modify_node_Ok_inv in E1 as (m & Hm & ->). simpl in *.
        intros q (k & Hk & Hv). unfold has_grad. simpl.
        exists k. split; [| exact Hv].
        rewrite list_lookup_insert_ne; [exact Hk |].
        intros Heq. rewrite Heq in Hm. congruence. }
    assert (Hall1 : Forall (ptr_ok (graph w1) b) ((done ++ [a]) ++ rest)).
    { rewrite <- app_assoc. simpl. eapply Forall_impl; [exact Hall |].
      intros q Hq. eapply ptr_ok_frame; eassumption. }
    destruct (proj2 (proj2 F1) _ _ Hcur) as (cur1 & Hcur1 & _).
    destruct (call_backward_Ok w1 b id cur1 done a n1 Hcur1)
      as (w2' & e & E2' & _ & _ & F2);
      [rewrite Forall_app in Hall1; tauto | exact Hn1 |].
    rewrite E2 in E2'. injection E2' as <-.
    assert (Hfs1 : funcs_satisfy keeps_valid (graph w1))
      by (eapply funcs_satisfy_frame; eassumption).
    assert (K2 : grads_kept (graph w1) (graph w2))
      by (eapply call_backward_kept; eassumption).
    destruct (proj2 (proj2 F2) _ _ Hcur1) as (cur2 & Hcur2 & _).
    destruct (IH w2 cur2 (done ++ [a]) Hcur2) as (K3 & H3); [| | exact E |].
    { eapply Forall_impl; [exact Hall1 |]. intros q Hq.
      eapply ptr_ok_frame; eassumption. }
    { eapply funcs_satisfy_frame; eassumption. }
    split.
    + eapply grads_kept_trans; [exact K1 |].
      eapply grads_kept_trans; eassumption.
    + intros q Hq. apply elem_of_cons in Hq as [-> | Hq]; [| auto].
      apply K3, K2. exists n1. auto.
Qed.

Lemma backward_loop_grads {laws : TensorLaws TL} k w w' :
  args_below (graph w) -> values_closed (graph w) ->
  funcs_satisfy keeps_valid (graph w) ->
  (k <= length (nodes_ (graph w)))%nat ->
  backward_loop k w = Ok tt w' ->
  grads_kept (graph w) (graph w') /\
  forall p n a, (p < k)%nat ->
    nodes_ (graph w) !! p = Some n -> valid (value n) = true ->
    a ∈ args n -> has_grad (graph w') a.
Proof.
  revert w. induction k as [| id IH]; intros w Hab Hvc Hfs Hk E; simpl in E.
  - injection E as <-. split; [apply grads_kept_refl |]. intros; lia.
  - apply bind_Ok_inv in E as ([] & w1 & E1 & E).
    destruct (backward_visit_Ok w id Hab Hvc) as (w1' & tr1 & E1' & _ & F1 & _);
      [lia |].
    rewrite E1 in E1'. injection E1' as <-.
    assert (Hid : (id < length (nodes_ (graph w)))%nat) by lia.
    destruct (lookup_lt_is_Some_2 _ _ Hid) as [cur Hcur].
    assert (Hcur' : nodes_ (graph w) !! N.to_nat (N.of_nat id) = Some cur)
      by (rewrite Nat2N.id; exact Hcur).
    assert (V1 : grads_kept (graph w) (graph w1) /\
                 (valid (value cur) = true ->
                  forall a, a ∈ args cur -> has_grad (graph w1) a)).
    { unfold backward_visit in E1.
      rewrite (bind_Ok _ _ _ _ _ (node_at_Ok _ _ _ Hcur')) in E1.
      destruct (valid (value cur)) eqn:Hv.
      - destruct (backward_args_grads w id (N.of_nat id) cur (args cur) [] w1
                    Hcur') as (K & H); [| exact Hfs | exact E1 | auto].
        simpl. apply Forall_forall. intros a Ha.
        pose proof (Hab _ _ _ Hcur Ha) as Hlt.
        assert (Hr : (N.to_nat a < length (nodes_ (graph w)))%nat) by lia.
        destruct (lookup_lt_is_Some_2 _ _ Hr) as [na Hna].
        exists na. split; [exact Hna |]. split; [| exact Hlt].
        exact (Hvc _ _ _ _ Hcur Hv Ha Hna).
      - injection E1 as <-. split; [apply grads_kept_refl | discriminate]. }
    destruct V1 as [K1 H1].
    destruct (IH w1) as (K2 & H2); [| | | | exact E |].
    { eapply args_below_frame; eassumption. }
    { eapply values_closed_frame; eassumption. }
    { eapply funcs_satisfy_frame; eassumption. }
    { destruct F1 as (_ & -> & _). lia. }
    split; [eapply grads_kept_trans; eassumption |].
    intros p n a Hp Hn Hv Ha.
    destruct (decide (p = id)) as [-> | Hne].
    + assert (n = cur) as -> by congruence. apply K2. auto.
    + destruct (proj2 (proj2 F1) _ _ Hn) as (n1 & Hn1 & Hs & _).
      apply with_grad_eq_fields in Hs as (_ & _ & Hval & Hargs & _).
      apply (H2 p n1 a); [lia | exact Hn1 | congruence | congruence].
Qed.

(** In a reachable graph whose operations honour the contracts of
    [forward] and [backward], a differentiation of a target that passes
    the checks and whose position fits an [int] returns; afterwards
    [get_gradient] on the target returns the all-ones tensor of the
    target's shape, and every node the target depends on holds a
    gradient. *)
Theorem backward_leaves_gradients_on_dependencies {laws : TensorLaws TL}
    (w : World) (node : Node) (n : NodeInfo) :
  reachable well_behaved w ->
  handle_ok (graph w) node ->
  id_ node < 2 ^ 31 ->
  nodes_ (graph w) !! N.to_nat (id_ node) = Some n ->
  valid (value n) = true -> valid (grad n) = false ->
  exists w',
    Graph_backward node w = Ok tt w' /\
    get_gradient node w' = Ok (constant (value n) (shape n) 1) w' /\
    forall q, depends_on (graph w) (id_ node) q -> has_grad (graph w') q.
Proof.
  intros Hr Hok Hsmall Hn Hv Hg.
  assert (Hr' : reachable realizes w)
    by (eapply reachable_mono; [| exact Hr]; intros f [H _]; exact H).
  assert (Hfs : funcs_satisfy keeps_valid (graph w)).
  { intros p m Hm. exact (proj2 (reachable_funcs _ _ Hr p m Hm)). }
  destruct (reachable_world_inv w Hr') as ((Hab & Hvc & _) & _).
  destruct (Graph_backward_Ok node w n Hab Hvc Hok Hn Hv Hg)
    as (w' & tr & E & _ & _ & (Ht & Hl & _) & Hn').
  exists w'. split; [exact E |].
  assert (Hok' : handle_ok (graph w') node).
  { destruct Hok as [Hg0 Hid]. split; [congruence |]. rewrite Hl. exact Hid. }
  split.
  { unfold get_gradient.
    rewrite (bind_Ok _ _ _ _ _ (CHECK_NODE_ok _ _ Hok')).
    rewrite (bind_Ok _ _ _ _ _ (node_at_Ok _ _ _ Hn')). reflexivity. }
  (* the loop, from the world the seed leaves *)
  unfold Graph_backward in E.
  rewrite (bind_Ok _ _ _ _ _ (CHECK_NODE_ok _ _ Hok)) in E.
  rewrite (bind_Ok _ _ _ _ _ (node_at_Ok _ _ _ Hn)) in E.
  rewrite Hv, Hg in E. simpl in E.
  apply bind_Ok_inv in E as ([] & w1 & E1 & E). injection E1 as <-.
  apply bind_Ok_inv in E as ([] & w2 & E2 & E).
  match type of E2 with
  | modify_node _ _ ?v = _ =>
      destruct (modify_node_grad v (id_ node) n
                  (with_grad (constant (value n) (shape n) 1))
                  (S (N.to_nat (id_ node))) Hn Hv)
        as (w2' & E2' & _ & F2 & Hn2); [lia | intros m; reflexivity |]
  end.
  rewrite E2 in E2'. injection E2' as <-. simpl in F2.
  rewrite (backward_iterations_small _ Hsmall) in E.
  destruct (backward_loop_grads (S (N.to_nat (id_ node))) w2 w'
              (args_below_frame _ _ _ F2 Hab)
              (values_closed_frame _ _ _ F2 Hvc)
              (funcs_satisfy_frame _ _ _ _ F2 Hfs))
    as (K & H); [| exact E |].
  { apply lookup_lt_Some in Hn2. lia. }
  intros q Hq. destruct (depends_on_last _ _ _ Hq) as [-> | (r & m & Hdr & Hm & Hqm)].
  - apply K. eexists. split; [exact Hn2 |]. simpl.
    apply valid_constant. exact Hv.
  - pose proof (depends_on_below _ _ _ Hab Hdr) as Hle.
    destruct (realized_dependencies _ _ _ Hab Hvc (ex_intro _ n (conj Hn Hv)) Hdr)
      as (m' & Hm' & Hvm).
    assert (m' = m) as -> by congruence.
    destruct (proj2 (proj2 F2) _ _ Hm) as (m2 & Hm2 & Hs & _).
    apply with_grad_eq_fields in Hs as (_ & _ & Hval & Hargs & _).
    apply (H (N.to_nat r) m2 q); [lia | exact Hm2 | congruence | congruence].
Qed.

(** ** No access outside [nodes_] *)

Lemma bind_Timeout {A B} (m : M A) (k : A -> M B) w :
  m w = Timeout -> bind m k w = Timeout.
Proof. unfold bind. intros ->. reflexivity. Qed.

Lemma for_each_Ok_or_Timeout {A} (l : list A) (body : A -> M unit)
    (I : World -> Prop) :
  (forall x w, x ∈ l -> I w ->
     (exists w', body x w = Ok tt w' /\ I w') \/ body x w = Timeout) ->
  forall w, I w ->
    (exists w', for_each l body w = Ok tt w' /\ I w') \/
    for_each l body w = Timeout.
Proof.
  intros Hbody. induction l as [| x l IH]; intros w HI; simpl.
  - left. exists w. auto.
  - destruct (Hbody x w) as [(w1 & E1 & HI1) | E1];
      [apply list_elem_of_here | exact HI | |].
    + rewrite (bind_Ok _ _ _ _ _ E1). apply IH; [| exact HI1].
      intros y v Hy. apply Hbody. apply list_elem_of_further. exact Hy.
    + right. apply bind_Timeout. exact E1.
Qed.

(** Whatever the fuel, the recursion of [forward] returns or runs out of
    fuel: it reads and writes inside [nodes_]. *)
Lemma forward_recursive_Ok_or_Timeout fuel id w :
  forward_inv (graph w) ->
  (N.to_nat id < length (nodes_ (graph w)))%nat ->
  (exists w', forward_recursive fuel id w = Ok tt w') \/
  forward_recursive fuel id w = Timeout.
Proof.
  revert id w. induction fuel as [| fuel IH]; intros id w Hinv Hid;
    [right; reflexivity |]. simpl.
  destruct (lookup_lt_is_Some_2 _ _ Hid) as [n Hn].
  rewrite (bind_Ok _ _ _ _ _ (node_at_Ok _ _ _ Hn)).
  destruct (valid (value n)); [left; eexists; reflexivity |].
  assert (Hbelow : forall a, a ∈ args n -> (N.to_nat a < N.to_nat id)%nat).
  { intros a Ha. destruct Hinv as (Hab & _). exact (Hab _ _ _ Hn Ha). }
  match goal with
  | |- context [for_each _ ?body] =>
      destruct (for_each_Ok_or_Timeout (args n) body
                  (fun v => forward_inv (graph v) /\
                            length (nodes_ (graph v)) = length (nodes_ (graph w))))
        with (w := w) as [(w1 & E1 & Hinv1 & Hlen1) | E1]
  end.
  { intros a v Ha [Hv Hlen]. specialize (Hbelow a Ha).
    destruct (IH a v Hv) as [(v1 & Ea) | Ea]; [lia | |].
    - left.
      destruct (forward_recursive_effect _ _ _ _ Hv Ea) as (Hv1 & (Hf & _) & _).
      assert (Hlen1 : length (nodes_ (graph v1)) = length (nodes_ (graph w)))
        by (destruct Hf as (_ & -> & _); exact Hlen).
      assert (Ha1 : (N.to_nat a < length (nodes_ (graph v1)))%nat) by lia.
      destruct (lookup_lt_is_Some_2 _ _ Ha1) as [m Hm].
      exists v1. rewrite (bind_Ok _ _ _ _ _ Ea).
      rewrite (bind_Ok _ _ _ _ _ (node_at_Ok _ _ _ Hm)). auto.
    - right. apply bind_Timeout. exact Ea. }
  { auto. }
  - left. rewrite (bind_Ok _ _ _ _ _ E1).
    destruct (deref_values_in_range (args n) w1) as (xs & E2).
    { apply Forall_forall. intros a Ha. specialize (Hbelow a Ha). lia. }
    rewrite (bind_Ok _ _ _ _ _ E2).
    unfold bind, emit, modify_node. simpl.
    assert (Hid1 : (N.to_nat id < length (nodes_ (graph w1)))%nat) by lia.
    destruct (lookup_lt_is_Some_2 _ _ Hid1) as [n1 ->]. eexists. reflexivity.
  - right. apply bind_Timeout. exact E1.
Qed.

(** On a reachable graph whose operations honour the contract of
    [forward], no public method reads or writes outside [nodes_],
    whatever handles it is given; and a method that takes one handle calls
    [std::abort()] only for a handle of this graph whose position is not
    below the number of nodes. *)
Theorem reachable_graph_is_never_accessed_out_of_range
    {laws : TensorLaws TL} (w : World) (f : Function) (nodes : list Node)
    (fuel : nat) (node : Node) :
  reachable realizes w ->
  (add_function f nodes w <> Fault /\
   Graph_forward fuel node w <> Fault /\
   Graph_backward node w <> Fault /\
   get_value node w <> Fault /\
   get_gradient node w <> Fault) /\
  (Graph_forward fuel node w = Abort \/ Graph_backward node w = Abort \/
   get_value node w = Abort \/ get_gradient node w = Abort ->
   g_ node = this (graph w) /\
   N.of_nat (length (nodes_ (graph w))) <= id_ node).
Proof.
  intros Hr. destruct (reachable_world_inv w Hr) as (Hinv & _).
  pose proof Hinv as (Hab & Hvc & _).
  assert (Hadd : add_function f nodes w <> Fault).
  { destruct (add_function_cases f nodes w)
      as [(shs & s & ns & _ & _ & _ & _ & E)
         | [(shs & what & _ & _ & _ & E)
           | [(pre & x & post & _ & _ & _ & E)
             | (pre & x & post & _ & _ & _ & _ & E)]]];
      rewrite E; discriminate. }
  destruct (decide (g_ node = this (graph w))) as [Hg | Hg].
  2: { pose proof (CHECK_NODE_foreign w node Hg) as E.
       split.
       - split; [exact Hadd |].
         unfold Graph_forward, Graph_backward, get_value, get_gradient.
         rewrite !(bind_Throw _ _ _ _ _ E). repeat split; discriminate.
       - unfold Graph_forward, Graph_backward, get_value, get_gradient.
         rewrite !(bind_Throw _ _ _ _ _ E).
         intros [H | [H | [H | H]]]; discriminate. }
  destruct (N.lt_ge_cases (id_ node) (N.of_nat (length (nodes_ (graph w)))))
    as [Hid | Hid].
  2: { pose proof (CHECK_NODE_out_of_range w node Hg Hid) as E.
       split; [| auto].
       split; [exact Hadd |].
       unfold Graph_forward, Graph_backward, get_value, get_gradient.
       rewrite !(bind_Abort _ _ _ E). repeat split; discriminate. }
  assert (Hok : handle_ok (graph w) node) by (split; assumption).
  destruct (handle_ok_lookup _ _ Hok) as [n Hn].
  assert (Hfwd : exists r, Graph_forward fuel node w = r /\
                   r <> Fault /\ r <> Abort).
  { unfold Graph_forward.
    rewrite (bind_Ok _ _ _ _ _ (CHECK_NODE_ok _ _ Hok)).
    destruct (forward_recursive_Ok_or_Timeout fuel (id_ node) w Hinv)
      as [(w' & E) | E]; [destruct Hok; lia | |].
    - rewrite (bind_Ok _ _ _ _ _ E).
      destruct (forward_recursive_effect _ _ _ _ Hinv E) as (_ & _ & (m & Hm & _)).
      rewrite (bind_Ok _ _ _ _ _ (node_at_Ok _ _ _ Hm)).
      eexists. split; [reflexivity |]. split; discriminate.
    - rewrite (bind_Timeout _ _ _ E).
      eexists. split; [reflexivity |]. split; discriminate. }
  assert (Hbwd : exists r, Graph_backward node w = r /\
                   r <> Fault /\ r <> Abort).
  { destruct (valid (value n)) eqn:Hv.
    - destruct (valid (grad n)) eqn:Hgr.
      + rewrite (Graph_backward_already _ _ _ Hok Hn Hv Hgr).
        eexists. split; [reflexivity |]. split; discriminate.
      + destruct (Graph_backward_Ok node w n Hab Hvc Hok Hn Hv Hgr)
          as (w' & tr & E & _).
        rewrite E. eexists. split; [reflexivity |]. split; discriminate.
    - rewrite (Graph_backward_not_calculated _ _ _ Hok Hn Hv).
      eexists. split; [reflexivity |]. split; discriminate. }
  assert (Hgv : get_value node w = Ok (value n) w).
  { unfold get_value. rewrite (bind_Ok _ _ _ _ _ (CHECK_NODE_ok _ _ Hok)).
    rewrite (bind_Ok _ _ _ _ _ (node_at_Ok _ _ _ Hn)). reflexivity. }
  assert (Hgg : get_gradient node w = Ok (grad n) w).
  { unfold get_gradient. rewrite (bind_Ok _ _ _ _ _ (CHECK_NODE_ok _ _ Hok)).
    rewrite (bind_Ok _ _ _ _ _ (node_at_Ok _ _ _ Hn)). reflexivity. }
  destruct Hfwd as (rf & -> & Hf1 & Hf2). destruct Hbwd as (rb & -> & Hb1 & Hb2).
  rewrite Hgv, Hgg. split.
  - repeat split; auto; discriminate.
  - intros [H | [H | [H | H]]]; try discriminate; contradiction.
Qed.

(** ** Beyond the range of [int] and of [unsigned] *)



(** [add_function] returns when every handle passes the check and
    [forward_shape] accepts the shapes of the operands. *)
Lemma add_function_Ok_of_handles f nodes w :
  Forall (handle_ok (graph w)) nodes ->
  (forall shs, Forall2 (shape_of_handle (graph w)) nodes shs ->
     exists s, forward_shape f shs = inl s) ->
  exists s ns,
    sinks_extended (to_unsigned (N.of_nat (length (nodes_ (graph w)))))
                   (nodes_ (graph w)) ns /\
    add_function f nodes w
      = Ok (mkNode (this (graph w))
                   (to_unsigned (N.of_nat (length (nodes_ (graph w))))))
           (mkWorld
              (mkGraph (this (graph w))
                 (ns ++ [mkNodeInfo s f Tensor_new Tensor_new
                                    (map id_ nodes) []]))
              (log w)).
Proof.
  intros Hall Hsh.
  destruct (add_function_cases f nodes w)
    as [(shs & s & ns & _ & _ & _ & Hext & E)
       | [(shs & what & _ & H2 & Hf & _)
         | [(pre & x & post & -> & _ & Hx & _)
           | (pre & x & post & -> & _ & _ & Hx & _)]]].
  - exists s, ns. auto.
  - destruct (Hsh _ H2) as [s Hs]. congruence.
  - rewrite Forall_app in Hall. destruct Hall as [_ Hall].
    apply Forall_cons in Hall as [[Hg _] _]. contradiction.
  - rewrite Forall_app in Hall. destruct Hall as [_ Hall].
    apply Forall_cons in Hall as [[_ Hid] _]. lia.
Qed.

(** When the position of the new node, narrowed to [unsigned], is not
    above the position of one of its operands, that operand gets a
    consumer that is not above it. *)
Lemma sinks_above_fails_when_position_wraps f nodes w nd w' p :
  add_function f nodes w = Ok nd w' ->
  p ∈ map id_ nodes ->
  to_unsigned (N.of_nat (length (nodes_ (graph w)))) <= p ->
  ~ sinks_above (graph w').
Proof.
  intros E Hp Hle Hsa.
  destruct (add_function_Ok_exact _ _ _ _ _ E) as (s & ns & Hall & [Hlen Hpush] & Hns).
  apply list_elem_of_fmap in Hp as (x & -> & Hx).
  rewrite Forall_forall in Hall. destruct (Hall _ Hx) as [_ Hid].
  assert (Hlt : (N.to_nat (id_ x) < length (nodes_ (graph w)))%nat) by lia.
  destruct (lookup_lt_is_Some_2 _ _ Hlt) as [n Hn].
  destruct (Hpush _ _ Hn) as (n' & Hn' & _ & Hsinks).
  rewrite N2Nat.id in Hsinks.
  assert (Hin : to_unsigned (N.of_nat (length (nodes_ (graph w)))) ∈ sinks n').
  { rewrite Hsinks. apply elem_of_app. right.
    assert (Hc : (0 < count_occ N.eq_dec (map id_ nodes) (id_ x))%nat).
    { apply count_occ_In. apply in_map. apply list_elem_of_In. exact Hx. }
    destruct (count_occ N.eq_dec (map id_ nodes) (id_ x)); [lia |].
    simpl. apply list_elem_of_here. }
  assert (Hn'' : nodes_ (graph w') !! N.to_nat (id_ x) = Some n').
  { rewrite Hns. rewrite lookup_app_l by (rewrite Hlen; exact Hlt). exact Hn'. }
  pose proof (Hsa _ _ _ Hn'' Hin). lia.
Qed.

End Proofs.

(** * Runs on the small tensor capability *)

Module Runs.

Import Toy.

#[export] Instance toy_laws : TensorLaws toy.
Proof.
  split.
  - reflexivity.
  - intros [p |] s k H; [reflexivity | discriminate H].
Qed.

Lemma realizes_f_input s x : realizes (f_input s x).
Proof. intros xs _. reflexivity. Qed.

Lemma realizes_f_add : realizes f_add.
Proof.
  intros xs H. simpl. induction H as [| [[s a] |] xs Hx _ IH]; simpl.
  - reflexivity.
  - destruct (sum_values xs) as [[s' b] |]; [reflexivity | discriminate IH].
  - discriminate Hx.
Qed.

Lemma reachable_w3 : reachable realizes w3.
Proof.
  apply reach_add_function
    with (w := w2) (f := f_add) (nodes := [mkNode G 0; mkNode G 1]);
    [| apply realizes_f_add | reflexivity].
  apply reach_add_function
    with (w := w1) (f := f_input Shape_scalar 4) (nodes := []);
    [| apply realizes_f_input | reflexivity].
  apply reach_add_function
    with (w := w0) (f := f_input Shape_scalar 3) (nodes := []);
    [| apply realizes_f_input | reflexivity].
  apply reach_new.
Qed.

Lemma reachable_w4 : reachable realizes w4.
Proof.
  apply reach_forward with (w := w3) (fuel := 3%nat) (node := mkNode G 2);
    [apply reachable_w3 | reflexivity].
Qed.

Lemma handle_ok_w3 i : i < 3 -> handle_ok (graph w3) (mkNode G i).
Proof. intros H. split; [reflexivity | exact H]. Qed.

Lemma handle_ok_w4 i : i < 3 -> handle_ok (graph w4) (mkNode G i).
Proof. intros H. split; [reflexivity | exact H]. Qed.

(** The extent of the third axis of a shape of depth two is 1, and batch
    sizes 4 and 1 are compatible. *)
Lemma has_compatible_batch_iff_and_subscript_beyond_depth_witness :
  has_compatible_batch (mkShape [2; 3] 4 6) (mkShape [2; 3] 1 6) = true /\
  subscript (mkShape [2; 3] 1 6) 2 = 1.
Proof.
  split.
  - apply (proj1 has_compatible_batch_iff_and_subscript_beyond_depth).
    right. right. reflexivity.
  - apply (proj2 has_compatible_batch_iff_and_subscript_beyond_depth).
    vm_compute. discriminate.
Defined.

(** A handle of graph 8 and a handle at position 5 of a graph of three
    nodes, each after one good handle. *)
Lemma foreign_handle_throws_and_bad_position_aborts_witness :
  (add_function f_add ([mkNode G 0] ++ mkNode 8 1 :: []) w3
     = Throw (GraphMismatched 8 G) w3 /\
   Graph_backward (mkNode 8 1) w3 = Throw (GraphMismatched 8 G) w3) /\
  (add_function f_add ([mkNode G 0] ++ mkNode G 5 :: []) w3 = Abort /\
   Graph_backward (mkNode G 5) w3 = Abort).
Proof.
  assert (Hpre : Forall (handle_ok (graph w3)) [mkNode G 0]).
  { constructor; [apply handle_ok_w3; reflexivity | constructor]. }
  split.
  - destruct (proj1 (foreign_handle_throws_and_bad_position_aborts
                       w3 (mkNode 8 1) f_add [mkNode G 0] [] 3%nat Hpre))
      as (Ha & _ & Hb & _).
    { vm_compute. discriminate. }
    split; [exact Ha | exact Hb].
  - destruct (proj2 (foreign_handle_throws_and_bad_position_aborts
                       w3 (mkNode G 5) f_add [mkNode G 0] [] 3%nat Hpre))
      as (Ha & _ & Hb & _).
    { reflexivity. }
    { vm_compute. discriminate. }
    split; [exact Ha | exact Hb].
Defined.

(** The sum of a [2,3] leaf and a [4,5] leaf is refused and the graph
    keeps its two nodes. *)
Lemma add_function_all_or_nothing_witness :
  add_function f_add [mkNode G 0; mkNode G 1] m2
    = Throw (Raised "shape mismatch") m2 /\
  length (nodes_ (graph m2)) = 2%nat.
Proof.
  split; [| reflexivity].
  apply (proj2 (add_function_all_or_nothing m2 f_add
                  [mkNode G 0; mkNode G 1]) [shape23; shape45]).
  - repeat constructor.
  - repeat constructor; eexists; (split; [reflexivity | reflexivity]).
  - reflexivity.
Defined.

(** Differentiating [z] before its value is computed. *)
Lemma backward_failure_is_atomic_witness :
  Graph_backward (mkNode G 2) w3 = Throw (NotCalculated 2) w3 /\ w3 = w3.
Proof.
  assert (E : Graph_backward (mkNode G 2) w3 = Throw (NotCalculated 2) w3)
    by reflexivity.
  split; [exact E |].
  exact (proj1 (proj1 (backward_failure_is_atomic w3 (mkNode G 2) _ w3) E)).
Defined.

(** Differentiating [z] once its value is computed, then again. *)
Lemma backward_checks_its_preconditions_witness :
  exists w',
    Graph_backward (mkNode G 2) w4 = Ok tt w' /\
    Graph_backward (mkNode G 2) w' = Throw (AlreadyHasGradient 2) w'.
Proof.
  apply (proj2 (proj2 (backward_checks_its_preconditions
                         w4 (mkNode G 2) (node_of w4 2)
                         reachable_w4 (handle_ok_w4 2 eq_refl) eq_refl)));
    reflexivity.
Defined.


Lemma positions_are_a_dependency_order_witness :
  args_below (graph w3) /\
  dependency_order (graph w3) [0; 1; 2]%nat.
Proof.
  destruct (positions_are_a_dependency_order realizes w3 reachable_w3)
    as (Ha & Hd & _).
  split; [exact Ha | exact Hd].
Defined.

Lemma sinks_point_to_later_nodes_witness : sinks_above (graph w3).
Proof.
  apply (sinks_point_to_later_nodes realizes w3 reachable_w3).
  vm_compute. discriminate.
Defined.

Lemma forward_is_memoized_witness :
  NoDup (forward_ids (log w4)) /\
  exists v w', Graph_forward 3 (mkNode G 2) w3 = Ok v w' /\
    Graph_forward 1 (mkNode G 2) w' = Ok v w'.
Proof.
  split.
  - exact (proj1 (forward_is_memoized w4 reachable_w4)).
  - destruct (forward_is_memoized w3 reachable_w3) as (_ & Hf & Ht).
    destruct (Ht 3%nat (mkNode G 2) (handle_ok_w3 2 eq_refl)) as (v & w' & E);
      [simpl; lia |].
    exists v, w'. split; [exact E |].
    exact (proj2 (proj2 (Hf _ _ _ _ E)) 0%nat).
Defined.

(** C1: for [z = x + y], a node with two operands, [backward] is called
    twice, first with one operand value and one operand gradient, then
    with two of each; with an operation that adds the gradient of the
    result to every gradient it is given, [x] ends with gradient 2 and
    [y] with gradient 1. *)
Theorem backward_is_called_once_per_operand :
  args (node_of w4 2) = [0; 1] /\
  Graph_backward (mkNode G 2) w4 = Ok tt w5 /\
  backward_calls (log w5) = [(2, 1%nat, 1%nat); (2, 2%nat, 2%nat)] /\
  grad (node_of w5 0) = Some (Shape_scalar, 2%Z) /\
  grad (node_of w5 1) = Some (Shape_scalar, 1%Z).
Proof. repeat split; vm_compute; reflexivity. Qed.

(** Without the contract of [forward] the memoization fails: a node
    whose operation returns a default-constructed tensor is computed again
    by every evaluation. *)
Example forward_of_a_void_operation_is_repeated :
  forward_ids (log v3) = [0; 0].
Proof. reflexivity. Qed.

Lemma subscript_reads_inside_dims_witness :
  dims_ (mkShape [2; 3] 1 6) !! 1%nat = Some (subscript (mkShape [2; 3] 1 6) 1).
Proof.
  apply (subscript_reads_inside_dims (mkShape [2; 3] 1 6) 1).
  vm_compute. reflexivity.
Defined.

Lemma Shape_eqb_is_an_equivalence_witness :
  Shape_eqb (mkShape [2; 3] 4 6) (mkShape [2; 3] 4 6) = true /\
  subscript (mkShape [2; 3] 4 6) 1 = subscript (mkShape [2; 3] 4 6) 1.
Proof.
  destruct Shape_eqb_is_an_equivalence as (Hrefl & _ & _ & _ & Hq).
  split; [apply Hrefl |].
  destruct (Hq (mkShape [2; 3] 4 6) (mkShape [2; 3] 4 6) eq_refl)
    as (_ & _ & Hs & _).
  apply Hs.
Defined.

Lemma has_compatible_batch_is_not_transitive_witness :
  has_compatible_batch (mkShape [] 1 1) (mkShape [2; 3] 4 6) = true.
Proof.
  apply (proj1 (proj2 (proj2 has_compatible_batch_is_not_transitive))
           (mkShape [] 1 1) (mkShape [2; 3] 4 6)).
  reflexivity.
Defined.

Lemma forward_writes_values_and_backward_gradients_only_witness :
  with_value None <$> nodes_ (graph w4) = with_value None <$> nodes_ (graph w3) /\
  with_grad None <$> nodes_ (graph w5) = with_grad None <$> nodes_ (graph w4).
Proof.
  split.
  - apply (proj1 (forward_writes_values_and_backward_gradients_only
                    w3 w4 (mkNode G 2) 3%nat)).
    reflexivity.
  - apply (proj2 (forward_writes_values_and_backward_gradients_only
                    w4 w5 (mkNode G 2) 0%nat)).
    reflexivity.
Defined.



Lemma add_function_returns_a_fresh_handle_witness :
  handle_ok (graph w3) (mkNode G 2) /\
  get_value (mkNode G 2) w3 = Ok None w3 /\
  Graph_backward (mkNode G 2) w3 = Throw (NotCalculated 2) w3.
Proof.
  destruct (add_function_returns_a_fresh_handle
              w2 f_add [mkNode G 0; mkNode G 1] (mkNode G 2) w3 eq_refl)
    as (Hok & _ & _ & H).
  destruct H as (_ & Hv & _ & Hb); [vm_compute; reflexivity |].
  split; [exact Hok |]. split; [exact Hv | exact Hb].
Defined.

Lemma forward_touches_only_dependencies_witness :
  (forall i, ~ depends_on (graph w3) 2 (N.of_nat i) ->
     nodes_ (graph w4) !! i = nodes_ (graph w3) !! i) /\
  exists tr, log w4 = log w3 ++ tr /\
    Forall (forward_call_within (graph w3) 2) tr.
Proof.
  apply (forward_touches_only_dependencies
           w3 3%nat (mkNode G 2) (value (node_of w4 2)) w4).
  reflexivity.
Defined.

Lemma values_agree_with_operations_witness : values_consistent (graph w4).
Proof. apply (values_agree_with_operations w4). exact reachable_w4. Defined.

Lemma forward_realizes_the_dependencies_witness :
  valid (value (node_of w4 2)) = true /\
  get_value (mkNode G 2) w4 = Ok (value (node_of w4 2)) w4 /\
  forall q, depends_on (graph w4) 2 q -> realized (graph w4) q.
Proof.
  apply (forward_realizes_the_dependencies
           w3 3%nat (mkNode G 2) (value (node_of w4 2)) w4 reachable_w3).
  reflexivity.
Defined.

Lemma consumers_mirror_operands_witness :
  sinks_mirror_args (graph w3) /\
  (2 ∈ sinks (node_of w3 0) <-> 0 ∈ args (node_of w3 2)).
Proof.
  destruct (consumers_mirror_operands realizes w3 reachable_w3) as [Hm Hiff].
  { vm_compute. discriminate. }
  split; [exact Hm |].
  exact (Hiff 0%nat 2%nat (node_of w3 0) (node_of w3 2) eq_refl eq_refl).
Defined.

Lemma well_behaved_f_input s x : well_behaved (f_input s x).
Proof.
  split; [apply realizes_f_input |].
  intros y gy xs u t Hu. simpl in Hu. apply elem_of_nil in Hu. contradiction.
Qed.

Lemma well_behaved_f_add : well_behaved f_add.
Proof.
  split; [apply realizes_f_add |].
  intros y [[s g] |] xs u t Hu Ht; simpl in Hu.
  - apply list_elem_of_fmap in Hu as (x & -> & _).
    destruct t as [[s' a] |]; [reflexivity | discriminate Ht].
  - apply elem_of_nil in Hu. contradiction.
Qed.

Lemma well_behaved_w4 : reachable well_behaved w4.
Proof.
  apply reach_forward with (w := w3) (fuel := 3%nat) (node := mkNode G 2);
    [| reflexivity].
  apply reach_add_function
    with (w := w2) (f := f_add) (nodes := [mkNode G 0; mkNode G 1]);
    [| apply well_behaved_f_add | reflexivity].
  apply reach_add_function
    with (w := w1) (f := f_input Shape_scalar 4) (nodes := []);
    [| apply well_behaved_f_input | reflexivity].
  apply reach_add_function
    with (w := w0) (f := f_input Shape_scalar 3) (nodes := []);
    [| apply well_behaved_f_input | reflexivity].
  apply reach_new.
Qed.

Lemma backward_leaves_gradients_on_dependencies_witness :
  exists w',
    Graph_backward (mkNode G 2) w4 = Ok tt w' /\
    get_gradient (mkNode G 2) w' = Ok (Some (Shape_scalar, 1%Z)) w' /\
    forall q, depends_on (graph w4) 2 q -> has_grad (graph w') q.
Proof.
  apply (backward_leaves_gradients_on_dependencies
           w4 (mkNode G 2) (node_of w4 2)
           well_behaved_w4 (handle_ok_w4 2 eq_refl));
    reflexivity.
Defined.

Lemma backward_is_called_for_every_operand_witness :
  exists w',
    Graph_backward (mkNode G 2) w4 = Ok tt w' /\
    backward_ids (log w')
      = backward_ids (log w4)
        ++ flat_map (backward_calls_at (graph w4)) (rev (seq 0 3)).
Proof.
  apply (backward_is_called_for_every_operand w4 (mkNode G 2) (node_of w4 2)).
  - exact (proj1 (reachable_structure realizes w4 reachable_w4)).
  - exact (proj1 (proj2 (proj1 (reachable_world_inv w4 reachable_w4)))).
  - exact (handle_ok_w4 2 eq_refl).
  - reflexivity.
  - reflexivity.
  - reflexivity.
  - reflexivity.
Defined.

Lemma reachable_graph_is_never_accessed_out_of_range_witness :
  Graph_forward 1 (mkNode G 2) w3 <> Fault /\
  Graph_backward (mkNode G 9) w4 <> Fault.
Proof.
  split.
  - exact (proj1 (proj2 (proj1
             (reachable_graph_is_never_accessed_out_of_range
                w3 f_add [] 1%nat (mkNode G 2) reachable_w3)))).
  - exact (proj1 (proj2 (proj2 (proj1
             (reachable_graph_is_never_accessed_out_of_range
                w4 f_add [] 1%nat (mkNode G 9) reachable_w4))))).
Defined.

Lemma reachable_leaves k : reachable realizes (leaves k).
Proof.
  induction k as [| k IH].
  - apply reach_new.
  - apply reach_add_function
      with (w := leaves k) (f := f_input Shape_scalar 3) (nodes := []);
      [exact IH | apply realizes_f_input |].
    unfold leaves. simpl. rewrite replicate_cons_app. reflexivity.
Qed.

Lemma handle_ok_leaves k i :
  i < N.of_nat k -> handle_ok (graph (leaves k)) (mkNode G i).
Proof.
  intros H. split; [reflexivity |]. unfold leaves. simpl.
  rewrite length_replicate. exact H.
Qed.

(** [z = x + x] for the first of [k] leaves. *)
Lemma add_to_leaves k :
  (0 < k)%nat ->
  exists s ns,
    sinks_extended (to_unsigned (N.of_nat k)) (replicate k leaf) ns /\
    add_function f_add [mkNode G 0; mkNode G 0] (leaves k)
      = Ok (mkNode G (to_unsigned (N.of_nat k)))
           (mkWorld (mkGraph G (ns ++ [mkNodeInfo s f_add None None [0; 0] []]))
                    []).
Proof.
  intros Hk.
  assert (Hok : handle_ok (graph (leaves k)) (mkNode G 0))
    by (apply handle_ok_leaves; lia).
  destruct (add_function_Ok_of_handles f_add [mkNode G 0; mkNode G 0] (leaves k))
    as (s & ns & Hext & E).
  { constructor; [exact Hok |]. constructor; [exact Hok | constructor]. }
  { intros shs H.
    apply Forall2_cons_inv_l in H as (s1 & shs1 & (n1 & Hn1 & <-) & H & ->).
    apply Forall2_cons_inv_l in H as (s2 & shs2 & (n2 & Hn2 & <-) & H & ->).
    apply Forall2_nil_inv_l in H as ->.
    unfold leaves in Hn1, Hn2. simpl in Hn1, Hn2.
    apply lookup_replicate_1 in Hn1 as [-> _].
    apply lookup_replicate_1 in Hn2 as [-> _].
    exists Shape_scalar. reflexivity. }
  unfold leaves in Hext, E. simpl in Hext, E. rewrite length_replicate in Hext, E.
  exists s, ns. auto.
Qed.

(** After [k] leaves with [k] a multiple of [2^32], the position of the
    next node narrows to 0. *)
Lemma consumer_position_wraps k :
  (0 < k)%nat -> to_unsigned (N.of_nat k) = 0 ->
  exists nd w',
    reachable realizes (leaves k) /\
    add_function f_add [mkNode G 0; mkNode G 0] (leaves k) = Ok nd w' /\
    id_ nd = 0 /\
    reachable realizes w' /\
    ~ sinks_above (graph w').
Proof.
  intros Hk Hwrap. destruct (add_to_leaves k Hk) as (s & ns & _ & E).
  eexists. eexists. split; [apply reachable_leaves |].
  split; [exact E |]. split; [exact Hwrap |]. split.
  - apply reach_add_function
      with (w := leaves k) (f := f_add) (nodes := [mkNode G 0; mkNode G 0]);
      [apply reachable_leaves | apply realizes_f_add |].
    rewrite E. reflexivity.
  - apply (sinks_above_fails_when_position_wraps _ _ _ _ _ 0 E).
    + simpl. apply list_elem_of_here.
    + unfold leaves. simpl. rewrite length_replicate, Hwrap. reflexivity.
Qed.


(** C9, counterexample: the invariant of consumer lists fails past
    [2^32] nodes.  For [2^32] leaves and then [z = x + x] with [x] the
    first leaf, the position of [z] narrows to 0, the position of [x]
    itself, and that is what the consumer list of [x] receives: the graph
    is reachable and a consumer position is not above its node. *)
Lemma consumer_position_wraps_past_unsigned :
  exists nd w',
    reachable realizes (leaves (N.to_nat (2 ^ 32))) /\
    add_function f_add [mkNode G 0; mkNode G 0] (leaves (N.to_nat (2 ^ 32)))
      = Ok nd w' /\
    id_ nd = 0 /\
    reachable realizes w' /\
    ~ sinks_above (graph w').
Proof.
  apply consumer_position_wraps; [lia |].
  rewrite N2Nat.id. reflexivity.
Qed.


End Runs.
